(** * Exact-rational Gaussian elimination: the solver of [project.py]

    A shallow embedding of [LinearSystemSolver] ([format_value],
    [print_matrix], [solve]) together with the part of Python's
    [fractions.Fraction] the solver relies on, followed by the properties of
    the solver that its specification states.

    Conventions of the embedding:
    - a Python [int] is a [Z]; a list index, always non-negative in the
      solver, is a [nat];
    - a [Fraction] is the record of its two integer slots, and the class
      invariant (positive denominator, lowest terms) is the predicate
      [canonical], established by the operations rather than assumed;
    - an exception is a [Raise] result; [solve] runs in a monad whose state
      is the text handed to [log_callback] so far, so that what was logged
      before an exception stays logged;
    - a [for] loop is [for_in] over the list it ranges over, its body
      returning [Next] (end of the body, or [continue]) or [Break];
    - the in-place update [matrix[r] = new_row] is the list update
      [<[r := new_row]> matrix], checked against the length as Python does. *)

From Stdlib Require Import ZArith List String Ascii Lia Bool Znumtheory.
From Stdlib Require Import QArith Qabs.
From Stdlib Require Import DecimalString DecimalZ DecimalPos DecimalFacts.
From Equations Require Import Equations.
From stdpp Require Import base list strings.

Local Open Scope Z_scope.

(** ** Python exceptions and results *)

Inductive exn : Type :=
| ZeroDivisionError
| IndexError
| ValueError.

Inductive result (A : Type) : Type :=
| Ok (a : A)
| Raise (e : exn).
Arguments Ok {A} a.
Arguments Raise {A} e.

Definition result_bind {A B : Type} (r : result A) (k : A -> result B) : result B :=
  match r with
  | Ok a => k a
  | Raise e => Raise e
  end.

(** ** [fractions.Fraction] *)

(** A [Fraction] object: the two integer slots [_numerator] and
    [_denominator]. *)
Record Fraction : Type := mkFraction { numerator : Z; denominator : Z }.

(** The class invariant of [Fraction]: positive denominator, lowest terms. *)
Definition canonical (x : Fraction) : Prop :=
  0 < denominator x /\ Z.gcd (numerator x) (denominator x) = 1.

Definition canonicalb (x : Fraction) : bool :=
  (0 <? denominator x) && (Z.gcd (numerator x) (denominator x) =? 1).

(** The normalising step of [Fraction.__new__]:
    [g = math.gcd(n, d); if d < 0: g = -g; n //= g; d //= g]. *)
Definition normalize (n d : Z) : Fraction :=
  let g := Z.gcd n d in
  let g := if d <? 0 then - g else g in
  mkFraction (n / g) (d / g).

(** [Fraction(n, d)] on two ints. *)
Definition Fraction_new (n d : Z) : result Fraction :=
  if d =? 0 then Raise ZeroDivisionError else Ok (normalize n d).

(** [a - b]: [Fraction(na * db - nb * da, da * db)]. *)
Definition Fraction_sub (a b : Fraction) : Fraction :=
  normalize (numerator a * denominator b - numerator b * denominator a)
            (denominator a * denominator b).

(** [a * b]: [Fraction(na * nb, da * db)]. *)
Definition Fraction_mul (a b : Fraction) : Fraction :=
  normalize (numerator a * numerator b) (denominator a * denominator b).

(** [a / b]: [Fraction(na * db, da * nb)], which raises when [nb] is zero. *)
Definition Fraction_div (a b : Fraction) : result Fraction :=
  Fraction_new (numerator a * denominator b) (denominator a * numerator b).

(** [a == n] for an int [n]:
    [a._numerator == n and a._denominator == 1]. *)
Definition Fraction_eq_int (a : Fraction) (n : Z) : bool :=
  (numerator a =? n) && (denominator a =? 1).

(** The default bound of [limit_denominator]. *)
Definition max_denominator_default : Z := 1000000.

(** The [while True] loop of [limit_denominator]; it returns the values of
    [p0, q0, p1, q1, n, d] at the [break]. Each iteration replaces [d] by
    [n - (n // d) * d], which is smaller in absolute value, and [n // d]
    raises when [d] is zero: the loop is defined by recursion on [|d|]. *)
Equations? limit_loop (max_denominator p0 q0 p1 q1 n d : Z)
  : result (Z * Z * Z * Z * Z * Z) by wf (Z.abs_nat d) lt :=
  limit_loop max_denominator p0 q0 p1 q1 n d with Z.eq_dec d 0 := {
    | left _ => Raise ZeroDivisionError
    | right Hd =>
        let a := n / d in
        let q2 := q0 + a * q1 in
        if max_denominator <? q2 then Ok (p0, q0, p1, q1, n, d)
        else limit_loop max_denominator p1 q1 (p0 + a * p1) q2 d (n - a * d) }.
Proof.
  assert (Hm : n - a * d = n mod d)
    by (subst a; rewrite Z.mod_eq by assumption; lia).
  rewrite Hm.
  destruct (Z.lt_ge_cases 0 d) as [Hpos | Hneg].
  - pose proof (Z.mod_pos_bound n d Hpos). lia.
  - assert (Hlt : d < 0) by lia. pose proof (Z.mod_neg_bound n d Hlt). lia.
Qed.

(** [x.limit_denominator(max_denominator)]. *)
Definition limit_denominator_with (max_denominator : Z) (x : Fraction) : result Fraction :=
  if max_denominator <? 1 then Raise ValueError
  else if denominator x <=? max_denominator then Ok x
  else
    result_bind
      (limit_loop max_denominator 0 1 1 0 (numerator x) (denominator x))
      (fun '(p0, q0, p1, q1, n, d) =>
         if q1 =? 0 then Raise ZeroDivisionError
         else
           let k := (max_denominator - q0) / q1 in
           if 2 * d * (q0 + k * q1) <=? denominator x
           then Ok (mkFraction p1 q1)
           else Ok (mkFraction (p0 + k * p1) (q0 + k * q1))).

Definition limit_denominator (x : Fraction) : result Fraction :=
  limit_denominator_with max_denominator_default x.

(** ** [Fraction(s)] on text *)

(** [int(s)] on a non-empty string of decimal digits. *)
Definition int_of_digits (s : string) : result Z :=
  match NilZero.uint_of_string s with
  | Some d => Ok (Z.of_uint d)
  | None => Raise ValueError
  end.

(** The optional sign of the grammar: [(negative, rest)]. *)
Definition split_sign (s : string) : bool * string :=
  match s with
  | String "-" rest => (true, rest)
  | String "+" rest => (false, rest)
  | _ => (false, s)
  end.

(** The text before the first ["/"] and, when there is one, the text after
    it. *)
Fixpoint split_slash (s : string) : string * option string :=
  match s with
  | EmptyString => (EmptyString, None)
  | String c rest =>
      if Ascii.eqb c "/" then (EmptyString, Some rest)
      else let '(num, denom) := split_slash rest in (String c num, denom)
  end.

(** [Fraction(s)] for a string, on the two forms of its grammar that
    [format_value] produces: [sign digits] and [sign digits/digits]. The
    numerator gets the sign, then the pair is normalised as in
    [Fraction(n, d)]. Any other text (the decimal and exponent
    forms, embedded blanks or underscores are not modelled) is a
    [ValueError]. *)
Definition Fraction_of_string (s : string) : result Fraction :=
  let '(negative, body) := split_sign s in
  let '(num, denom) := split_slash body in
  result_bind (int_of_digits num) (fun n =>
  let n := if negative then - n else n in
  match denom with
  | None => Fraction_new n 1
  | Some ds => result_bind (int_of_digits ds) (fun d => Fraction_new n d)
  end).

(** ** Caller-supplied values and [Fraction(x)] *)

(** The numeric values a caller can put in [coefficients] and [constants]:
    an [int], a [Fraction], or a finite [float] of value [m * 2 ^ e]. *)
Inductive pyvalue : Type :=
| PyInt (n : Z)
| PyFraction (x : Fraction)
| PyFloat (m e : Z).

(** [Fraction(x)]: an int [n] becomes [n/1], a [Fraction] keeps its slots, a
    float becomes the fraction of [x.as_integer_ratio()], its exact value. *)
Definition Fraction_of (v : pyvalue) : Fraction :=
  match v with
  | PyInt n => mkFraction n 1
  | PyFraction x => mkFraction (numerator x) (denominator x)
  | PyFloat m e =>
      if 0 <=? e then mkFraction (m * 2 ^ e) 1 else normalize m (2 ^ (- e))
  end.

(** A well-formed caller value: a [Fraction] object satisfies its class
    invariant. *)
Definition pyvalue_ok (v : pyvalue) : Prop :=
  match v with
  | PyFraction x => canonical x
  | _ => True
  end.

(** ** Strings *)

Definition newline : string := String "010" EmptyString.

(** [str(n)] for an int. *)
Definition str (n : Z) : string := NilZero.string_of_int (Z.to_int n).

Definition str_nat (n : nat) : string := str (Z.of_nat n).

(** [s * n]. *)
Fixpoint str_mul (s : string) (n : nat) : string :=
  match n with
  | O => EmptyString
  | S n' => s +:+ str_mul s n'
  end.

(** [f"{s:>8}"]: right-aligned in a field of the given width. *)
Definition rjust (width : nat) (s : string) : string :=
  str_mul " " (width - String.length s) +:+ s.

(** [format_value]. *)
Definition format_value (x : Fraction) : string :=
  if denominator x =? 1 then str (numerator x)
  else str (numerator x) +:+ "/" +:+ str (denominator x).

(** ** The solver monad: a log sink and Python exceptions *)

(** The state is the text handed to [log_callback] so far, in emission
    order. *)
Definition M (A : Type) : Type := list string -> result A * list string.

Definition ret {A : Type} (a : A) : M A := fun lg => (Ok a, lg).

Definition bind {A B : Type} (c : M A) (k : A -> M B) : M B :=
  fun lg =>
    match c lg with
    | (Ok a, lg') => k a lg'
    | (Raise e, lg') => (Raise e, lg')
    end.

Definition lift {A : Type} (r : result A) : M A := fun lg => (r, lg).

Declare Scope solver_scope.
Delimit Scope solver_scope with solver.
Notation "'let!' x ':=' c 'in' k" := (bind c (fun x => k))
  (at level 10, x name, c at level 100, k at level 200) : solver_scope.
Notation "'do!' c 'in' k" := (bind c (fun _ => k))
  (at level 10, c at level 100, k at level 200) : solver_scope.
Local Open Scope solver_scope.

(** [self.log(message)]: [self.log_callback(str(message) + "\n")]. *)
Definition log (message : string) : M unit :=
  fun lg => (Ok tt, lg ++ [message +:+ newline]).

(** [l[i]] for a non-negative index. *)
Definition getitem {A : Type} (l : list A) (i : nat) : result A :=
  match l !! i with
  | Some x => Ok x
  | None => Raise IndexError
  end.

(** [l[-1]]. *)
Definition getitem_last {A : Type} (l : list A) : result A :=
  match l with
  | [] => Raise IndexError
  | _ => getitem l (length l - 1)
  end.

(** [l[i] = x] for a non-negative index. *)
Definition setitem {A : Type} (l : list A) (i : nat) (x : A) : result (list A) :=
  if (i <? length l)%nat then Ok (<[i := x]> l) else Raise IndexError.

(** A list comprehension [[f(x) for x in l]] whose element expression can
    raise. *)
Fixpoint comprehension {A B : Type} (f : A -> result B) (l : list A) : result (list B) :=
  match l with
  | [] => Ok []
  | x :: l' =>
      result_bind (f x) (fun y =>
      result_bind (comprehension f l') (fun ys => Ok (y :: ys)))
  end.

(** How the body of a [for] loop hands over: to the next iteration (the end
    of the body, or [continue]) or out of the loop ([break]). *)
Inductive flow (S : Type) : Type :=
| Next (s : S)
| Break (s : S).
Arguments Next {S} s.
Arguments Break {S} s.

(** [for x in l: body], threading the variables the body assigns. *)
Fixpoint for_in {A S : Type} (l : list A) (body : A -> S -> M (flow S)) (s : S) : M S :=
  match l with
  | [] => ret s
  | x :: l' =>
      let! f := body x s in
      match f with
      | Next s' => for_in l' body s'
      | Break s' => ret s'
      end
  end.

(** [range(a, b)] and [range(a - 1, -1, -1)]. *)
Definition range (a b : nat) : list nat := seq a (b - a).
Definition range_down (a : nat) : list nat := rev (seq 0 a).

(** ** [LinearSystemSolver] *)

Abbreviation Matrix := (list (list Fraction)).

Definition format_row (row : list Fraction) : string :=
  " [" +:+ String.concat ", " (map (fun x => rjust 8 (format_value x)) row) +:+ "]".

(** [print_matrix]. *)
Definition print_matrix (matrix : Matrix) (title : string) : M unit :=
  do! log (newline +:+ "--- " +:+ title +:+ " ---") in
  do! for_in matrix (fun row _ => do! log (format_row row) in ret (Next tt)) tt in
  log (str_mul "-" 40).

Definition default_title : string := "Current Matrix State".

(** The row of the augmented matrix built for equation [i]. *)
Definition build_row (coefficients : list (list pyvalue)) (constants : list pyvalue)
    (i : nat) : result (list Fraction) :=
  result_bind (getitem coefficients i) (fun coeffs =>
  result_bind (comprehension (fun x => limit_denominator (Fraction_of x)) coeffs) (fun cs =>
  result_bind (getitem constants i) (fun c =>
  result_bind (limit_denominator (Fraction_of c)) (fun k =>
  Ok (cs ++ [k]))))).

Definition build_matrix (coefficients : list (list pyvalue)) (constants : list pyvalue)
    (rows : nat) : M Matrix :=
  for_in (range 0 rows)
    (fun i matrix =>
       let! row_copy := lift (build_row coefficients constants i) in
       ret (Next (matrix ++ [row_copy])))
    [].

(** The row-scale operation:
    [matrix[pivot_row] = [x / pivot_val for x in matrix[pivot_row]]]. *)
Definition row_scale (matrix : Matrix) (pivot_row : nat) (pivot_val : Fraction)
  : result Matrix :=
  result_bind (getitem matrix pivot_row) (fun row =>
  result_bind (comprehension (fun x => Fraction_div x pivot_val) row) (fun new_row =>
  setitem matrix pivot_row new_row)).

(** The row-subtract operation of both phases:
    [new_row = [matrix[r][c] - (factor * matrix[p][c]) for c in range(cols)]]
    followed by [matrix[r] = new_row]. *)
Definition row_subtract (matrix : Matrix) (r p : nat) (factor : Fraction) (cols : nat)
  : result Matrix :=
  result_bind
    (comprehension
       (fun c_idx =>
          result_bind (getitem matrix r) (fun row_r =>
          result_bind (getitem row_r c_idx) (fun a =>
          result_bind (getitem matrix p) (fun row_p =>
          result_bind (getitem row_p c_idx) (fun b =>
          Ok (Fraction_sub a (Fraction_mul factor b)))))))
       (range 0 cols))
    (fun new_row => setitem matrix r new_row).

Definition subtract_message (r p : nat) (factor : Fraction) : string :=
  "OPERATION: R" +:+ str_nat (r + 1) +:+ " <--- R" +:+ str_nat (r + 1) +:+
  " - (" +:+ format_value factor +:+ " * R" +:+ str_nat (p + 1) +:+ ")".

Definition scale_message (pivot_row : nat) (pivot_val : Fraction) : string :=
  "OPERATION: R" +:+ str_nat (pivot_row + 1) +:+ " <--- R" +:+ str_nat (pivot_row + 1) +:+
  " / (" +:+ format_value pivot_val +:+ ")".

Definition zero_pivot_message (pivot_row col : nat) : string :=
  "Pivot at R" +:+ str_nat (pivot_row + 1) +:+ ", C" +:+ str_nat (col + 1) +:+
  " is zero. Swapping disabled, skipping column.".

(** The body shared by the two inner loops: clear column [col] of row [r]
    with row [p]. *)
Definition clear_entry (cols col p r : nat) (matrix : Matrix) : M (flow Matrix) :=
  let! row_r := lift (getitem matrix r) in
  let! factor := lift (getitem row_r col) in
  if negb (Fraction_eq_int factor 0) then
    do! log (subtract_message r p factor) in
    let! matrix' := lift (row_subtract matrix r p factor cols) in
    do! print_matrix matrix' default_title in
    ret (Next matrix')
  else ret (Next matrix).

(** The body of the Phase 1 loop [for col in range(n_vars)]; the loop
    variables are [matrix] and [pivot_row]. *)
Definition phase1_body (rows cols col : nat) (st : Matrix * nat) : M (flow (Matrix * nat)) :=
  let '(matrix, pivot_row) := st in
  if (rows <=? pivot_row)%nat then ret (Break (matrix, pivot_row))
  else
    let! row_p := lift (getitem matrix pivot_row) in
    let! pivot_val := lift (getitem row_p col) in
    if Fraction_eq_int pivot_val 0 then
      do! log (zero_pivot_message pivot_row col) in
      ret (Next (matrix, pivot_row))
    else
      let! matrix1 :=
        (if negb (Fraction_eq_int pivot_val 1) then
           do! log (scale_message pivot_row pivot_val) in
           let! matrix' := lift (row_scale matrix pivot_row pivot_val) in
           do! print_matrix matrix' default_title in
           ret matrix'
         else ret matrix) in
      let! matrix2 := for_in (range (pivot_row + 1) rows) (clear_entry cols col pivot_row) matrix1 in
      ret (Next (matrix2, (pivot_row + 1)%nat)).

Definition phase1 (rows cols n_vars : nat) (matrix : Matrix) : M (Matrix * nat) :=
  for_in (range 0 n_vars) (phase1_body rows cols) (matrix, 0%nat).

(** The pivot search of Phase 2; [None] stands for [pivot_col == -1]. *)
Definition find_pivot_col (matrix : Matrix) (i n_vars : nat) : M (option nat) :=
  for_in (range 0 n_vars)
    (fun c pivot_col =>
       let! row_i := lift (getitem matrix i) in
       let! x := lift (getitem row_i c) in
       if Fraction_eq_int x 1 then ret (Break (Some c)) else ret (Next pivot_col))
    None.

(** The body of the Phase 2 loop [for i in range(rows - 1, -1, -1)]. *)
Definition phase2_body (cols n_vars i : nat) (matrix : Matrix) : M (flow Matrix) :=
  let! pivot_col := find_pivot_col matrix i n_vars in
  match pivot_col with
  | None => ret (Next matrix)
  | Some pc =>
      let! matrix' := for_in (range_down i) (clear_entry cols pc i) matrix in
      ret (Next matrix')
  end.

Definition phase2 (rows cols n_vars : nat) (matrix : Matrix) : M Matrix :=
  for_in (range_down rows) (phase2_body cols n_vars) matrix.

Definition inconsistent_message : string := "System is INCONSISTENT (No Solution).".
Definition infinite_message : string := "Infinite solutions or trivial system.".

Definition solution_message (idx : nat) (val : Fraction) : string :=
  "x" +:+ str_nat (idx + 1) +:+ " = " +:+ format_value val.

(** The body of the final loop [for i in range(rows)]. Its variable is
    [solutions]; [None] records that the [return] of the inconsistent branch
    was taken. *)
Definition classify_body (matrix : Matrix) (i : nat) (st : option (list Fraction))
  : M (flow (option (list Fraction))) :=
  match st with
  | None => ret (Break None)
  | Some solutions =>
      let! row_i := lift (getitem matrix i) in
      let is_all_zeros := forallb (fun x => Fraction_eq_int x 0) (removelast row_i) in
      let! constant := lift (getitem_last row_i) in
      if is_all_zeros && negb (Fraction_eq_int constant 0) then
        do! log inconsistent_message in
        ret (Break None)
      else if is_all_zeros && Fraction_eq_int constant 0 then
        ret (Next (Some solutions))
      else ret (Next (Some (solutions ++ [constant])))
  end.

(** [enumerate(l)]. *)
Definition enumerate {A : Type} (l : list A) : list (nat * A) :=
  combine (seq 0 (length l)) l.

(** Solution classification and extraction: the code after the
    ["=== FINAL SOLUTION ==="] header. *)
Definition classify (rows : nat) (matrix : Matrix) : M unit :=
  let! st := for_in (range 0 rows) (classify_body matrix) (Some []) in
  match st with
  | None => ret tt
  | Some solutions =>
      match solutions with
      | _ :: _ =>
          for_in (enumerate solutions)
            (fun '(idx, val) _ => do! log (solution_message idx val) in ret (Next tt)) tt
      | [] => log infinite_message
      end
  end.

Definition initial_message : string := "INITIAL SYSTEM:".
Definition initial_title : string := "Augmented Matrix".
Definition phase1_header : string :=
  newline +:+ "=== PHASE 1: ROW ECHELON FORM (Gaussian Elimination) ===".
Definition ref_message : string :=
  newline +:+ ">>> Matrix is now in Row Echelon Form (REF).".
Definition phase2_header : string :=
  newline +:+ "=== PHASE 2: REDUCED ROW ECHELON FORM (Back Substitution) ===".
Definition rref_message : string :=
  newline +:+ ">>> Matrix is now in Reduced Row Echelon Form (RREF).".
Definition final_header : string := newline +:+ "=== FINAL SOLUTION ===".

(** [solve]. Every row of [matrix] ends with its constant, so [cols] is at
    least 1 and [cols - 1] is a natural number. *)
Definition solve (coefficients : list (list pyvalue)) (constants : list pyvalue) : M unit :=
  let rows := length coefficients in
  if (rows =? 0)%nat then ret tt
  else
    let! matrix := build_matrix coefficients constants rows in
    let! row_0 := lift (getitem matrix 0) in
    let cols := length row_0 in
    let n_vars := (cols - 1)%nat in
    do! log initial_message in
    do! print_matrix matrix initial_title in
    do! log phase1_header in
    let! st := phase1 rows cols n_vars matrix in
    let matrix := fst st in
    do! log ref_message in
    do! log phase2_header in
    let! matrix := phase2 rows cols n_vars matrix in
    do! log rref_message in
    do! log final_header in
    classify rows matrix.

(** ** Specification vocabulary *)

(** The rational number a [Fraction] denotes. *)
Definition value (x : Fraction) : Q :=
  Qmake (numerator x) (Z.to_pos (denominator x)).

(** The invariant of the loop of [limit_denominator] on [N/D], from its
    second iteration on: [p0/q0] and [p1/q1] are consecutive convergents of
    [N/D] and [n/d] is the current complete quotient. *)
Record loop_invariant (N D max_denominator p0 q0 p1 q1 n d : Z) : Prop := {
  inv_N : N = p1 * n + p0 * d;
  inv_D : D = q1 * n + q0 * d;
  inv_det : p1 * q0 - p0 * q1 = 1 \/ p1 * q0 - p0 * q1 = -1;
  inv_q0 : 0 <= q0 <= q1;
  inv_q1 : 1 <= q1 <= max_denominator;
  inv_nd : 0 < d < n }.

(** A character of a decimal numeral. *)
Definition is_digit (c : ascii) : bool :=
  match NilEmpty.uint_of_string (String c EmptyString) with
  | Some _ => true
  | None => false
  end.

Fixpoint all_chars (p : ascii -> bool) (s : string) : bool :=
  match s with
  | EmptyString => true
  | String c rest => p c && all_chars p rest
  end.

(** The text contains no ["/"]. *)
Definition no_slash (s : string) : bool :=
  all_chars (fun c => negb (Ascii.eqb c "/")) s.

(** The lines [print_matrix] hands to the log. *)
Definition print_matrix_lines (matrix : Matrix) (title : string) : list string :=
  [(newline +:+ "--- " +:+ title +:+ " ---") +:+ newline]
  ++ map (fun row => format_row row +:+ newline) matrix
  ++ [str_mul "-" 40 +:+ newline].

(** The matrix invariant: [rows] rows, each of [cols] canonical fractions. *)
Definition rectangular (rows cols : nat) (matrix : Matrix) : Prop :=
  length matrix = rows /\
  Forall (fun row => length row = cols /\ Forall canonical row) matrix.

(** Total correctness of a solver computation: from any log it returns
    normally, with a value satisfying [P]. *)
Definition returns {A : Type} (c : M A) (P : A -> Prop) : Prop :=
  forall lg, exists a lg', c lg = (Ok a, lg') /\ P a.

(** The state a loop body hands over, whichever way it leaves. *)
Definition flow_state {S : Type} (f : flow S) : S :=
  match f with
  | Next s => s
  | Break s => s
  end.

(** The two tests of the final loop on one row. *)
Definition all_zero_coefficients (row : list Fraction) : bool :=
  forallb (fun x => Fraction_eq_int x 0) (removelast row).

Definition inconsistent_row (row : list Fraction) : bool :=
  match getitem_last row with
  | Ok constant => all_zero_coefficients row && negb (Fraction_eq_int constant 0)
  | Raise _ => false
  end.

(** The final loop read as a function of the rows still to visit and of
    [solutions]: [Ok None] when the inconsistent branch returns,
    [Ok (Some solutions)] when the loop runs to its end. *)
Fixpoint scan_rows (todo : Matrix) (solutions : list Fraction)
  : result (option (list Fraction)) :=
  match todo with
  | [] => Ok (Some solutions)
  | row :: rest =>
      result_bind (getitem_last row) (fun constant =>
      if all_zero_coefficients row && negb (Fraction_eq_int constant 0) then Ok None
      else if all_zero_coefficients row && Fraction_eq_int constant 0
           then scan_rows rest solutions
           else scan_rows rest (solutions ++ [constant]))
  end.

(** The lines of the final report for a list of accepted solutions. *)
Definition solution_lines (solutions : list Fraction) : list string :=
  map (fun '(idx, val) => solution_message idx val +:+ newline) (enumerate solutions).

(** [s.startswith(p)]. *)
Fixpoint starts_with (p s : string) : bool :=
  match p with
  | EmptyString => true
  | String a p' =>
      match s with
      | EmptyString => false
      | String b s' => Ascii.eqb a b && starts_with p' s'
      end
  end.

(** A log line of the form [x<i> = <value>]. *)
Definition is_solution_line (line : string) : bool := starts_with "x" line.

(** A log line recording an elementary row operation. *)
Definition is_operation_line (line : string) : bool := starts_with "OPERATION: " line.

(** The entry that matrix construction stores for a caller value:
    [Fraction(v).limit_denominator()]. *)
Definition coerced (v : pyvalue) (y : Fraction) : Prop :=
  limit_denominator (Fraction_of v) = Ok y.

(** The input contract: [n_vars] well-formed coefficients in every row and
    one well-formed constant per row. *)
Definition input_ok (n_vars : nat) (coefficients : list (list pyvalue))
    (constants : list pyvalue) : Prop :=
  Forall (fun row => length row = n_vars /\ Forall pyvalue_ok row) coefficients
  /\ length constants = length coefficients
  /\ Forall pyvalue_ok constants.

(** [matrix] is the augmented matrix of the input: row [i] holds the
    coerced coefficients of equation [i] followed by its coerced constant. *)
Definition augmented (coefficients : list (list pyvalue)) (constants : list pyvalue)
    (matrix : Matrix) : Prop :=
  length matrix = length coefficients /\
  forall i coeffs k, coefficients !! i = Some coeffs -> constants !! i = Some k ->
    exists row, matrix !! i = Some row /\ Forall2 coerced (coeffs ++ [k]) row.

(** The message was handed to [self.log] at some point of the run. *)
Definition logged (message : string) (lines : list string) : bool :=
  existsb (String.eqb (message +:+ newline)) lines.

(** ** The linear system a matrix stands for *)

(** [a_1 * x_1 + ... + a_n * x_n]. *)
Fixpoint dot (coeffs xs : list Q) : Q :=
  match coeffs, xs with
  | a :: coeffs', x :: xs' => (a * x + dot coeffs' xs')%Q
  | _, _ => 0%Q
  end.

(** The row [a_1 ... a_n | c] read as the equation
    [a_1 * x_1 + ... + a_n * x_n = c]. *)
Definition equation_holds (xs : list Q) (row : list Fraction) : Prop :=
  match getitem_last row with
  | Ok c => (dot (map value (removelast row)) xs == value c)%Q
  | Raise _ => False
  end.

(** [xs] assigns a value to each of the [n_vars] variables and satisfies
    every equation of the matrix. *)
Definition solution (n_vars : nat) (xs : list Q) (matrix : Matrix) : Prop :=
  length xs = n_vars /\ Forall (equation_holds xs) matrix.

(** Two matrices with the same solutions. *)
Definition same_solutions (n_vars : nat) (m1 m2 : Matrix) : Prop :=
  forall xs, solution n_vars xs m1 <-> solution n_vars xs m2.

(** [a_1 * x_1 + ... + a_n * x_n - c], the equation moved to one side. *)
Definition residual (xs : list Q) (row : list Fraction) : Q :=
  dot (map value row) (xs ++ [(-1)%Q]).

(** The entry at row [r], column [c] passes the test [== k]. *)
Definition entry_is (matrix : Matrix) (r c : nat) (k : Z) : Prop :=
  exists row x, matrix !! r = Some row /\ row !! c = Some x
                /\ Fraction_eq_int x k = true.

(** A computation that only appends to the log, and whose outcome and
    appended lines do not depend on what the log held before. *)
Definition framed {A : Type} (c : M A) : Prop :=
  forall lg, c lg = (fst (c []), lg ++ snd (c [])).

(** The value of the entry at row [r], column [c]; 0 outside the matrix. *)
Definition entry_value (matrix : Matrix) (r c : nat) : Q :=
  match matrix !! r with
  | Some row =>
      match row !! c with
      | Some x => value x
      | None => 0%Q
      end
  | None => 0%Q
  end.

(** The lines [solve] logs around the two phases. *)
Definition opening_lines (matrix : Matrix) : list string :=
  [initial_message +:+ newline] ++ print_matrix_lines matrix initial_title
  ++ [phase1_header +:+ newline].

Definition between_phases : list string :=
  [ref_message +:+ newline; phase2_header +:+ newline].

Definition closing_lines : list string :=
  [rref_message +:+ newline; final_header +:+ newline].

(** The lines of the final report for an outcome of the final loop. *)
Definition verdict_lines (verdict : option (list Fraction)) : list string :=
  match verdict with
  | None => [inconsistent_message +:+ newline]
  | Some [] => [infinite_message +:+ newline]
  | Some solutions => solution_lines solutions
  end.

(** Every entry of the matrix passes the test [== 0]. *)
Definition zero_matrix (matrix : Matrix) : Prop :=
  Forall (Forall (fun x => Fraction_eq_int x 0 = true)) matrix.

(** The constants the final loop appends to [solutions]: those of the rows
    that fail the all-zero test, in row order. *)
Definition accepted_constants (matrix : Matrix) : list Fraction :=
  flat_map
    (fun row =>
       if all_zero_coefficients row then []
       else match getitem_last row with
            | Ok constant => [constant]
            | Raise _ => []
            end)
    matrix.







(** ** [SolverApp] *)

(** A message box. The text of the error box of [solve_gui] ends with
    [str(e)]; the box keeps the exception itself. *)
Inductive dialog : Type :=
| showerror (title message : string) (details : option exn)
| showwarning (title message : string).

(** What [create_grid] and [solve_gui] read and write: the two
    configuration fields, the text of every [Entry] of the grid, the entry
    holding the focus, the chunks inserted into the output pane and the
    message boxes shown so far. *)
Record SolverApp : Type := mkSolverApp {
  rows_var : string;
  cols_var : string;
  entries : list (list string);
  focus : option (nat * nat);
  output_text : list string;
  dialogs : list dialog }.

Definition with_dialog (app : SolverApp) (d : dialog) : SolverApp :=
  mkSolverApp (rows_var app) (cols_var app) (entries app) (focus app)
    (output_text app) (dialogs app ++ [d]).

Definition with_output (app : SolverApp) (text : list string) : SolverApp :=
  mkSolverApp (rows_var app) (cols_var app) (entries app) (focus app)
    text (dialogs app).

Definition with_grid (app : SolverApp) (grid : list (list string))
    (focused : option (nat * nat)) : SolverApp :=
  mkSolverApp (rows_var app) (cols_var app) grid focused
    (output_text app) (dialogs app).

Definition invalid_input : dialog :=
  showerror "Invalid Input" "Rows ≥ 1, Total columns ≥ 2" None.

Definition no_matrix : dialog := showwarning "No Matrix" "Generate the grid first.".

Definition input_error (e : exn) : dialog :=
  showerror "Input Error"
    ("Please enter valid numbers or fractions." +:+ newline +:+ "Details: ") (Some e).

Section App.

(** The library functions the application calls on text: [int(s)], with
    [None] for [ValueError], [s.strip()] and [Fraction(s)]. *)
Variable int_of_text : string -> option Z.
Variable strip : string -> string.
Variable Fraction_of_text : string -> result Fraction.

(** [create_grid]. The nested loops give every entry the text ["0"]; the
    last statement focuses [self.entries[0][0]]. *)
Definition create_grid (app : SolverApp) : result SolverApp :=
  match int_of_text (rows_var app) with
  | None => Ok (with_dialog app invalid_input)
  | Some rows =>
      match int_of_text (cols_var app) with
      | None => Ok (with_dialog app invalid_input)
      | Some total_cols =>
          if (rows <? 1) || (total_cols <? 2) then Ok (with_dialog app invalid_input)
          else
            let grid :=
              map (fun _ => map (fun _ => "0"%string) (range 0 (Z.to_nat total_cols)))
                  (range 0 (Z.to_nat rows)) in
            match grid with
            | [] => Ok (with_grid app grid None)
            | _ :: _ =>
                result_bind (getitem grid 0) (fun row =>
                result_bind (getitem row 0) (fun _ =>
                Ok (with_grid app grid (Some (0%nat, 0%nat)))))
            end
      end
  end.

(** [Fraction(e.get().strip() or "0")]. *)
Definition read_cell (text : string) : result Fraction :=
  let s := strip text in
  Fraction_of_text (if String.eqb s EmptyString then "0" else s).

(** The loop [for row in self.entries] of [solve_gui]; its variables are
    [coefficients] and [constants]. *)
Fixpoint read_rows (rows : list (list string)) (coefficients : list (list pyvalue))
    (constants : list pyvalue) : result (list (list pyvalue) * list pyvalue) :=
  match rows with
  | [] => Ok (coefficients, constants)
  | row :: rest =>
      result_bind (comprehension read_cell row) (fun values =>
      let coefficients := coefficients ++ [map PyFraction (removelast values)] in
      result_bind (getitem_last values) (fun constant =>
      read_rows rest coefficients (constants ++ [PyFraction constant])))
  end.

(** [solve_gui]. The solver logs through [append_log], which inserts at
    the end of the output pane. *)
Definition solve_gui (app : SolverApp) : SolverApp :=
  match entries app with
  | [] => with_dialog app no_matrix
  | _ :: _ =>
      let app := with_output app [] in
      match read_rows (entries app) [] [] with
      | Raise e => with_dialog app (input_error e)
      | Ok (coefficients, constants) =>
          match solve coefficients constants (output_text app) with
          | (Ok _, text) => with_output app text
          | (Raise e, text) => with_dialog (with_output app text) (input_error e)
          end
      end
  end.

End App.

(** ** The limit on conversions between [int] and text *)

(** Since CPython 3.11, [str(n)] and [int(text)] raise [ValueError] when
    the decimal numeral has more than [sys.get_int_max_str_digits()]
    digits, 4300 unless the interpreter is told otherwise. The definitions
    above write the text the solver produces; the module [Limited] below
    gives the same functions with this error path: a message is computed
    before [log] is called, and the computation can raise. Row and column
    numbers are list indices, below [sys.maxsize], and never reach the
    limit; only the values of the matrix do. *)
Definition max_str_digits : nat := 4300.

(** The number of decimal digits of [|n|]. *)
Definition digits (n : Z) : nat := String.length (str (Z.abs n)).

Module Limited.

(** [str(n)] for an int. *)
Definition str (n : Z) : result string :=
  if (digits n <=? max_str_digits)%nat then Ok (str n) else Raise ValueError.

(** [int(s)] on a non-empty string of decimal digits. *)
Definition int_of_digits (s : string) : result Z :=
  if (String.length s <=? max_str_digits)%nat then int_of_digits s
  else Raise ValueError.

(** [Fraction(s)] on the two forms [sign digits] and [sign digits/digits]. *)
Definition Fraction_of_string (s : string) : result Fraction :=
  let '(negative, body) := split_sign s in
  let '(num, denom) := split_slash body in
  result_bind (int_of_digits num) (fun n =>
  let n := if negative then - n else n in
  match denom with
  | None => Fraction_new n 1
  | Some ds => result_bind (int_of_digits ds) (fun d => Fraction_new n d)
  end).

(** [format_value]. *)
Definition format_value (x : Fraction) : result string :=
  if denominator x =? 1 then str (numerator x)
  else
    result_bind (str (numerator x)) (fun n =>
    result_bind (str (denominator x)) (fun d =>
    Ok (n +:+ "/" +:+ d))).

(** [self.log(message)], [message] being the outcome of the expression
    that builds the text. *)
Definition log (message : result string) : M unit :=
  match message with
  | Ok text => log text
  | Raise e => lift (Raise e)
  end.

(** The text of one row: [formatted_row] first, then the f-string. *)
Definition format_row (row : list Fraction) : result string :=
  result_bind (comprehension format_value row) (fun formatted_row =>
  Ok (" [" +:+ String.concat ", " (map (rjust 8) formatted_row) +:+ "]")).

(** [print_matrix]. *)
Definition print_matrix (matrix : Matrix) (title : string) : M unit :=
  do! log (Ok (newline +:+ "--- " +:+ title +:+ " ---")) in
  do! for_in matrix (fun row _ => do! log (format_row row) in ret (Next tt)) tt in
  log (Ok (str_mul "-" 40)).

Definition subtract_message (r p : nat) (factor : Fraction) : result string :=
  result_bind (format_value factor) (fun f =>
  Ok ("OPERATION: R" +:+ str_nat (r + 1) +:+ " <--- R" +:+ str_nat (r + 1) +:+
      " - (" +:+ f +:+ " * R" +:+ str_nat (p + 1) +:+ ")")).

Definition scale_message (pivot_row : nat) (pivot_val : Fraction) : result string :=
  result_bind (format_value pivot_val) (fun v =>
  Ok ("OPERATION: R" +:+ str_nat (pivot_row + 1) +:+ " <--- R" +:+ str_nat (pivot_row + 1) +:+
      " / (" +:+ v +:+ ")")).

Definition solution_message (idx : nat) (val : Fraction) : result string :=
  result_bind (format_value val) (fun v =>
  Ok ("x" +:+ str_nat (idx + 1) +:+ " = " +:+ v)).

(** The body shared by the two inner loops. *)
Definition clear_entry (cols col p r : nat) (matrix : Matrix) : M (flow Matrix) :=
  let! row_r := lift (getitem matrix r) in
  let! factor := lift (getitem row_r col) in
  if negb (Fraction_eq_int factor 0) then
    do! log (subtract_message r p factor) in
    let! matrix' := lift (row_subtract matrix r p factor cols) in
    do! print_matrix matrix' default_title in
    ret (Next matrix')
  else ret (Next matrix).

(** The body of the Phase 1 loop. *)
Definition phase1_body (rows cols col : nat) (st : Matrix * nat) : M (flow (Matrix * nat)) :=
  let '(matrix, pivot_row) := st in
  if (rows <=? pivot_row)%nat then ret (Break (matrix, pivot_row))
  else
    let! row_p := lift (getitem matrix pivot_row) in
    let! pivot_val := lift (getitem row_p col) in
    if Fraction_eq_int pivot_val 0 then
      do! log (Ok (zero_pivot_message pivot_row col)) in
      ret (Next (matrix, pivot_row))
    else
      let! matrix1 :=
        (if negb (Fraction_eq_int pivot_val 1) then
           do! log (scale_message pivot_row pivot_val) in
           let! matrix' := lift (row_scale matrix pivot_row pivot_val) in
           do! print_matrix matrix' default_title in
           ret matrix'
         else ret matrix) in
      let! matrix2 := for_in (range (pivot_row + 1) rows) (clear_entry cols col pivot_row) matrix1 in
      ret (Next (matrix2, (pivot_row + 1)%nat)).

Definition phase1 (rows cols n_vars : nat) (matrix : Matrix) : M (Matrix * nat) :=
  for_in (range 0 n_vars) (phase1_body rows cols) (matrix, 0%nat).

(** The body of the Phase 2 loop; the pivot search formats nothing. *)
Definition phase2_body (cols n_vars i : nat) (matrix : Matrix) : M (flow Matrix) :=
  let! pivot_col := find_pivot_col matrix i n_vars in
  match pivot_col with
  | None => ret (Next matrix)
  | Some pc =>
      let! matrix' := for_in (range_down i) (clear_entry cols pc i) matrix in
      ret (Next matrix')
  end.

Definition phase2 (rows cols n_vars : nat) (matrix : Matrix) : M Matrix :=
  for_in (range_down rows) (phase2_body cols n_vars) matrix.

(** Solution classification and extraction; the final loop formats
    nothing. *)
Definition classify (rows : nat) (matrix : Matrix) : M unit :=
  let! st := for_in (range 0 rows) (classify_body matrix) (Some []) in
  match st with
  | None => ret tt
  | Some solutions =>
      match solutions with
      | _ :: _ =>
          for_in (enumerate solutions)
            (fun '(idx, val) _ => do! log (solution_message idx val) in ret (Next tt)) tt
      | [] => log (Ok infinite_message)
      end
  end.

(** [solve]. *)
Definition solve (coefficients : list (list pyvalue)) (constants : list pyvalue) : M unit :=
  let rows := length coefficients in
  if (rows =? 0)%nat then ret tt
  else
    let! matrix := build_matrix coefficients constants rows in
    let! row_0 := lift (getitem matrix 0) in
    let cols := length row_0 in
    let n_vars := (cols - 1)%nat in
    do! log (Ok initial_message) in
    do! print_matrix matrix initial_title in
    do! log (Ok phase1_header) in
    let! st := phase1 rows cols n_vars matrix in
    let matrix := fst st in
    do! log (Ok ref_message) in
    do! log (Ok phase2_header) in
    let! matrix := phase2 rows cols n_vars matrix in
    do! log (Ok rref_message) in
    do! log (Ok final_header) in
    classify rows matrix.

(** [solve_gui], with the library functions it calls on text. *)
Definition solve_gui (strip : string -> string)
    (Fraction_of_text : string -> result Fraction) (app : SolverApp) : SolverApp :=
  match entries app with
  | [] => with_dialog app no_matrix
  | _ :: _ =>
      let app := with_output app [] in
      match read_rows strip Fraction_of_text (entries app) [] [] with
      | Raise e => with_dialog app (input_error e)
      | Ok (coefficients, constants) =>
          match solve coefficients constants (output_text app) with
          | (Ok _, text) => with_output app text
          | (Raise e, text) => with_dialog (with_output app text) (input_error e)
          end
      end
  end.

End Limited.

(** The outcome of building a text under the limit: the text itself, or
    [ValueError] for a text longer than the limit. *)
Definition renders (message : result string) (text : string) : Prop :=
  message = Ok text
  \/ (message = Raise ValueError /\ (max_str_digits < String.length text)%nat).

(** * Properties *)

(** ** Facts about [Fraction] *)

Section FractionFacts.

Lemma normalize_canonical (n d : Z) : d <> 0 -> canonical (normalize n d).
Proof.
  intros Hd. unfold normalize, canonical. cbn [numerator denominator].
  set (g := Z.gcd n d).
  assert (Hg0 : 0 <= g) by apply Z.gcd_nonneg.
  assert (Hgd : g <> 0) by (intros Hz; apply Z.gcd_eq_0_r in Hz; contradiction).
  destruct (Z.gcd_divide_l n d) as [n' Hn'], (Z.gcd_divide_r n d) as [d' Hd'].
  fold g in Hn', Hd'.
  assert (Hone : Z.gcd (n / g) (d / g) = 1) by (apply Z.gcd_div_gcd; auto).
  assert (Hng : n / g = n') by (rewrite Hn'; apply Z.div_mul; assumption).
  assert (Hdg : d / g = d') by (rewrite Hd'; apply Z.div_mul; assumption).
  destruct (Z.ltb_spec d 0) as [Hneg | Hpos].
  - assert (Hn2 : n / - g = - n').
    { replace n with (- n' * - g) by lia. apply Z.div_mul. lia. }
    assert (Hd2 : d / - g = - d').
    { replace d with (- d' * - g) by lia. apply Z.div_mul. lia. }
    rewrite Hn2, Hd2. split; [nia |].
    rewrite Z.gcd_opp_l, Z.gcd_opp_r. congruence.
  - split; [| assumption]. rewrite Hdg. nia.
Qed.

Lemma normalize_id (x : Fraction) :
  canonical x -> normalize (numerator x) (denominator x) = x.
Proof.
  intros [Hpos Hg]. unfold normalize. rewrite Hg.
  destruct (Z.ltb_spec (denominator x) 0); [lia |].
  rewrite !Z.div_1_r. destruct x; reflexivity.
Qed.

Lemma canonicalb_spec (x : Fraction) : canonicalb x = true <-> canonical x.
Proof.
  unfold canonicalb, canonical.
  rewrite andb_true_iff, Z.ltb_lt, Z.eqb_eq. tauto.
Qed.

Lemma Fraction_sub_canonical (a b : Fraction) :
  canonical a -> canonical b -> canonical (Fraction_sub a b).
Proof.
  intros [Ha _] [Hb _]. apply normalize_canonical. nia.
Qed.

Lemma Fraction_mul_canonical (a b : Fraction) :
  canonical a -> canonical b -> canonical (Fraction_mul a b).
Proof.
  intros [Ha _] [Hb _]. apply normalize_canonical. nia.
Qed.

(** A canonical fraction that fails the test [x == 0] has a non-zero
    numerator. *)
Lemma nonzero_numerator (x : Fraction) :
  canonical x -> Fraction_eq_int x 0 = false -> numerator x <> 0.
Proof.
  intros [Hpos Hg] Hne Hz. unfold Fraction_eq_int in Hne.
  rewrite Hz in Hg, Hne. rewrite Z.gcd_0_l, Z.abs_eq in Hg by lia.
  rewrite Hg in Hne. discriminate.
Qed.

Lemma Fraction_div_ok (a b : Fraction) :
  canonical a -> canonical b -> Fraction_eq_int b 0 = false ->
  exists c, Fraction_div a b = Ok c /\ canonical c.
Proof.
  intros Ha Hb Hne. pose proof (nonzero_numerator b Hb Hne) as Hn.
  destruct Ha as [Ha _]. unfold Fraction_div, Fraction_new.
  destruct (Z.eqb_spec (denominator a * numerator b) 0) as [Hz | Hnz]; [nia |].
  eexists. split; [reflexivity |]. apply normalize_canonical. assumption.
Qed.

Lemma Fraction_div_zero (a b : Fraction) :
  numerator b = 0 -> Fraction_div a b = Raise ZeroDivisionError.
Proof.
  intros Hz. unfold Fraction_div, Fraction_new. rewrite Hz, Z.mul_0_r. reflexivity.
Qed.

Lemma Fraction_of_canonical (v : pyvalue) : pyvalue_ok v -> canonical (Fraction_of v).
Proof.
  destruct v as [n | x | m e]; cbn [pyvalue_ok Fraction_of].
  - intros _. split; cbn; [lia | apply Z.gcd_1_r].
  - intros H. destruct x; exact H.
  - intros _. destruct (Z.leb_spec 0 e).
    + split; cbn; [lia | apply Z.gcd_1_r].
    + apply normalize_canonical. apply Z.pow_nonzero; lia.
Qed.

End FractionFacts.

(** ** [limit_denominator] *)

Lemma limit_loop_eq (max_denominator p0 q0 p1 q1 n d : Z) :
  limit_loop max_denominator p0 q0 p1 q1 n d =
  if d =? 0 then Raise ZeroDivisionError
  else
    let a := n / d in
    let q2 := q0 + a * q1 in
    if max_denominator <? q2 then Ok (p0, q0, p1, q1, n, d)
    else limit_loop max_denominator p1 q1 (p0 + a * p1) q2 d (n - a * d).
Proof.
  rewrite limit_loop_equation_1.
  destruct (Z.eq_dec d 0) as [-> | Hd]; simpl.
  - reflexivity.
  - destruct (Z.eqb_spec d 0); [contradiction | reflexivity].
Qed.

Lemma limit_loop_break (max_denominator p0 q0 p1 q1 n d : Z) :
  (d =? 0) = false ->
  (max_denominator <? q0 + n / d * q1) = true ->
  limit_loop max_denominator p0 q0 p1 q1 n d = Ok (p0, q0, p1, q1, n, d).
Proof.
  intros Hd Hb. rewrite limit_loop_eq, Hd. cbv zeta. rewrite Hb. reflexivity.
Qed.

Lemma limit_loop_continue (max_denominator p0 q0 p1 q1 n d p2 q2 d2 : Z) :
  (d =? 0) = false ->
  (max_denominator <? q0 + n / d * q1) = false ->
  p2 = p0 + n / d * p1 -> q2 = q0 + n / d * q1 -> d2 = n - n / d * d ->
  limit_loop max_denominator p0 q0 p1 q1 n d
  = limit_loop max_denominator p1 q1 p2 q2 d d2.
Proof.
  intros Hd Hb -> -> ->. rewrite limit_loop_eq, Hd. cbv zeta. rewrite Hb. reflexivity.
Qed.

(** One iteration of the loop on closed arguments. *)
Ltac limit_loop_step :=
  match goal with
  | |- context [limit_loop ?m ?p0 ?q0 ?p1 ?q1 ?n ?d] =>
      let a := eval vm_compute in (n / d) in
      let q2 := eval vm_compute in (q0 + a * q1) in
      let brk := eval vm_compute in (m <? q2) in
      match brk with
      | true =>
          rewrite (limit_loop_break m p0 q0 p1 q1 n d) by (vm_compute; reflexivity)
      | false =>
          let p2 := eval vm_compute in (p0 + a * p1) in
          let d2 := eval vm_compute in (n - a * d) in
          rewrite (limit_loop_continue m p0 q0 p1 q1 n d p2 q2 d2)
            by (vm_compute; reflexivity)
      end
  end.

Ltac run_limit_loop :=
  unfold limit_denominator, limit_denominator_with;
  cbn [denominator numerator];
  repeat limit_loop_step.

(** [Fraction(0.1).limit_denominator()] is [1/10]. *)
Example limit_denominator_tenth :
  limit_denominator (Fraction_of (PyFloat 3602879701896397 (-55)))
  = Ok (mkFraction 1 10).
Proof.
  replace (Fraction_of (PyFloat 3602879701896397 (-55)))
    with (mkFraction 3602879701896397 36028797018963968) by (vm_compute; reflexivity).
  run_limit_loop. vm_compute. reflexivity.
Qed.

(** [Fraction(1, 1000001).limit_denominator()] is [1/1000000]. *)
Example limit_denominator_large :
  limit_denominator (mkFraction 1 1000001) = Ok (mkFraction 1 1000000).
Proof. run_limit_loop. vm_compute. reflexivity. Qed.

Section LimitLoop.

Variables N D max_denominator : Z.
Hypothesis max_pos : 1 <= max_denominator.
Hypothesis D_large : max_denominator < D.
Hypothesis coprime : Z.gcd N D = 1.

Local Abbreviation loop_inv := (loop_invariant N D max_denominator).

Lemma common_divisor_one (d u v : Z) : 0 < d -> N = u * d -> D = v * d -> d = 1.
Proof using coprime.
  intros Hd HN HD.
  assert (Hdiv : (d | Z.gcd N D)).
  { apply Z.gcd_greatest; [exists u | exists v]; assumption. }
  rewrite coprime in Hdiv. apply Z.divide_1_r_nonneg in Hdiv; lia.
Qed.

Lemma loop_inv_first :
  loop_inv 1 0 (N / D) 1 D (N - N / D * D).
Proof using max_pos D_large coprime.
  assert (HD : 0 < D) by lia.
  assert (Hm : N - N / D * D = N mod D) by (rewrite Z.mod_eq by lia; lia).
  pose proof (Z.mod_pos_bound N D HD) as Hb.
  assert (Hnz : N mod D <> 0).
  { intros Hz. apply Z.mod_divide in Hz; [| lia]. destruct Hz as [u Hu].
    assert (D = 1) by (apply (common_divisor_one D u 1); lia). lia. }
  rewrite Hm. constructor; lia.
Qed.

Lemma loop_inv_step (p0 q0 p1 q1 n d : Z) :
  loop_inv p0 q0 p1 q1 n d ->
  q0 + n / d * q1 <= max_denominator ->
  loop_inv p1 q1 (p0 + n / d * p1) (q0 + n / d * q1) d (n - n / d * d).
Proof using max_pos D_large coprime.
  intros [HN HD Hdet Hq0 Hq1 Hnd] Hq2.
  assert (Hm : n - n / d * d = n mod d) by (rewrite Z.mod_eq by lia; lia).
  assert (Hd : 0 < d) by lia.
  pose proof (Z.mod_pos_bound n d Hd) as Hb.
  assert (Ha : 1 <= n / d) by (apply Z.div_le_lower_bound; lia).
  set (a := n / d) in *.
  assert (Hnz : n mod d <> 0).
  { intros Hz. rewrite Hz in Hm.
    assert (Hn : n = a * d) by lia.
    assert (d = 1).
    { apply (common_divisor_one d (p1 * a + p0) (q1 * a + q0)); [lia | |].
      - rewrite HN, Hn. ring.
      - rewrite HD, Hn. ring. }
    subst d. nia. }
  rewrite Hm. constructor; nia.
Qed.

Lemma limit_loop_spec (p0 q0 p1 q1 n d : Z) :
  loop_inv p0 q0 p1 q1 n d ->
  exists p0' q0' p1' q1' n' d',
    limit_loop max_denominator p0 q0 p1 q1 n d = Ok (p0', q0', p1', q1', n', d')
    /\ loop_inv p0' q0' p1' q1' n' d'
    /\ max_denominator < q0' + n' / d' * q1'.
Proof using max_pos D_large coprime.
  remember (Z.to_nat d) as m eqn:Hm.
  revert p0 q0 p1 q1 n d Hm.
  induction m as [m IH] using lt_wf_ind.
  intros p0 q0 p1 q1 n d Hm Hinv.
  rewrite limit_loop_eq.
  pose proof (inv_nd _ _ _ _ _ _ _ _ _ Hinv) as Hnd.
  destruct (Z.eqb_spec d 0) as [Hz | _]; [lia |].
  cbv zeta.
  destruct (Z.ltb_spec max_denominator (q0 + n / d * q1)) as [Hbreak | Hgo].
  - exists p0, q0, p1, q1, n, d. auto.
  - apply loop_inv_step in Hinv; [| assumption].
    eapply (IH (Z.to_nat (n - n / d * d))); [| reflexivity | exact Hinv].
    pose proof (inv_nd _ _ _ _ _ _ _ _ _ Hinv). lia.
Qed.

(** The loop started by [limit_denominator] never divides by zero and
    leaves the loop at a state satisfying the invariant. *)
Lemma limit_loop_total :
  exists p0 q0 p1 q1 n d,
    limit_loop max_denominator 0 1 1 0 N D = Ok (p0, q0, p1, q1, n, d)
    /\ loop_inv p0 q0 p1 q1 n d
    /\ max_denominator < q0 + n / d * q1.
Proof using max_pos D_large coprime.
  rewrite limit_loop_eq.
  destruct (Z.eqb_spec D 0) as [Hz | _]; [lia |].
  cbv zeta.
  replace (1 + N / D * 0) with 1 by lia.
  destruct (Z.ltb_spec max_denominator 1) as [Hlt | _]; [lia |].
  replace (0 + N / D * 1) with (N / D) by lia.
  apply limit_loop_spec, loop_inv_first.
Qed.

End LimitLoop.

(** ** The result of [limit_denominator] is a closest fraction *)

(** Two fractions [P/Q] and [p1/q1] with [p1 * Q - P * q1 = 1] leave no room
    between them for a denominator below [Q + q1]: writing [s = Q*v + q1*u],
    one of [u], [v] is not positive, and the distance [|e*v - d*u|] of [r/s]
    to the target is at least that of the nearer end. *)
Lemma between_neighbours (Q q1 d e s u v : Z) :
  0 < Q -> 0 < q1 -> 0 < d -> 0 < e -> 0 < s -> s < Q + q1 ->
  Q * v + q1 * u = s ->
  (d * Q <= e * q1 -> d * s <= Z.abs (e * v - d * u) * q1) /\
  (e * q1 <= d * Q -> e * s <= Z.abs (e * v - d * u) * Q).
Proof.
  intros HQ Hq1 Hd He Hs Hgap Hs_eq.
  assert (Hcases : u <= 0 /\ 1 <= v \/ v <= 0 /\ 1 <= u) by nia.
  destruct Hcases as [[Hu Hv] | [Hv Hu]].
  - assert (Ht : 0 <= e * v - d * u) by nia.
    rewrite (Z.abs_eq _ Ht). split; intros Hc.
    + assert (d * Q * v <= e * q1 * v) by (apply Z.mul_le_mono_nonneg_r; lia).
      assert (d * q1 * u <= 0) by nia.
      nia.
    + assert (e * q1 * u <= 0) by nia.
      assert (0 <= - (d * u) * Q) by nia.
      nia.
  - assert (Ht : e * v - d * u <= 0) by nia.
    rewrite (Z.abs_neq _ Ht). split; intros Hc.
    + assert (d * Q * v <= 0) by nia.
      assert (0 <= - (e * v) * q1) by nia.
      nia.
    + assert (e * q1 * u <= d * Q * u) by (apply Z.mul_le_mono_nonneg_r; lia).
      assert (e * Q * v <= 0) by nia.
      nia.
Qed.

Section LimitDenominator.

Variables N D max_denominator : Z.
Hypothesis max_pos : 1 <= max_denominator.
Hypothesis D_large : max_denominator < D.

Local Abbreviation loop_inv := (loop_invariant N D max_denominator).

(** What the two candidates computed after the loop satisfy. *)
Lemma candidates_spec (p0 q0 p1 q1 n d : Z) :
  loop_inv p0 q0 p1 q1 n d ->
  max_denominator < q0 + n / d * q1 ->
  let k := (max_denominator - q0) / q1 in
  let P := p0 + k * p1 in
  let Q := q0 + k * q1 in
  let e := n - k * d in
  0 < e /\ 1 <= Q <= max_denominator /\ max_denominator < Q + q1 /\
  (p1 * Q - P * q1 = 1 \/ p1 * Q - P * q1 = -1) /\
  (2 * d * Q <= D <-> d * Q <= e * q1) /\
  (forall r s, N * s - r * D = e * (p1 * s - r * q1) - d * (r * Q - P * s)) /\
  N * q1 - p1 * D = - (p1 * Q - P * q1) * d /\
  N * Q - P * D = (p1 * Q - P * q1) * e.
Proof using max_pos D_large.
  intros [HN HD Hdet Hq0 Hq1 Hnd] Hbreak k P Q e.
  assert (Hk1 : q1 * k <= max_denominator - q0) by (apply Z.mul_div_le; lia).
  assert (Hk2 : max_denominator - q0 < q1 * Z.succ k)
    by (apply Z.mul_succ_div_gt; lia).
  assert (Hk0 : 0 <= k) by (apply Z.div_pos; lia).
  assert (Had : d * (n / d) <= n) by (apply Z.mul_div_le; lia).
  assert (Hka : k + 1 <= n / d) by nia.
  assert (He : 0 < e) by (subst e; nia).
  assert (HPQ : p1 * Q - P * q1 = p1 * q0 - p0 * q1) by (subst P Q; ring).
  repeat split; try (subst P Q e; nia).
Qed.

End LimitDenominator.

(** [|N/D - u/v| <= |N/D - r/s|], cross-multiplied. *)
Lemma abs_cross (N D u v r s : Z) :
  0 < D -> 0 < v -> 0 < s ->
  Z.abs (N * v - u * D) * s <= Z.abs (N * s - r * D) * v ->
  (Qabs (Qmake u (Z.to_pos v) - Qmake N (Z.to_pos D))
   <= Qabs (Qmake r (Z.to_pos s) - Qmake N (Z.to_pos D)))%Q.
Proof.
  intros HD Hv Hs H.
  unfold Qle, Qabs, Qminus, Qplus, Qopp. cbn [Qnum Qden].
  rewrite !Pos2Z.inj_mul, !Z2Pos.id by lia.
  replace (u * D + - N * v) with (- (N * v - u * D)) by ring.
  replace (r * D + - N * s) with (- (N * s - r * D)) by ring.
  rewrite !Z.abs_opp.
  assert (H0 : 0 <= Z.abs (N * v - u * D)) by apply Z.abs_nonneg.
  assert (H1 : 0 <= Z.abs (N * s - r * D)) by apply Z.abs_nonneg.
  nia.
Qed.

Lemma gcd_of_unit_combination (a b n m : Z) :
  a * n + b * m = 1 \/ a * n + b * m = -1 -> Z.gcd n m = 1.
Proof.
  intros [H | H]; apply Z.bezout_1_gcd.
  - exists a, b. exact H.
  - exists (- a), (- b). lia.
Qed.

(** [limit_denominator] on a canonical fraction: it returns (no exception, no
    endless loop) a canonical fraction whose denominator respects the bound,
    the argument itself when its denominator already does, and in every case
    a fraction at least as close to the argument as any [r/s] with
    [0 < s <= max_denominator]. *)
Lemma limit_denominator_with_spec (max_denominator : Z) (x : Fraction) :
  1 <= max_denominator -> canonical x ->
  exists y,
    limit_denominator_with max_denominator x = Ok y
    /\ canonical y
    /\ denominator y <= max_denominator
    /\ (denominator x <= max_denominator -> y = x)
    /\ forall r s, 0 < s <= max_denominator ->
         Z.abs (numerator x * denominator y - numerator y * denominator x) * s
         <= Z.abs (numerator x * s - r * denominator x) * denominator y.
Proof.
  intros Hmax [Hpos Hgcd]. unfold limit_denominator_with.
  destruct (Z.ltb_spec max_denominator 1) as [Hlt | _]; [lia |].
  destruct (Z.leb_spec (denominator x) max_denominator) as [Hsmall | Hlarge].
  - exists x. repeat split; auto.
    intros r s Hs. rewrite Z.sub_diag. cbn.
    pose proof (Z.abs_nonneg (numerator x * s - r * denominator x)). nia.
  - destruct (limit_loop_total (numerator x) (denominator x) max_denominator
                Hmax Hlarge Hgcd)
      as (p0 & q0 & p1 & q1 & n & d & Hrun & Hinv & Hbreak).
    rewrite Hrun. cbn [result_bind].
    pose proof (candidates_spec _ _ _ Hmax Hlarge _ _ _ _ _ _ Hinv Hbreak)
      as (He & HQ & Hgap & Hdet & Htest & Hdist & Hd1 & Hd2).
    destruct Hinv as [HN HD _ Hq0 Hq1 Hnd].
    destruct (Z.eqb_spec q1 0) as [Hz | _]; [lia |].
    cbv zeta in *.
    set (k := (max_denominator - q0) / q1) in *.
    set (P := p0 + k * p1) in *. set (Q := q0 + k * q1) in *.
    set (e := n - k * d) in *.
    assert (Hsplit : forall r s, 0 < s <= max_denominator ->
              (d * Q <= e * q1 -> d * s <= Z.abs (numerator x * s - r * denominator x) * q1)
              /\ (e * q1 <= d * Q -> e * s <= Z.abs (numerator x * s - r * denominator x) * Q)).
    { intros r s Hs. rewrite Hdist.
      destruct Hdet as [Hdet | Hdet].
      - apply between_neighbours; try lia.
        replace (Q * (p1 * s - r * q1) + q1 * (r * Q - P * s))
          with (s * (p1 * Q - P * q1)) by ring.
        rewrite Hdet. lia.
      - replace (e * (p1 * s - r * q1) - d * (r * Q - P * s))
          with (- (e * - (p1 * s - r * q1) - d * - (r * Q - P * s))) by ring.
        rewrite Z.abs_opp.
        apply between_neighbours; try lia.
        replace (Q * - (p1 * s - r * q1) + q1 * - (r * Q - P * s))
          with (- s * (p1 * Q - P * q1)) by ring.
        rewrite Hdet. lia. }
    destruct (Z.leb_spec (2 * d * Q) (denominator x)) as [Hfirst | Hsecond].
    + exists (mkFraction p1 q1).
      split; [reflexivity |]. split; [split |]; cbn [numerator denominator].
      * lia.
      * apply (gcd_of_unit_combination Q (- P)).
        destruct Hdet; [left | right]; lia.
      * split; [lia |]. split; [lia |].
        intros r s Hs. rewrite Hd1.
        replace (Z.abs (- (p1 * Q - P * q1) * d)) with d
          by (destruct Hdet as [-> | ->]; lia).
        apply Hsplit; [assumption |]. apply Htest. assumption.
    + exists (mkFraction P Q).
      split; [reflexivity |]. split; [split |]; cbn [numerator denominator].
      * lia.
      * apply (gcd_of_unit_combination (- q1) p1).
        destruct Hdet; [left | right]; lia.
      * split; [lia |]. split; [lia |].
        intros r s Hs. rewrite Hd2.
        replace (Z.abs ((p1 * Q - P * q1) * e)) with e
          by (destruct Hdet as [-> | ->]; lia).
        apply Hsplit; [assumption |].
        destruct (Z.le_gt_cases (d * Q) (e * q1)) as [Hle | Hgt]; [| lia].
        apply Htest in Hle. lia.
Qed.

(** The same, read on the rational values. *)
Lemma limit_denominator_spec (x : Fraction) :
  canonical x ->
  exists y,
    limit_denominator x = Ok y
    /\ canonical y
    /\ denominator y <= max_denominator_default
    /\ (denominator x <= max_denominator_default -> y = x)
    /\ forall r : Q, Z.pos (Qden r) <= max_denominator_default ->
         (Qabs (value y - value x) <= Qabs (r - value x))%Q.
Proof.
  intros Hx.
  destruct (limit_denominator_with_spec max_denominator_default x) as
    (y & Hrun & Hy & Hbound & Hsame & Hbest); [unfold max_denominator_default; lia | assumption |].
  exists y. repeat split; try assumption; try apply Hy.
  intros [r s] Hs. cbn [Qden] in Hs. unfold value.
  replace s with (Z.to_pos (Z.pos s)) by apply Pos2Z.id.
  destruct Hx as [Hdx _]. pose proof Hy as [Hdy _].
  apply abs_cross; try lia.
  apply Hbest. lia.
Qed.

(** ** [format_value] and reading it back *)

Section Strings.

Lemma append_String (c : ascii) (s t : string) :
  String c s +:+ t = String c (s +:+ t).
Proof. reflexivity. Qed.

Lemma append_empty_r (s : string) : s +:+ EmptyString = s.
Proof.
  induction s as [| c s IH]; [reflexivity |]. rewrite append_String. now f_equal.
Qed.

Lemma digits_all (d : Decimal.uint) :
  all_chars is_digit (NilEmpty.string_of_uint d) = true.
Proof. induction d; cbn; auto. Qed.

Lemma numeral_all (d : Decimal.uint) :
  all_chars is_digit (NilZero.string_of_uint d) = true.
Proof. destruct d; try apply digits_all. reflexivity. Qed.

Lemma is_digit_not_slash (c : ascii) : is_digit c = true -> Ascii.eqb c "/" = false.
Proof.
  destruct (Ascii.eqb_spec c "/") as [-> | _]; [discriminate | reflexivity].
Qed.

Lemma all_digits_no_slash (s : string) :
  all_chars is_digit s = true -> no_slash s = true.
Proof.
  unfold no_slash.
  induction s as [| c s IH]; cbn [all_chars]; [reflexivity |].
  intros [Hc Hs]%andb_true_iff. apply is_digit_not_slash in Hc.
  rewrite Hc. cbn [negb andb]. auto.
Qed.

Lemma split_slash_digits (s : string) :
  all_chars is_digit s = true -> split_slash s = (s, None).
Proof.
  induction s as [| c s IH]; cbn [all_chars split_slash]; [reflexivity |].
  intros [Hc Hs]%andb_true_iff.
  rewrite (is_digit_not_slash c Hc), (IH Hs). reflexivity.
Qed.

Lemma split_slash_pair (s t : string) :
  all_chars is_digit s = true ->
  split_slash (s +:+ "/" +:+ t) = (s, Some t).
Proof.
  induction s as [| c s IH]; [reflexivity |].
  rewrite append_String. cbn [all_chars split_slash].
  intros [Hc Hs]%andb_true_iff.
  rewrite (is_digit_not_slash c Hc), (IH Hs). reflexivity.
Qed.

(** A numeral does not begin with a sign. *)
Lemma split_sign_digits (s t : string) :
  s <> EmptyString -> all_chars is_digit s = true ->
  split_sign (s +:+ t) = (false, s +:+ t).
Proof.
  destruct s as [| c s]; [congruence |]. intros _ [Hc _]%andb_true_iff.
  cbn. destruct c as [[|] [|] [|] [|] [|] [|] [|] [|]]; try reflexivity; discriminate.
Qed.

Lemma numeral_nonempty (d : Decimal.uint) :
  d <> Decimal.Nil -> NilZero.string_of_uint d <> EmptyString.
Proof. destruct d; cbn; congruence. Qed.

Lemma int_of_digits_numeral (p : positive) :
  int_of_digits (NilZero.string_of_uint (Pos.to_uint p)) = Ok (Z.pos p).
Proof.
  unfold int_of_digits.
  rewrite NilZero.usu by apply DecimalPos.Unsigned.to_uint_nonnil.
  unfold Z.of_uint. rewrite DecimalPos.Unsigned.of_to. reflexivity.
Qed.

(** [str(n)] is an optional minus sign followed by the numeral of [|n|]. *)
Lemma str_nonneg (n : Z) :
  0 <= n ->
  exists s, str n = s /\ s <> EmptyString /\ all_chars is_digit s = true
            /\ int_of_digits s = Ok n.
Proof.
  intros Hn. destruct n as [| p | p]; [| | lia].
  - exists "0"%string. repeat split; congruence.
  - exists (NilZero.string_of_uint (Pos.to_uint p)). split; [reflexivity |].
    split; [apply numeral_nonempty, DecimalPos.Unsigned.to_uint_nonnil |].
    split; [apply numeral_all | apply int_of_digits_numeral].
Qed.

Lemma str_negative (n : Z) :
  n < 0 -> str n = String "-" (str (- n)).
Proof. intros Hn. destruct n; try lia. reflexivity. Qed.

(** Reading back [str(n)] followed by more text: the sign is split off and
    the numeral is what remains. *)
Lemma split_sign_str (n : Z) (t : string) :
  exists s,
    split_sign (str n +:+ t) = (n <? 0, s +:+ t)
    /\ all_chars is_digit s = true
    /\ int_of_digits s = Ok (Z.abs n).
Proof.
  destruct (Z.ltb_spec n 0) as [Hneg | Hpos].
  - rewrite (str_negative n Hneg).
    destruct (str_nonneg (- n)) as (s & -> & _ & Hall & Hint); [lia |].
    exists s. cbn. rewrite Z.abs_neq by lia. auto.
  - destruct (str_nonneg n Hpos) as (s & -> & Hne & Hall & Hint).
    exists s. rewrite split_sign_digits by assumption.
    rewrite Z.abs_eq by lia. auto.
Qed.

Lemma str_no_slash (n : Z) : no_slash (str n) = true.
Proof.
  destruct (Z.ltb_spec n 0) as [Hneg | Hpos].
  - rewrite (str_negative n Hneg).
    destruct (str_nonneg (- n)) as (s & -> & _ & Hall & _); [lia |].
    cbn. now apply all_digits_no_slash.
  - destruct (str_nonneg n Hpos) as (s & -> & _ & Hall & _).
    now apply all_digits_no_slash.
Qed.

Lemma signed_abs (n : Z) : (if n <? 0 then - Z.abs n else Z.abs n) = n.
Proof. destruct (Z.ltb_spec n 0); lia. Qed.

Lemma Fraction_new_canonical (x : Fraction) :
  canonical x -> Fraction_new (numerator x) (denominator x) = Ok x.
Proof.
  intros Hx. unfold Fraction_new. pose proof Hx as [Hpos _].
  destruct (Z.eqb_spec (denominator x) 0); [lia |].
  now rewrite normalize_id.
Qed.

(** [Fraction(format_value(x))] is [x]. *)
Lemma Fraction_of_string_format (x : Fraction) :
  canonical x -> Fraction_of_string (format_value x) = Ok x.
Proof.
  intros Hx. pose proof Hx as [Hpos _].
  unfold Fraction_of_string, format_value.
  destruct (Z.eqb_spec (denominator x) 1) as [Hone | Hden].
  - destruct (split_sign_str (numerator x) EmptyString) as (s & Hsign & Hall & Hint).
    rewrite !append_empty_r in Hsign. rewrite Hsign, (split_slash_digits s Hall), Hint.
    cbn [result_bind]. rewrite signed_abs, <- Hone. now apply Fraction_new_canonical.
  - destruct (split_sign_str (numerator x) ("/" +:+ str (denominator x)))
      as (s & Hsign & Hall & Hint).
    rewrite Hsign, (split_slash_pair s _ Hall), Hint. cbn [result_bind].
    destruct (str_nonneg (denominator x)) as (ds & -> & _ & _ & Hd); [lia |].
    rewrite Hd. cbn [result_bind]. rewrite signed_abs.
    now apply Fraction_new_canonical.
Qed.

End Strings.

(** ** Reasoning about solver computations *)

Section Monad.

Context {A B : Type}.

Lemma bind_Ok (c : M A) (k : A -> M B) (lg lg' : list string) (a : A) :
  c lg = (Ok a, lg') -> bind c k lg = k a lg'.
Proof. intros H. unfold bind. now rewrite H. Qed.

Lemma bind_Raise (c : M A) (k : A -> M B) (lg lg' : list string) (e : exn) :
  c lg = (Raise e, lg') -> bind c k lg = (Raise e, lg').
Proof. intros H. unfold bind. now rewrite H. Qed.

Lemma returns_ret (a : A) (P : A -> Prop) : P a -> returns (ret a) P.
Proof. intros H lg. exists a, lg. auto. Qed.

Lemma returns_lift (r : result A) (a : A) (P : A -> Prop) :
  r = Ok a -> P a -> returns (lift r) P.
Proof. intros -> H lg. exists a, lg. auto. Qed.

Lemma returns_bind (c : M A) (k : A -> M B) (P : A -> Prop) (Q : B -> Prop) :
  returns c P -> (forall a, P a -> returns (k a) Q) -> returns (bind c k) Q.
Proof.
  intros Hc Hk lg. destruct (Hc lg) as (a & lg1 & Hrun & Ha).
  destruct (Hk a Ha lg1) as (b & lg2 & Hrun2 & Hb).
  exists b, lg2. rewrite (bind_Ok _ _ _ _ _ Hrun). auto.
Qed.

Lemma returns_weaken (c : M A) (P Q : A -> Prop) :
  returns c P -> (forall a, P a -> Q a) -> returns c Q.
Proof.
  intros Hc HPQ lg. destruct (Hc lg) as (a & lg1 & Hrun & Ha). eauto.
Qed.

End Monad.

Lemma returns_log (message : string) : returns (log message) (fun _ => True).
Proof. intros lg. eexists tt, _. split; [reflexivity | exact I]. Qed.

(** A loop whose body always returns and keeps an invariant returns with the
    invariant. *)
Lemma returns_for_in {A S : Type} (l : list A) (body : A -> S -> M (flow S))
    (Inv : S -> Prop) (s : S) :
  Inv s ->
  (forall x s, In x l -> Inv s -> returns (body x s) (fun f => Inv (flow_state f))) ->
  returns (for_in l body s) Inv.
Proof.
  revert s. induction l as [| x l IH]; intros s Hs Hbody; cbn [for_in].
  - now apply returns_ret.
  - eapply returns_bind.
    + apply Hbody; [now left | exact Hs].
    + intros [s' | s'] Hs'; cbn [flow_state] in Hs'.
      * apply IH; [exact Hs' |]. intros y t Hy. apply Hbody. now right.
      * now apply returns_ret.
Qed.

Lemma print_rows_run (matrix : Matrix) (lg : list string) :
  for_in matrix (fun row _ => do! log (format_row row) in ret (Next tt)) tt lg
  = (Ok tt, lg ++ map (fun row => format_row row +:+ newline) matrix).
Proof.
  revert lg. induction matrix as [| row matrix IH]; intros lg; cbn [for_in map].
  - unfold ret. now rewrite app_nil_r.
  - unfold bind at 1. unfold bind at 1. unfold log at 1. cbn [ret].
    rewrite IH, <- app_assoc. reflexivity.
Qed.

(** [print_matrix] only logs. *)
Lemma print_matrix_run (matrix : Matrix) (title : string) (lg : list string) :
  print_matrix matrix title lg = (Ok tt, lg ++ print_matrix_lines matrix title).
Proof.
  unfold print_matrix, print_matrix_lines.
  unfold bind at 1. unfold log at 1.
  unfold bind at 1. rewrite print_rows_run. unfold log.
  rewrite <- !app_assoc. reflexivity.
Qed.

Lemma returns_print_matrix (matrix : Matrix) (title : string) :
  returns (print_matrix matrix title) (fun _ => True).
Proof. intros lg. rewrite print_matrix_run. eexists tt, _. auto. Qed.

(** ** The elementary row operations keep the matrix invariant *)

Section RowOperations.

Local Open Scope nat_scope.

Lemma getitem_Some {A : Type} (l : list A) (i : nat) (x : A) :
  l !! i = Some x -> getitem l i = Ok x.
Proof. intros H. unfold getitem. now rewrite H. Qed.

Lemma getitem_lt {A : Type} (l : list A) (i : nat) :
  i < length l -> exists x, l !! i = Some x /\ getitem l i = Ok x.
Proof.
  intros Hi. destruct (lookup_lt_is_Some_2 l i Hi) as [x Hx].
  exists x. split; [exact Hx | now apply getitem_Some].
Qed.

Lemma setitem_lt {A : Type} (l : list A) (i : nat) (x : A) :
  i < length l -> setitem l i x = Ok (<[i := x]> l).
Proof.
  intros Hi. unfold setitem. destruct (Nat.ltb_spec i (length l)); [reflexivity | lia].
Qed.

(** A comprehension whose element expression returns on every element
    returns a list of the same length, element by element. *)
Lemma comprehension_ok {A B : Type} (f : A -> result B) (l : list A) (P : B -> Prop) :
  (forall x, In x l -> exists y, f x = Ok y /\ P y) ->
  exists ys, comprehension f l = Ok ys /\ length ys = length l /\ Forall P ys
             /\ forall j x, l !! j = Some x -> exists y, ys !! j = Some y /\ f x = Ok y.
Proof.
  induction l as [| x l IH]; intros Hf; cbn [comprehension].
  - exists []. repeat split; auto. intros j x Hj. discriminate.
  - destruct (Hf x) as (y & Hy & HPy); [now left |].
    destruct IH as (ys & Hys & Hlen & Hall & Hnth).
    { intros z Hz. apply Hf. now right. }
    exists (y :: ys). rewrite Hy, Hys. cbn [result_bind].
    repeat split; [cbn; lia | now constructor |].
    intros [| j] z Hj; cbn in Hj.
    + injection Hj as <-. exists y. auto.
    + apply Hnth in Hj. exact Hj.
Qed.

Variables rows cols : nat.

Lemma rectangular_row (matrix : Matrix) (i : nat) :
  rectangular rows cols matrix -> i < rows ->
  exists row, matrix !! i = Some row /\ getitem matrix i = Ok row
              /\ length row = cols /\ Forall canonical row.
Proof.
  intros [Hlen Hrows] Hi.
  destruct (getitem_lt matrix i) as (row & Hrow & Hget); [lia |].
  exists row. pose proof (Forall_lookup_1 _ _ _ _ Hrows Hrow) as [Hl Hc]. auto.
Qed.

Lemma row_entry (row : list Fraction) (j : nat) :
  Forall canonical row -> j < length row ->
  exists x, row !! j = Some x /\ getitem row j = Ok x /\ canonical x.
Proof.
  intros Hrow Hj. destruct (getitem_lt row j Hj) as (x & Hx & Hget).
  exists x. pose proof (Forall_lookup_1 _ _ _ _ Hrow Hx). auto.
Qed.

Lemma rectangular_insert (matrix : Matrix) (i : nat) (row : list Fraction) :
  rectangular rows cols matrix -> length row = cols -> Forall canonical row ->
  rectangular rows cols (<[i := row]> matrix).
Proof.
  intros [Hlen Hrows] Hl Hc. split.
  - now rewrite length_insert.
  - apply Forall_insert; auto.
Qed.

(** Row scaling by a non-zero pivot. *)
Lemma row_scale_ok (matrix : Matrix) (pivot_row : nat) (pivot_val : Fraction) :
  rectangular rows cols matrix -> pivot_row < rows ->
  canonical pivot_val -> Fraction_eq_int pivot_val 0 = false ->
  exists row new_row,
    matrix !! pivot_row = Some row
    /\ row_scale matrix pivot_row pivot_val = Ok (<[pivot_row := new_row]> matrix)
    /\ rectangular rows cols (<[pivot_row := new_row]> matrix)
    /\ forall j x, row !! j = Some x ->
         exists y, new_row !! j = Some y /\ Fraction_div x pivot_val = Ok y.
Proof.
  intros Hm Hp Hc Hnz.
  destruct (rectangular_row matrix pivot_row Hm Hp) as (row & Hrow & Hget & Hlen & Hall).
  destruct (comprehension_ok (fun x => Fraction_div x pivot_val) row canonical)
    as (new_row & Hnew & Hlen' & Hall' & Hnth).
  { intros x Hx. apply Fraction_div_ok; [| assumption..].
    rewrite Forall_forall in Hall. apply Hall. now apply list_elem_of_In. }
  exists row, new_row. split; [exact Hrow |].
  unfold row_scale. rewrite Hget. cbn [result_bind]. rewrite Hnew. cbn [result_bind].
  split; [apply setitem_lt; destruct Hm; lia |].
  split; [apply rectangular_insert; auto; lia | exact Hnth].
Qed.

(** Subtracting a multiple of row [p] from row [r]. *)
Lemma row_subtract_ok (matrix : Matrix) (r p : nat) (factor : Fraction) :
  rectangular rows cols matrix -> r < rows -> p < rows -> canonical factor ->
  exists row_r row_p new_row,
    matrix !! r = Some row_r /\ matrix !! p = Some row_p
    /\ row_subtract matrix r p factor cols = Ok (<[r := new_row]> matrix)
    /\ rectangular rows cols (<[r := new_row]> matrix)
    /\ forall j a b, row_r !! j = Some a -> row_p !! j = Some b ->
         new_row !! j = Some (Fraction_sub a (Fraction_mul factor b)).
Proof.
  intros Hm Hr Hp Hf.
  destruct (rectangular_row matrix r Hm Hr) as (row_r & Hrow_r & Hget_r & Hlen_r & Hall_r).
  destruct (rectangular_row matrix p Hm Hp) as (row_p & Hrow_p & Hget_p & Hlen_p & Hall_p).
  set (entry := fun c_idx : nat =>
          result_bind (getitem matrix r) (fun row_r =>
          result_bind (getitem row_r c_idx) (fun a =>
          result_bind (getitem matrix p) (fun row_p =>
          result_bind (getitem row_p c_idx) (fun b =>
          Ok (Fraction_sub a (Fraction_mul factor b))))))).
  assert (Hentry : forall j, j < cols ->
            exists a b, row_r !! j = Some a /\ row_p !! j = Some b
                        /\ entry j = Ok (Fraction_sub a (Fraction_mul factor b))
                        /\ canonical (Fraction_sub a (Fraction_mul factor b))).
  { intros j Hj.
    destruct (row_entry row_r j Hall_r) as (a & Ha & Hga & Hca); [lia |].
    destruct (row_entry row_p j Hall_p) as (b & Hb & Hgb & Hcb); [lia |].
    exists a, b. unfold entry. rewrite Hget_r, Hget_p. cbn [result_bind].
    rewrite Hga, Hgb. cbn [result_bind].
    split; [exact Ha |]. split; [exact Hb |]. split; [reflexivity |].
    apply Fraction_sub_canonical; [assumption |]. now apply Fraction_mul_canonical. }
  destruct (comprehension_ok entry (range 0 cols) canonical)
    as (new_row & Hnew & Hlen' & Hall' & Hnth).
  { intros j Hj. unfold range in Hj. apply in_seq in Hj.
    destruct (Hentry j) as (a & b & _ & _ & He & Hc); [lia |]. eauto. }
  exists row_r, row_p, new_row. split; [exact Hrow_r |]. split; [exact Hrow_p |].
  unfold row_subtract. fold entry. rewrite Hnew. cbn [result_bind].
  unfold range in Hlen'. rewrite length_seq, Nat.sub_0_r in Hlen'.
  split; [apply setitem_lt; destruct Hm; lia |].
  split; [apply rectangular_insert; auto |].
  intros j a b Ha Hb.
  assert (Hj : j < cols) by (apply lookup_lt_Some in Ha; lia).
  destruct (Hnth j j) as (y & Hy & Hey).
  { unfold range. rewrite Nat.sub_0_r. now apply lookup_seq_lt. }
  destruct (Hentry j Hj) as (a' & b' & Ha' & Hb' & He & _).
  rewrite Hy. congruence.
Qed.

End RowOperations.

(** ** The three stages of [solve] on a rectangular matrix *)

Section Phases.

Local Open Scope nat_scope.

Lemma bind_lift {A B : Type} (r : result A) (a : A) (k : A -> M B) :
  r = Ok a -> bind (lift r) k = k a.
Proof. intros ->. reflexivity. Qed.

Lemma bind_ret {A B : Type} (a : A) (k : A -> M B) : bind (ret a) k = k a.
Proof. reflexivity. Qed.

Lemma bind_log {B : Type} (message : string) (k : unit -> M B) (lg : list string) :
  bind (log message) k lg = k tt (lg ++ [message +:+ newline]).
Proof. reflexivity. Qed.

Lemma bind_print_matrix {B : Type} (matrix : Matrix) (title : string)
    (k : unit -> M B) (lg : list string) :
  bind (print_matrix matrix title) k lg = k tt (lg ++ print_matrix_lines matrix title).
Proof. unfold bind. now rewrite print_matrix_run. Qed.

Lemma in_range (a b i : nat) : In i (range a b) <-> a <= i < b.
Proof. unfold range. rewrite in_seq. lia. Qed.

Lemma in_range_down (a i : nat) : In i (range_down a) <-> i < a.
Proof. unfold range_down. rewrite <- in_rev, in_seq. lia. Qed.

Variables rows cols : nat.

(** Clearing one entry returns and keeps the matrix rectangular. *)
Lemma clear_entry_returns (col p r : nat) (matrix : Matrix) :
  rectangular rows cols matrix -> r < rows -> p < rows -> col < cols ->
  returns (clear_entry cols col p r matrix)
          (fun f => rectangular rows cols (flow_state f)).
Proof.
  intros Hm Hr Hp Hcol. unfold clear_entry.
  destruct (rectangular_row rows cols matrix r Hm Hr) as (row_r & _ & Hget & Hlen & Hall).
  destruct (row_entry row_r col Hall) as (factor & _ & Hgf & Hcf); [lia |].
  rewrite (bind_lift _ _ _ Hget), (bind_lift _ _ _ Hgf).
  destruct (Fraction_eq_int factor 0); cbn [negb].
  - now apply returns_ret.
  - destruct (row_subtract_ok rows cols matrix r p factor Hm Hr Hp Hcf)
      as (_ & _ & new_row & _ & _ & Hsub & Hrect & _).
    eapply returns_bind; [apply returns_log | intros _ _].
    rewrite (bind_lift _ _ _ Hsub).
    eapply returns_bind; [apply returns_print_matrix | intros _ _].
    now apply returns_ret.
Qed.

(** A column whose pivot entry is zero: one log line, nothing else changes. *)
Lemma phase1_body_zero (col pivot_row : nat) (matrix : Matrix)
    (row_p : list Fraction) (pivot_val : Fraction) (lg : list string) :
  pivot_row < rows ->
  matrix !! pivot_row = Some row_p -> row_p !! col = Some pivot_val ->
  Fraction_eq_int pivot_val 0 = true ->
  phase1_body rows cols col (matrix, pivot_row) lg
  = (Ok (Next (matrix, pivot_row)),
     lg ++ [zero_pivot_message pivot_row col +:+ newline]).
Proof.
  intros Hp Hrow Hval Hz. unfold phase1_body.
  destruct (Nat.leb_spec rows pivot_row); [lia |].
  rewrite (bind_lift _ _ _ (getitem_Some _ _ _ Hrow)).
  rewrite (bind_lift _ _ _ (getitem_Some _ _ _ Hval)).
  rewrite Hz. reflexivity.
Qed.

(** A column whose pivot entry is not zero: the body returns, the matrix
    is still rectangular and [pivot_row] has advanced by one. *)
Lemma phase1_body_nonzero (col pivot_row : nat) (matrix : Matrix)
    (row_p : list Fraction) (pivot_val : Fraction) :
  rectangular rows cols matrix -> col < cols -> pivot_row < rows ->
  matrix !! pivot_row = Some row_p -> row_p !! col = Some pivot_val ->
  Fraction_eq_int pivot_val 0 = false ->
  returns (phase1_body rows cols col (matrix, pivot_row))
          (fun f => exists matrix',
             f = Next (matrix', pivot_row + 1) /\ rectangular rows cols matrix').
Proof.
  intros Hm Hcol Hp Hrow Hval Hnz. unfold phase1_body.
  destruct (Nat.leb_spec rows pivot_row); [lia |].
  rewrite (bind_lift _ _ _ (getitem_Some _ _ _ Hrow)).
  rewrite (bind_lift _ _ _ (getitem_Some _ _ _ Hval)).
  rewrite Hnz.
  assert (Hcv : canonical pivot_val).
  { destruct Hm as [_ Hrows].
    pose proof (Forall_lookup_1 _ _ _ _ Hrows Hrow) as [_ Hc].
    exact (Forall_lookup_1 _ _ _ _ Hc Hval). }
  eapply returns_bind with (P := rectangular rows cols).
  - destruct (Fraction_eq_int pivot_val 1); cbn [negb].
    + now apply returns_ret.
    + destruct (row_scale_ok rows cols matrix pivot_row pivot_val Hm Hp Hcv Hnz)
        as (_ & new_row & _ & Hscale & Hrect & _).
      eapply returns_bind; [apply returns_log | intros _ _].
      rewrite (bind_lift _ _ _ Hscale).
      eapply returns_bind; [apply returns_print_matrix | intros _ _].
      now apply returns_ret.
  - intros matrix1 Hm1.
    eapply returns_bind.
    + apply returns_for_in with (Inv := rectangular rows cols); [exact Hm1 |].
      intros r m Hr Hrect. apply in_range in Hr.
      apply clear_entry_returns; auto; lia.
    + intros matrix2 Hm2. apply returns_ret. eauto.
Qed.

(** In every case the body of the Phase 1 loop returns and keeps the
    matrix rectangular. *)
Lemma phase1_body_returns (col : nat) (st : Matrix * nat) :
  rectangular rows cols (fst st) -> col < cols ->
  returns (phase1_body rows cols col st)
          (fun f => rectangular rows cols (fst (flow_state f))).
Proof.
  destruct st as [matrix pivot_row]. cbn [fst]. intros Hm Hcol.
  destruct (Nat.leb_spec rows pivot_row) as [Hge | Hlt].
  - unfold phase1_body. destruct (Nat.leb_spec rows pivot_row); [| lia].
    now apply returns_ret.
  - destruct (rectangular_row rows cols matrix pivot_row Hm Hlt)
      as (row_p & Hrow & _ & Hlen & Hall).
    destruct (row_entry row_p col Hall) as (pivot_val & Hval & _ & _); [lia |].
    destruct (Fraction_eq_int pivot_val 0) eqn:Hz.
    + intros lg. rewrite (phase1_body_zero _ _ _ _ _ _ Hlt Hrow Hval Hz).
      eexists _, _. split; [reflexivity | exact Hm].
    + eapply returns_weaken.
      * eapply phase1_body_nonzero; eauto.
      * intros f (matrix' & -> & Hrect). exact Hrect.
Qed.

Lemma phase1_returns (n_vars : nat) (matrix : Matrix) :
  rectangular rows cols matrix -> n_vars < cols ->
  returns (phase1 rows cols n_vars matrix)
          (fun st => rectangular rows cols (fst st)).
Proof.
  intros Hm Hn. unfold phase1.
  apply returns_for_in with (Inv := fun st => rectangular rows cols (fst st));
    [exact Hm |].
  intros col st Hcol Hst. apply in_range in Hcol.
  apply phase1_body_returns; [exact Hst | lia].
Qed.

End Phases.

Section Phase2.

Local Open Scope nat_scope.

(** The pivot search from column [a] on, over [n] columns. *)
Lemma pivot_search (matrix : Matrix) (i : nat) (row : list Fraction) (lg : list string) :
  matrix !! i = Some row ->
  forall n a, a + n <= length row ->
  exists pivot_col,
    for_in (seq a n)
      (fun c pivot_col =>
         let! row_i := lift (getitem matrix i) in
         let! x := lift (getitem row_i c) in
         if Fraction_eq_int x 1 then ret (Break (Some c)) else ret (Next pivot_col))
      None lg
    = (Ok pivot_col, lg)
    /\ match pivot_col with
       | Some c =>
           a <= c < a + n
           /\ (exists x, row !! c = Some x /\ Fraction_eq_int x 1 = true)
           /\ forall c' x, a <= c' < c -> row !! c' = Some x -> Fraction_eq_int x 1 = false
       | None =>
           forall c x, a <= c < a + n -> row !! c = Some x -> Fraction_eq_int x 1 = false
       end.
Proof.
  intros Hrow. induction n as [| n IH]; intros a Hlen; cbn [seq for_in].
  - exists None. split; [reflexivity |]. intros c x Hc. lia.
  - destruct (getitem_lt row a) as (x & Hx & Hgx); [lia |].
    rewrite (bind_lift _ _ _ (getitem_Some _ _ _ Hrow)), (bind_lift _ _ _ Hgx).
    destruct (Fraction_eq_int x 1) eqn:Hone.
    + exists (Some a). split; [reflexivity |].
      split; [lia |]. split; [eauto |]. intros c' y Hc'. lia.
    + rewrite bind_ret. destruct (IH (S a)) as (pc & Hrun & Hpc); [lia |].
      exists pc. split; [exact Hrun |].
      destruct pc as [c |].
      * destruct Hpc as (Hc & Hfound & Hbefore). split; [lia |]. split; [exact Hfound |].
        intros c' y Hc' Hy. destruct (Nat.eq_dec c' a) as [-> | Hne].
        -- congruence.
        -- apply (Hbefore c'); [lia | exact Hy].
      * intros c y Hc Hy. destruct (Nat.eq_dec c a) as [-> | Hne].
        -- congruence.
        -- apply (Hpc c); [lia | exact Hy].
Qed.

(** [find_pivot_col] returns the leftmost coefficient column holding
    exactly 1, or [None] when there is none; it logs nothing. *)
Lemma find_pivot_col_spec (matrix : Matrix) (i n_vars : nat) (row : list Fraction)
    (lg : list string) :
  matrix !! i = Some row -> n_vars <= length row ->
  exists pivot_col,
    find_pivot_col matrix i n_vars lg = (Ok pivot_col, lg)
    /\ match pivot_col with
       | Some c =>
           c < n_vars
           /\ (exists x, row !! c = Some x /\ Fraction_eq_int x 1 = true)
           /\ forall c' x, c' < c -> row !! c' = Some x -> Fraction_eq_int x 1 = false
       | None =>
           forall c x, c < n_vars -> row !! c = Some x -> Fraction_eq_int x 1 = false
       end.
Proof.
  intros Hrow Hlen. unfold find_pivot_col, range. rewrite Nat.sub_0_r.
  destruct (pivot_search matrix i row lg Hrow n_vars 0) as (pc & Hrun & Hpc); [lia |].
  exists pc. split; [exact Hrun |].
  destruct pc as [c |].
  - destruct Hpc as (Hc & Hfound & Hbefore). split; [lia |]. split; [exact Hfound |].
    intros c' x Hc'. apply Hbefore. lia.
  - intros c x Hc. apply Hpc. lia.
Qed.

(** A row without a coefficient equal to 1 is skipped: no operation, no log
    line, the matrix is handed on as it is. *)
Lemma phase2_body_skip (cols n_vars i : nat) (matrix : Matrix) (row : list Fraction)
    (lg : list string) :
  matrix !! i = Some row -> n_vars <= length row ->
  (forall c x, c < n_vars -> row !! c = Some x -> Fraction_eq_int x 1 = false) ->
  phase2_body cols n_vars i matrix lg = (Ok (Next matrix), lg).
Proof.
  intros Hrow Hlen Hnone. unfold phase2_body.
  destruct (find_pivot_col_spec matrix i n_vars row lg Hrow Hlen) as (pc & Hrun & Hpc).
  rewrite (bind_Ok _ _ _ _ _ Hrun).
  destruct pc as [c |]; [| reflexivity].
  destruct Hpc as (Hc & (x & Hx & Hone) & _).
  rewrite (Hnone c x Hc Hx) in Hone. discriminate.
Qed.

Variables rows cols : nat.

Lemma phase2_body_returns (n_vars i : nat) (matrix : Matrix) :
  rectangular rows cols matrix -> n_vars < cols -> i < rows ->
  returns (phase2_body cols n_vars i matrix)
          (fun f => rectangular rows cols (flow_state f)).
Proof.
  intros Hm Hn Hi lg.
  destruct (rectangular_row rows cols matrix i Hm Hi) as (row & Hrow & _ & Hlen & _).
  destruct (find_pivot_col_spec matrix i n_vars row lg Hrow) as (pc & Hrun & Hpc); [lia |].
  unfold phase2_body. rewrite (bind_Ok _ _ _ _ _ Hrun).
  destruct pc as [c |].
  - destruct Hpc as (Hc & _ & _).
    revert lg Hrun. intros lg _.
    eapply returns_bind.
    + apply returns_for_in with (Inv := rectangular rows cols); [exact Hm |].
      intros r m Hr Hrect. apply in_range_down in Hr.
      apply clear_entry_returns; auto; lia.
    + intros matrix' Hm'. now apply returns_ret.
  - eexists _, _. split; [reflexivity | exact Hm].
Qed.

Lemma phase2_returns (n_vars : nat) (matrix : Matrix) :
  rectangular rows cols matrix -> n_vars < cols ->
  returns (phase2 rows cols n_vars matrix) (rectangular rows cols).
Proof.
  intros Hm Hn. unfold phase2.
  apply returns_for_in; [exact Hm |].
  intros i m Hi Hrect. apply in_range_down in Hi.
  now apply phase2_body_returns.
Qed.

End Phase2.

(** ** Solution classification *)

Section Classification.

Local Open Scope nat_scope.

Lemma getitem_last_nonempty {A : Type} (l : list A) :
  l <> [] -> exists x, getitem_last l = Ok x.
Proof.
  destruct l as [| a l]; [congruence |]. intros _. unfold getitem_last.
  destruct (getitem_lt (a :: l) (length (a :: l) - 1)) as (x & _ & Hx); [cbn; lia |].
  eauto.
Qed.

(** The final loop computes [scan_rows]; its only log line is the
    inconsistency report. *)
Lemma classify_loop_run (todo done : Matrix) (solutions : list Fraction)
    (lg : list string) :
  for_in (seq (length done) (length todo)) (classify_body (done ++ todo))
    (Some solutions) lg
  = match scan_rows todo solutions with
    | Raise e => (Raise e, lg)
    | Ok None => (Ok None, lg ++ [inconsistent_message +:+ newline])
    | Ok (Some s) => (Ok (Some s), lg)
    end.
Proof.
  revert done solutions.
  induction todo as [| row rest IH]; intros done solutions; [reflexivity |].
  cbn [length seq for_in scan_rows classify_body].
  assert (Hrow : (done ++ row :: rest) !! length done = Some row)
    by (rewrite lookup_app_r, Nat.sub_diag by lia; reflexivity).
  rewrite (bind_lift _ _ _ (getitem_Some _ _ _ Hrow)).
  fold (all_zero_coefficients row).
  destruct (getitem_last row) as [constant | e]; [| reflexivity].
  rewrite (bind_lift _ _ _ eq_refl). cbn [result_bind].
  assert (Hnext : forall s,
            for_in (seq (S (length done)) (length rest))
              (classify_body (done ++ row :: rest)) (Some s) lg
            = match scan_rows rest s with
              | Raise e => (Raise e, lg)
              | Ok None => (Ok None, lg ++ [inconsistent_message +:+ newline])
              | Ok (Some s') => (Ok (Some s'), lg)
              end).
  { intros s. specialize (IH (done ++ [row]) s).
    rewrite <- app_assoc, length_app, Nat.add_1_r in IH. exact IH. }
  destruct (all_zero_coefficients row && negb (Fraction_eq_int constant 0)).
  - reflexivity.
  - destruct (all_zero_coefficients row && Fraction_eq_int constant 0);
      rewrite bind_ret; apply Hnext.
Qed.

Lemma solution_lines_run (l : list (nat * Fraction)) (lg : list string) :
  for_in l (fun '(idx, val) _ => do! log (solution_message idx val) in ret (Next tt)) tt lg
  = (Ok tt, lg ++ map (fun '(idx, val) => solution_message idx val +:+ newline) l).
Proof.
  revert lg. induction l as [| [idx val] l IH]; intros lg; cbn [for_in map].
  - unfold ret. now rewrite app_nil_r.
  - rewrite bind_Ok with (a := Next tt)
        (lg' := lg ++ [solution_message idx val +:+ newline]) by reflexivity.
    rewrite IH, <- app_assoc. reflexivity.
Qed.

(** What [classify] does, in one equation. *)
Lemma classify_run (matrix : Matrix) (lg : list string) :
  classify (length matrix) matrix lg
  = match scan_rows matrix [] with
    | Raise e => (Raise e, lg)
    | Ok None => (Ok tt, lg ++ [inconsistent_message +:+ newline])
    | Ok (Some []) => (Ok tt, lg ++ [infinite_message +:+ newline])
    | Ok (Some (x :: solutions)) => (Ok tt, lg ++ solution_lines (x :: solutions))
    end.
Proof.
  unfold classify, range. rewrite Nat.sub_0_r. unfold bind at 1.
  pose proof (classify_loop_run matrix [] [] lg) as Hloop.
  cbn [length app] in Hloop. rewrite Hloop.
  destruct (scan_rows matrix []) as [[[| x solutions] |] | e]; try reflexivity.
  apply solution_lines_run.
Qed.

Lemma scan_rows_returns (matrix : Matrix) (solutions : list Fraction) :
  Forall (fun row => row <> []) matrix ->
  exists verdict, scan_rows matrix solutions = Ok verdict.
Proof.
  revert solutions. induction matrix as [| row rest IH]; intros solutions Hne;
    cbn [scan_rows]; [eauto |].
  inversion Hne as [| ? ? Hrow Hrest]; subst.
  destruct (getitem_last_nonempty row Hrow) as (constant & ->). cbn [result_bind].
  destruct (all_zero_coefficients row && negb (Fraction_eq_int constant 0)); [eauto |].
  destruct (all_zero_coefficients row && Fraction_eq_int constant 0); auto.
Qed.

(** An inconsistent row ends the scan, whatever was accepted before it and
    whatever follows it. *)
Lemma scan_rows_inconsistent (pre post : Matrix) (row : list Fraction)
    (solutions : list Fraction) :
  Forall (fun r => r <> []) pre -> inconsistent_row row = true ->
  scan_rows (pre ++ row :: post) solutions = Ok None.
Proof.
  intros Hpre Hrow. revert solutions.
  induction pre as [| r pre IH]; intros solutions; cbn [app scan_rows].
  - unfold inconsistent_row in Hrow.
    destruct (getitem_last row) as [constant | e]; [| discriminate].
    cbn [result_bind]. now rewrite Hrow.
  - inversion Hpre as [| ? ? Hr Hrest]; subst.
    destruct (getitem_last_nonempty r Hr) as (constant & ->). cbn [result_bind].
    destruct (all_zero_coefficients r && negb (Fraction_eq_int constant 0)); [reflexivity |].
    destruct (all_zero_coefficients r && Fraction_eq_int constant 0); auto.
Qed.

Lemma classify_returns (rows cols : nat) (matrix : Matrix) :
  rectangular rows cols matrix -> 0 < cols ->
  returns (classify rows matrix) (fun _ => True).
Proof.
  intros [Hlen Hrows] Hcols lg. subst rows. rewrite classify_run.
  destruct (scan_rows_returns matrix []) as (verdict & ->).
  { eapply Forall_impl; [exact Hrows |]. intros row [Hl _] ->. cbn in Hl. lia. }
  destruct verdict as [[| x solutions] |]; eexists tt, _; split; auto.
Qed.

End Classification.

(** ** Matrix construction and the whole of [solve] *)

Section Solve.

Local Open Scope nat_scope.

Lemma coerced_canonical (v : pyvalue) (y : Fraction) :
  pyvalue_ok v -> coerced v y -> canonical y.
Proof.
  intros Hv Hy. unfold coerced in Hy.
  destruct (limit_denominator_spec (Fraction_of v)) as (y' & Hrun & Hc & _).
  { now apply Fraction_of_canonical. }
  congruence.
Qed.

Lemma coerced_total (v : pyvalue) : pyvalue_ok v -> exists y, coerced v y.
Proof.
  intros Hv. destruct (limit_denominator_spec (Fraction_of v)) as (y & Hrun & _).
  { now apply Fraction_of_canonical. }
  exists y. exact Hrun.
Qed.

Lemma comprehension_coerced (l : list pyvalue) :
  Forall pyvalue_ok l ->
  exists ys, comprehension (fun x => limit_denominator (Fraction_of x)) l = Ok ys
             /\ Forall2 coerced l ys.
Proof.
  induction 1 as [| v l Hv Hl IH]; cbn [comprehension].
  - exists []. split; [reflexivity | constructor].
  - destruct (coerced_total v Hv) as (y & Hy). destruct IH as (ys & Hys & Hall).
    exists (y :: ys). unfold coerced in Hy. rewrite Hy, Hys.
    split; [reflexivity | now constructor].
Qed.

Lemma build_row_ok (coefficients : list (list pyvalue)) (constants : list pyvalue)
    (i : nat) (coeffs : list pyvalue) (k : pyvalue) :
  coefficients !! i = Some coeffs -> constants !! i = Some k ->
  Forall pyvalue_ok coeffs -> pyvalue_ok k ->
  exists row, build_row coefficients constants i = Ok row
              /\ Forall2 coerced (coeffs ++ [k]) row.
Proof.
  intros Hc Hk Hok Hkok. unfold build_row.
  rewrite (getitem_Some _ _ _ Hc). cbn [result_bind].
  destruct (comprehension_coerced coeffs Hok) as (cs & -> & Hcs). cbn [result_bind].
  rewrite (getitem_Some _ _ _ Hk). cbn [result_bind].
  destruct (coerced_total k Hkok) as (y & Hy). pose proof Hy as Hy'.
  unfold coerced in Hy'. rewrite Hy'. cbn [result_bind].
  exists (cs ++ [y]). split; [reflexivity |].
  apply Forall2_app; [exact Hcs | now constructor].
Qed.

Variable n_vars : nat.
Variable coefficients : list (list pyvalue).
Variable constants : list pyvalue.
Hypothesis input : input_ok n_vars coefficients constants.

Lemma input_row (i : nat) :
  i < length coefficients ->
  exists coeffs k, coefficients !! i = Some coeffs /\ constants !! i = Some k
                   /\ length coeffs = n_vars /\ Forall pyvalue_ok coeffs /\ pyvalue_ok k.
Proof using input.
  destruct input as (Hrows & Hlen & Hks). intros Hi.
  destruct (lookup_lt_is_Some_2 coefficients i Hi) as [coeffs Hc].
  destruct (lookup_lt_is_Some_2 constants i) as [k Hk]; [lia |].
  exists coeffs, k.
  pose proof (Forall_lookup_1 _ _ _ _ Hrows Hc) as [Hl Hok].
  pose proof (Forall_lookup_1 _ _ _ _ Hks Hk). auto.
Qed.

(** The construction loop from row [length acc] on, over [n] rows. *)
Lemma build_loop (lg : list string) (n : nat) :
  forall acc : Matrix, length acc + n <= length coefficients ->
  exists new,
    for_in (seq (length acc) n)
      (fun i matrix =>
         let! row_copy := lift (build_row coefficients constants i) in
         ret (Next (matrix ++ [row_copy])))
      acc lg
    = (Ok (acc ++ new), lg)
    /\ length new = n
    /\ forall t coeffs k,
         coefficients !! (length acc + t) = Some coeffs ->
         constants !! (length acc + t) = Some k -> t < n ->
         exists row, new !! t = Some row /\ Forall2 coerced (coeffs ++ [k]) row.
Proof using input.
  induction n as [| n IH]; intros acc Hlen; cbn [seq for_in].
  - exists []. rewrite app_nil_r. split; [reflexivity |]. split; [reflexivity |].
    intros t coeffs k _ _ Ht. lia.
  - destruct (input_row (length acc)) as (coeffs & k & Hc & Hk & _ & Hok & Hkok); [lia |].
    destruct (build_row_ok _ _ _ _ _ Hc Hk Hok Hkok) as (row & Hrow & Hrel).
    rewrite (bind_lift _ _ _ Hrow), bind_ret.
    destruct (IH (acc ++ [row])) as (new & Hrun & Hnew & Hrows).
    { rewrite length_app. cbn. lia. }
    rewrite length_app, Nat.add_1_r in Hrun, Hrows.
    exists (row :: new). rewrite Hrun, <- app_assoc.
    split; [reflexivity |]. split; [cbn; lia |].
    intros [| t] coeffs' k' Hc' Hk' Ht.
    + rewrite Nat.add_0_r in Hc', Hk'. exists row. split; [reflexivity |]. congruence.
    + replace (length acc + S t) with (S (length acc) + t) in Hc', Hk' by lia.
      apply (Hrows t); [exact Hc' | exact Hk' | lia].
Qed.

(** Matrix construction returns the augmented matrix and logs nothing. *)
Lemma build_matrix_run (lg : list string) :
  exists matrix,
    build_matrix coefficients constants (length coefficients) lg = (Ok matrix, lg)
    /\ augmented coefficients constants matrix.
Proof using input.
  unfold build_matrix, range. rewrite Nat.sub_0_r.
  destruct (build_loop lg (length coefficients) []) as (new & Hrun & Hlen & Hrows);
    [cbn; lia |].
  exists new. split; [exact Hrun |]. split; [exact Hlen |].
  intros i coeffs k Hc Hk. apply (Hrows i); auto.
  apply lookup_lt_Some in Hc. exact Hc.
Qed.

Lemma augmented_rectangular (matrix : Matrix) :
  augmented coefficients constants matrix ->
  rectangular (length coefficients) (n_vars + 1) matrix.
Proof using input.
  intros [Hlen Hrows]. split; [exact Hlen |].
  apply Forall_lookup_2. intros i row Hrow.
  destruct (input_row i) as (coeffs & k & Hc & Hk & Hl & Hok & Hkok).
  { apply lookup_lt_Some in Hrow. lia. }
  destruct (Hrows i coeffs k Hc Hk) as (row' & Hrow' & Hrel).
  assert (row' = row) by congruence. subst row'.
  split.
  - apply Forall2_length in Hrel. rewrite length_app in Hrel. cbn in Hrel. lia.
  - assert (Hall : Forall pyvalue_ok (coeffs ++ [k]))
      by (apply Forall_app; split; [exact Hok | now constructor]).
    clear - Hrel Hall. induction Hrel as [| v y l ys Hvy _ IH]; [constructor |].
    inversion Hall; subst. constructor; [eapply coerced_canonical; eauto | auto].
Qed.

(** On a well-formed input with at least one equation, [solve] runs to
    completion: no exception, whatever the log it starts from. *)
Lemma solve_returns :
  coefficients <> [] ->
  returns (solve coefficients constants) (fun _ => True).
Proof using input.
  intros Hne lg. unfold solve.
  assert (Hrows : 0 < length coefficients)
    by (destruct coefficients; [congruence | cbn; lia]).
  destruct (Nat.eqb_spec (length coefficients) 0) as [Hz | _]; [lia |].
  destruct (build_matrix_run lg) as (matrix & Hbuild & Haug).
  rewrite (bind_Ok _ _ _ _ _ Hbuild).
  pose proof (augmented_rectangular matrix Haug) as Hrect.
  destruct (rectangular_row _ _ matrix 0 Hrect Hrows) as (row_0 & _ & Hget & Hlen & _).
  rewrite (bind_lift _ _ _ Hget), Hlen.
  replace (n_vars + 1 - 1) with n_vars by lia.
  revert lg Hbuild. intros lg _.
  eapply returns_bind; [apply returns_log | intros _ _].
  eapply returns_bind; [apply returns_print_matrix | intros _ _].
  eapply returns_bind; [apply returns_log | intros _ _].
  eapply returns_bind; [apply phase1_returns; [exact Hrect | lia] |].
  intros [matrix1 pivot_row] Hm1. cbn [fst] in *.
  eapply returns_bind; [apply returns_log | intros _ _].
  eapply returns_bind; [apply returns_log | intros _ _].
  eapply returns_bind; [apply phase2_returns; [exact Hm1 | lia] |].
  intros matrix2 Hm2.
  eapply returns_bind; [apply returns_log | intros _ _].
  eapply returns_bind; [apply returns_log | intros _ _].
  eapply classify_returns; [exact Hm2 | lia].
Qed.

End Solve.

(** * The specification's claims *)

(** ** Log lines *)

Lemma solution_message_is_solution_line (idx : nat) (val : Fraction) :
  is_solution_line (solution_message idx val +:+ newline) = true.
Proof. reflexivity. Qed.

Lemma solution_message_not_operation (idx : nat) (val : Fraction) :
  is_operation_line (solution_message idx val +:+ newline) = false.
Proof. reflexivity. Qed.



Lemma solution_lines_not_operation (solutions : list Fraction) :
  Forall (fun line => is_operation_line line = false) (solution_lines solutions).
Proof.
  unfold solution_lines. apply Forall_map. apply Forall_forall.
  intros [idx val] _. apply solution_message_not_operation.
Qed.

(** ** Solution classification (C1, C2, C3) *)

(** C1. During solution classification, a row whose coefficient entries are
    all exactly zero and whose constant entry is not zero makes the solver
    report INCONSISTENT and stop at once: the rows after it are not looked
    at, and the only line emitted is the inconsistency report, which is not a
    solution line, so what earlier rows contributed is dropped. For
    coefficients [[1,1],[1,1]] and constants [2,3] the run ends with the
    INCONSISTENT report and its log has no [x<i> =] line. *)
Theorem inconsistent_row_stops_classification
    (pre post : Matrix) (row : list Fraction) (lg : list string) :
  Forall (fun r => r <> []) pre ->
  inconsistent_row row = true ->
  classify (length (pre ++ row :: post)) (pre ++ row :: post) lg
    = (Ok tt, lg ++ [inconsistent_message +:+ newline])
  /\ is_solution_line (inconsistent_message +:+ newline) = false
  /\ exists lines,
       solve [[PyInt 1; PyInt 1]; [PyInt 1; PyInt 1]] [PyInt 2; PyInt 3] []
         = (Ok tt, lines ++ [inconsistent_message +:+ newline])
       /\ forallb (fun line => negb (is_solution_line line)) lines = true.
Proof.
  intros Hpre Hrow. split; [| split; [reflexivity |]].
  - rewrite classify_run, (scan_rows_inconsistent pre post row [] Hpre Hrow).
    reflexivity.
  - eexists. split.
    + vm_compute. rewrite (app_removelast_last EmptyString) at 1 by discriminate.
      cbn [last removelast]. reflexivity.
    + vm_compute. reflexivity.
Qed.

Lemma inconsistent_row_stops_classification_witness :
  Forall (fun r : list Fraction => r <> [])
    [[mkFraction 1 1; mkFraction 1 1; mkFraction 2 1]]
  /\ inconsistent_row [mkFraction 0 1; mkFraction 0 1; mkFraction 1 1] = true
  /\ classify 3
       [[mkFraction 1 1; mkFraction 1 1; mkFraction 2 1];
        [mkFraction 0 1; mkFraction 0 1; mkFraction 1 1];
        []] []
     = (Ok tt, [inconsistent_message +:+ newline]).
Proof.
  assert (Hpre : Forall (fun r : list Fraction => r <> [])
                   [[mkFraction 1 1; mkFraction 1 1; mkFraction 2 1]])
    by (repeat constructor; discriminate).
  split; [exact Hpre |]. split; [reflexivity |].
  exact (proj1 (inconsistent_row_stops_classification
                  [[mkFraction 1 1; mkFraction 1 1; mkFraction 2 1]] [[]]
                  [mkFraction 0 1; mkFraction 0 1; mkFraction 1 1] []
                  Hpre eq_refl)).
Defined.

(** C2. On coefficients [[1,1],[2,2]] with constants [3,6] the solver does
    subtract the redundant row down to all zeros, but the final loop then
    accepts the constant of the first row: the log ends with the single
    solution line [x1 = 3] and "Infinite solutions or trivial system." is
    never logged. The claim expects the infinite-solutions report and no
    solution line. *)
Theorem redundant_system_reports_x1 :
  let out := solve [[PyInt 1; PyInt 1]; [PyInt 2; PyInt 2]] [PyInt 3; PyInt 6] [] in
  fst out = Ok tt
  /\ logged (subtract_message 1 0 (mkFraction 2 1)) (snd out) = true
  /\ logged (format_row [mkFraction 0 1; mkFraction 0 1; mkFraction 0 1]) (snd out) = true
  /\ List.filter is_solution_line (snd out) = ["x1 = 3" +:+ newline]
  /\ logged infinite_message (snd out) = false.
Proof. vm_compute. repeat split; reflexivity. Qed.

(** C3. On coefficients [[2,1],[1,3]] with constants [5,10] the solver
    returns normally, its log ends with exactly the two solution lines
    [x1 = 1] and [x2 = 3] (the only solution lines of the log), and the log
    contains a row-scale operation and a row-subtract operation. *)
Theorem simple_elimination_example :
  let out := solve [[PyInt 2; PyInt 1]; [PyInt 1; PyInt 3]] [PyInt 5; PyInt 10] [] in
  fst out = Ok tt
  /\ List.filter is_solution_line (snd out) = ["x1 = 1" +:+ newline; "x2 = 3" +:+ newline]
  /\ skipn (length (snd out) - 2) (snd out) = solution_lines [mkFraction 1 1; mkFraction 3 1]
  /\ solution_lines [mkFraction 1 1; mkFraction 3 1]
     = ["x1 = 1" +:+ newline; "x2 = 3" +:+ newline]
  /\ logged (scale_message 0 (mkFraction 2 1)) (snd out) = true
  /\ logged (subtract_message 1 0 (mkFraction 1 1)) (snd out) = true.
Proof. vm_compute. repeat split; reflexivity. Qed.

(** ** Forward elimination and back substitution (C4, C5) *)


(** C5. For a row of the matrix visited by Phase 2, the pivot search
    returns, without logging, the leftmost coefficient column whose entry
    equals exactly 1, or no column when no coefficient equals 1; in that
    second case the body of the loop does nothing: no operation on the rows
    above, no log line, the same matrix. *)
Theorem pivot_is_leftmost_one
    (cols n_vars i : nat) (matrix : Matrix) (row : list Fraction) (lg : list string) :
  matrix !! i = Some row -> (n_vars <= length row)%nat ->
  (exists pivot_col,
     find_pivot_col matrix i n_vars lg = (Ok pivot_col, lg)
     /\ match pivot_col with
        | Some c =>
            (c < n_vars)%nat
            /\ (exists x, row !! c = Some x /\ Fraction_eq_int x 1 = true)
            /\ forall c' x, (c' < c)%nat -> row !! c' = Some x ->
                 Fraction_eq_int x 1 = false
        | None =>
            forall c x, (c < n_vars)%nat -> row !! c = Some x ->
              Fraction_eq_int x 1 = false
        end)
  /\ ((forall c x, (c < n_vars)%nat -> row !! c = Some x -> Fraction_eq_int x 1 = false) ->
      phase2_body cols n_vars i matrix lg = (Ok (Next matrix), lg))
  /\ phase2 (length matrix) cols n_vars matrix
     = for_in (rev (seq 0 (length matrix))) (phase2_body cols n_vars) matrix.
Proof.
  intros Hrow Hlen. split; [| split].
  - now apply find_pivot_col_spec.
  - now apply phase2_body_skip.
  - reflexivity.
Qed.


Lemma pivot_is_leftmost_one_witness :
  [[mkFraction 1 1; mkFraction 1 2; mkFraction 5 2];
   [mkFraction 0 1; mkFraction 1 1; mkFraction 3 1]] !! 1%nat
  = Some [mkFraction 0 1; mkFraction 1 1; mkFraction 3 1]
  /\ (2 <= length [mkFraction 0 1; mkFraction 1 1; mkFraction 3 1])%nat
  /\ exists pivot_col,
       find_pivot_col
         [[mkFraction 1 1; mkFraction 1 2; mkFraction 5 2];
          [mkFraction 0 1; mkFraction 1 1; mkFraction 3 1]] 1 2 []
       = (Ok pivot_col, [])
       /\ match pivot_col with
          | Some c =>
              (c < 2)%nat
              /\ (exists x, [mkFraction 0 1; mkFraction 1 1; mkFraction 3 1] !! c = Some x
                            /\ Fraction_eq_int x 1 = true)
              /\ forall c' x, (c' < c)%nat ->
                   [mkFraction 0 1; mkFraction 1 1; mkFraction 3 1] !! c' = Some x ->
                   Fraction_eq_int x 1 = false
          | None =>
              forall c x, (c < 2)%nat ->
                [mkFraction 0 1; mkFraction 1 1; mkFraction 3 1] !! c = Some x ->
                Fraction_eq_int x 1 = false
          end.
Proof.
  split; [reflexivity |]. split; [cbn; lia |].
  exact (proj1 (pivot_is_leftmost_one 3 2 1
                  [[mkFraction 1 1; mkFraction 1 2; mkFraction 5 2];
                   [mkFraction 0 1; mkFraction 1 1; mkFraction 3 1]]
                  [mkFraction 0 1; mkFraction 1 1; mkFraction 3 1] []
                  eq_refl ltac:(cbn; lia))).
Defined.

(** ** Degenerate inputs (C6) *)




(** ** Matrix construction (C7) *)

(** An exact rational whose denominator exceeds 1000000 does not appear
    unchanged in the augmented matrix: 1/1000001 is stored as 1/1000000,
    a different number. *)
Lemma large_denominator_is_changed :
  canonical (mkFraction 1 1000001)
  /\ build_matrix [[PyFraction (mkFraction 1 1000001)]] [PyInt 0] 1 []
     = (Ok [[mkFraction 1 1000000; mkFraction 0 1]], [])
  /\ ~ (value (mkFraction 1 1000000) == value (mkFraction 1 1000001))%Q.
Proof.
  split; [split; reflexivity |]. split.
  - assert (Hrow : build_row [[PyFraction (mkFraction 1 1000001)]] [PyInt 0] 0
                   = Ok [mkFraction 1 1000000; mkFraction 0 1]).
    { unfold build_row.
      change (getitem [[PyFraction (mkFraction 1 1000001)]] 0)
        with (Ok [PyFraction (mkFraction 1 1000001)]).
      cbn [result_bind comprehension].
      change (Fraction_of (PyFraction (mkFraction 1 1000001)))
        with (mkFraction 1 1000001).
      rewrite limit_denominator_large. cbn [result_bind].
      change (getitem [PyInt 0] 0) with (Ok (PyInt 0)). cbn [result_bind].
      replace (limit_denominator (Fraction_of (PyInt 0))) with (Ok (mkFraction 0 1))
        by (vm_compute; reflexivity).
      reflexivity. }
    unfold build_matrix, range. cbn [Nat.sub seq for_in].
    rewrite (bind_lift _ _ _ Hrow). reflexivity.
  - unfold value, Qeq. cbn. lia.
Qed.

(** C7, as the code has it. Matrix construction stores, for every caller
    value [v], the fraction [Fraction(v).limit_denominator()]: it is in
    canonical lowest terms, its denominator is at most 1000000, it is the
    exact value of [v] whenever that value has a denominator of at most
    1000000, and in every other case it is a fraction with such a denominator
    that is at least as close to the exact value of [v] as any other. So an
    exact rational is kept unchanged only when its denominator does not
    exceed 1000000. *)
Theorem matrix_construction_limits_denominators
    (n_vars : nat) (coefficients : list (list pyvalue)) (constants : list pyvalue)
    (lg : list string) :
  input_ok n_vars coefficients constants ->
  exists matrix,
    build_matrix coefficients constants (length coefficients) lg = (Ok matrix, lg)
    /\ augmented coefficients constants matrix
    /\ rectangular (length coefficients) (n_vars + 1) matrix
    /\ forall v y, pyvalue_ok v -> coerced v y ->
         canonical y
         /\ denominator y <= max_denominator_default
         /\ (denominator (Fraction_of v) <= max_denominator_default -> y = Fraction_of v)
         /\ forall r : Q, Z.pos (Qden r) <= max_denominator_default ->
              (Qabs (value y - value (Fraction_of v))
               <= Qabs (r - value (Fraction_of v)))%Q.
Proof.
  intros Hin.
  destruct (build_matrix_run n_vars coefficients constants Hin lg)
    as (matrix & Hbuild & Haug).
  exists matrix. split; [exact Hbuild |]. split; [exact Haug |].
  split; [exact (augmented_rectangular n_vars coefficients constants Hin matrix Haug) |].
  intros v y Hv Hy.
  destruct (limit_denominator_spec (Fraction_of v) (Fraction_of_canonical v Hv))
    as (y' & Hrun & Hc & Hbound & Hsame & Hbest).
  unfold coerced in Hy. assert (y' = y) by congruence. subst y'. auto.
Qed.

Lemma matrix_construction_limits_denominators_witness :
  input_ok 2 [[PyInt 2; PyFloat 3602879701896397 (-55)]] [PyFraction (mkFraction 1 3)]
  /\ exists matrix,
       build_matrix [[PyInt 2; PyFloat 3602879701896397 (-55)]]
         [PyFraction (mkFraction 1 3)] 1 [] = (Ok matrix, [])
       /\ rectangular 1 3 matrix.
Proof.
  assert (Hin : input_ok 2 [[PyInt 2; PyFloat 3602879701896397 (-55)]]
                  [PyFraction (mkFraction 1 3)]).
  { split; [| split]; [| reflexivity |].
    - repeat constructor.
    - repeat constructor; reflexivity. }
  split; [exact Hin |].
  destruct (matrix_construction_limits_denominators 2 _ _ [] Hin)
    as (matrix & Hbuild & _ & Hrect & _).
  exists matrix. split; [exact Hbuild | exact Hrect].
Defined.

(** ** Invariants of the row operations (C9) *)



(** * Further properties of the solver *)

(** ** Fraction arithmetic is exact *)

Section Values.

Lemma normalize_cross (n d : Z) :
  d <> 0 ->
  numerator (normalize n d) * d = n * denominator (normalize n d).
Proof.
  intros Hd. unfold normalize. cbn [numerator denominator].
  set (g := Z.gcd n d).
  assert (Hgd : g <> 0) by (intros Hz; apply Z.gcd_eq_0_r in Hz; contradiction).
  destruct (Z.gcd_divide_l n d) as [n' Hn'], (Z.gcd_divide_r n d) as [d' Hd'].
  fold g in Hn', Hd'.
  destruct (Z.ltb_spec d 0).
  - assert (Hn2 : n / - g = - n').
    { replace n with (- n' * - g) by lia. apply Z.div_mul. lia. }
    assert (Hd2 : d / - g = - d').
    { replace d with (- d' * - g) by lia. apply Z.div_mul. lia. }
    rewrite Hn2, Hd2. nia.
  - assert (Hng : n / g = n') by (rewrite Hn'; apply Z.div_mul; assumption).
    assert (Hdg : d / g = d') by (rewrite Hd'; apply Z.div_mul; assumption).
    rewrite Hng, Hdg. nia.
Qed.

(** Equality of values, cross-multiplied. *)
Lemma value_eq_cross (y : Fraction) (n d : Z) :
  0 < denominator y -> 0 < d ->
  numerator y * d = n * denominator y ->
  (value y == Qmake n (Z.to_pos d))%Q.
Proof.
  intros Hy Hd H. unfold value, Qeq. cbn [Qnum Qden].
  rewrite !Z2Pos.id by lia. exact H.
Qed.

Lemma value_sub (a b : Fraction) :
  canonical a -> canonical b ->
  (value (Fraction_sub a b) == value a - value b)%Q.
Proof.
  intros [Ha _] [Hb _].
  assert (Hd : denominator a * denominator b <> 0) by nia.
  pose proof (normalize_canonical
                (numerator a * denominator b - numerator b * denominator a) _ Hd)
    as [Hy _].
  pose proof (normalize_cross
                (numerator a * denominator b - numerator b * denominator a) _ Hd) as Hc.
  fold (Fraction_sub a b) in Hy, Hc.
  unfold value at 2 3. unfold Qminus, Qplus, Qopp. cbn [Qnum Qden].
  rewrite !Z2Pos.id by lia.
  replace (Z.to_pos (denominator a) * Z.to_pos (denominator b))%positive
    with (Z.to_pos (denominator a * denominator b))
    by (rewrite Z2Pos.inj_mul by lia; reflexivity).
  apply value_eq_cross; [exact Hy | nia |].
  rewrite Hc. ring.
Qed.

Lemma value_mul (a b : Fraction) :
  canonical a -> canonical b ->
  (value (Fraction_mul a b) == value a * value b)%Q.
Proof.
  intros [Ha _] [Hb _].
  assert (Hd : denominator a * denominator b <> 0) by nia.
  pose proof (normalize_canonical (numerator a * numerator b) _ Hd) as [Hy _].
  pose proof (normalize_cross (numerator a * numerator b) _ Hd) as Hc.
  fold (Fraction_mul a b) in Hy, Hc.
  unfold value at 2 3. unfold Qmult. cbn [Qnum Qden].
  replace (Z.to_pos (denominator a) * Z.to_pos (denominator b))%positive
    with (Z.to_pos (denominator a * denominator b))
    by (rewrite Z2Pos.inj_mul by lia; reflexivity).
  apply value_eq_cross; [exact Hy | nia | exact Hc].
Qed.

(** The quotient, stated without an inverse: [(x / p) * p = x]. *)
Lemma value_div (x p y : Fraction) :
  canonical x -> canonical p -> Fraction_div x p = Ok y ->
  (value y * value p == value x)%Q.
Proof.
  intros [Hx _] [Hp _]. unfold Fraction_div, Fraction_new.
  destruct (Z.eqb_spec (denominator x * numerator p) 0) as [| Hd]; [discriminate |].
  intros [= <-].
  pose proof (normalize_canonical (numerator x * denominator p) _ Hd) as [Hy _].
  pose proof (normalize_cross (numerator x * denominator p) _ Hd) as Hc.
  set (y := normalize (numerator x * denominator p) (denominator x * numerator p)) in *.
  unfold value, Qeq, Qmult. cbn [Qnum Qden].
  rewrite Pos2Z.inj_mul, !Z2Pos.id by lia. nia.
Qed.

Lemma value_zero (x : Fraction) :
  Fraction_eq_int x 0 = true -> (value x == 0)%Q.
Proof.
  unfold Fraction_eq_int. intros [Hn Hd]%andb_true_iff.
  apply Z.eqb_eq in Hn. unfold value, Qeq. cbn. lia.
Qed.

Lemma value_nonzero (x : Fraction) :
  canonical x -> Fraction_eq_int x 0 = false -> ~ (value x == 0)%Q.
Proof.
  intros Hx Hnz Hv. apply (nonzero_numerator x Hx Hnz).
  unfold value, Qeq in Hv. cbn in Hv. lia.
Qed.

(** A canonical fraction is determined by its value. *)
Lemma value_inj (a b : Fraction) :
  canonical a -> canonical b -> (value a == value b)%Q -> a = b.
Proof.
  intros [Ha Hga] [Hb Hgb] Hv. unfold value, Qeq in Hv. cbn [Qnum Qden] in Hv.
  rewrite !Z2Pos.id in Hv by lia.
  assert (Hab : (denominator a | denominator b)).
  { apply Z.gauss with (m := numerator a).
    - exists (numerator b). lia.
    - rewrite Z.gcd_comm. exact Hga. }
  assert (Hba : (denominator b | denominator a)).
  { apply Z.gauss with (m := numerator b).
    - exists (numerator a). lia.
    - rewrite Z.gcd_comm. exact Hgb. }
  assert (Hd : denominator a = denominator b).
  { apply Z.divide_antisym_nonneg; auto; lia. }
  assert (Hn : numerator a = numerator b) by nia.
  destruct a, b; cbn in *; congruence.
Qed.

End Values.

(** ** Row operations and the solutions of the system *)

Section Linear.

Local Open Scope nat_scope.

Lemma getitem_last_cons {A : Type} (a : A) (l : list A) :
  l <> [] -> getitem_last (a :: l) = getitem_last l.
Proof.
  destruct l as [| b l]; [congruence |]. intros _. unfold getitem_last.
  cbn [length Nat.sub]. rewrite Nat.sub_0_r. reflexivity.
Qed.

(** With one value per coefficient column, the residual of a row is its
    left-hand side minus its constant. *)
Lemma residual_equation (xs : list Q) :
  forall row : list Fraction, length row = S (length xs) ->
  exists c, getitem_last row = Ok c
            /\ (residual xs row == dot (map value (removelast row)) xs - value c)%Q.
Proof.
  unfold residual. induction xs as [| x xs IH]; intros row Hlen.
  - destruct row as [| c [| ? ?]]; try discriminate.
    exists c. split; [reflexivity |]. cbn. ring.
  - destruct row as [| a row]; [discriminate |].
    assert (Hne : row <> []) by (destruct row; [discriminate | congruence]).
    destruct (IH row) as (c & Hc & Hres); [cbn in Hlen; lia |].
    exists c. rewrite (getitem_last_cons a row Hne). split; [exact Hc |].
    destruct row as [| b row]; [congruence |].
    change (removelast (a :: b :: row)) with (a :: removelast (b :: row)).
    cbn [map app dot]. rewrite Hres. ring.
Qed.

Lemma equation_holds_residual (xs : list Q) (row : list Fraction) :
  length row = S (length xs) ->
  equation_holds xs row <-> (residual xs row == 0)%Q.
Proof.
  intros Hlen. destruct (residual_equation xs row Hlen) as (c & Hc & Hres).
  unfold equation_holds. rewrite Hc, Hres. split; intros H.
  - rewrite H. ring.
  - rewrite <- (Qplus_0_l (value c)), <- H. ring.
Qed.

(** The residual of [row_r - factor * row_p]. *)
Lemma dot_subtract (factor : Fraction) :
  canonical factor ->
  forall (row_r row_p new_row : list Fraction) (ys : list Q),
  length row_p = length row_r -> length new_row = length row_r ->
  Forall canonical row_r -> Forall canonical row_p ->
  (forall j a b, row_r !! j = Some a -> row_p !! j = Some b ->
     new_row !! j = Some (Fraction_sub a (Fraction_mul factor b))) ->
  (dot (map value new_row) ys
   == dot (map value row_r) ys - value factor * dot (map value row_p) ys)%Q.
Proof.
  intros Hf row_r.
  induction row_r as [| a row_r IH]; intros row_p new_row ys Hlp Hln Hcr Hcp Hnew.
  - destruct new_row; [| discriminate]. destruct row_p; [| discriminate]. cbn. ring.
  - destruct row_p as [| b row_p]; [discriminate |].
    destruct new_row as [| y new_row]; [discriminate |].
    inversion Hcr as [| ? ? Ha Hcr']; subst. inversion Hcp as [| ? ? Hb Hcp']; subst.
    pose proof (Hnew 0 a b eq_refl eq_refl) as Hy. injection Hy as ->.
    destruct ys as [| x ys]; [cbn; ring |].
    cbn [map dot].
    rewrite (IH row_p new_row ys); try (cbn in *; lia); auto.
    + rewrite value_sub, value_mul; auto using Fraction_mul_canonical. ring.
    + intros j a' b' Ha' Hb'. exact (Hnew (S j) a' b' Ha' Hb').
Qed.

(** The residual of [row / pivot_val], stated without an inverse. *)
Lemma dot_scale (pivot_val : Fraction) :
  canonical pivot_val ->
  forall (row new_row : list Fraction) (ys : list Q),
  Forall canonical row ->
  Forall2 (fun x y => Fraction_div x pivot_val = Ok y) row new_row ->
  (dot (map value new_row) ys * value pivot_val == dot (map value row) ys)%Q.
Proof.
  intros Hp row new_row ys Hrow Hdiv. revert ys.
  induction Hdiv as [| x y row new_row Hxy _ IH]; intros ys; [cbn; ring |].
  inversion Hrow as [| ? ? Hx Hrow']; subst.
  destruct ys as [| z ys]; [cbn; ring |].
  cbn [map dot]. rewrite <- (IH Hrow' ys), <- (value_div x pivot_val y Hx Hp Hxy). ring.
Qed.

(** Replacing one row by a row whose equation follows from the old
    equations, and from which (with the other rows) the old equation follows,
    keeps the solutions. *)
Lemma Forall_replace_row {A : Type} (P : A -> Prop) (l : list A) (r : nat) (old new : A) :
  l !! r = Some old ->
  (Forall P l -> P new) ->
  (Forall P (<[r := new]> l) -> P old) ->
  Forall P (<[r := new]> l) <-> Forall P l.
Proof.
  intros Hold Hnew Hback.
  assert (Hr : r < length l) by (eapply lookup_lt_Some; eauto).
  split; intros H; apply Forall_lookup_2; intros i x Hi.
  - destruct (Nat.eq_dec i r) as [-> | Hne].
    + assert (x = old) by congruence. subst x. now apply Hback.
    + apply (Forall_lookup_1 _ _ i x H).
      rewrite list_lookup_insert_ne by lia. exact Hi.
  - destruct (Nat.eq_dec i r) as [-> | Hne].
    + rewrite list_lookup_insert_eq in Hi by exact Hr. injection Hi as <-. now apply Hnew.
    + rewrite list_lookup_insert_ne in Hi by lia.
      eapply Forall_lookup_1; [exact H | exact Hi].
Qed.

Variables rows n_vars : nat.

Lemma row_subtract_solutions (matrix : Matrix) (r p : nat) (factor : Fraction) :
  rectangular rows (n_vars + 1) matrix -> r < rows -> p < rows -> r <> p ->
  canonical factor ->
  exists row_r row_p new_row,
    matrix !! r = Some row_r /\ matrix !! p = Some row_p
    /\ row_subtract matrix r p factor (n_vars + 1) = Ok (<[r := new_row]> matrix)
    /\ rectangular rows (n_vars + 1) (<[r := new_row]> matrix)
    /\ same_solutions n_vars matrix (<[r := new_row]> matrix)
    /\ forall j a b, row_r !! j = Some a -> row_p !! j = Some b ->
         new_row !! j = Some (Fraction_sub a (Fraction_mul factor b)).
Proof.
  intros Hm Hr Hp Hrp Hf.
  destruct (row_subtract_ok rows (n_vars + 1) matrix r p factor Hm Hr Hp Hf)
    as (row_r & row_p & new_row & Hrow_r & Hrow_p & Hrun & Hrect & Hnew).
  exists row_r, row_p, new_row.
  split; [exact Hrow_r |]. split; [exact Hrow_p |]. split; [exact Hrun |].
  split; [exact Hrect |]. split; [| exact Hnew].
  pose proof Hm as [Hlm Hrows].
  pose proof (Forall_lookup_1 _ _ _ _ Hrows Hrow_r) as [Hlr Hcr].
  pose proof (Forall_lookup_1 _ _ _ _ Hrows Hrow_p) as [Hlp Hcp].
  assert (Hnr : <[r := new_row]> matrix !! r = Some new_row)
    by (apply list_lookup_insert_eq; lia).
  assert (Hnp : <[r := new_row]> matrix !! p = Some row_p)
    by (rewrite list_lookup_insert_ne by lia; exact Hrow_p).
  assert (Hln : length new_row = n_vars + 1)
    by (destruct Hrect as [_ Hrows']; exact (proj1 (Forall_lookup_1 _ _ _ _ Hrows' Hnr))).
  assert (Hres : forall xs,
            (residual xs new_row
             == residual xs row_r - value factor * residual xs row_p)%Q).
  { intros xs. unfold residual. apply dot_subtract; auto; lia. }
  assert (Hiff : forall xs, length xs = n_vars ->
            Forall (equation_holds xs) (<[r := new_row]> matrix)
            <-> Forall (equation_holds xs) matrix).
  { intros xs Hxs. apply (Forall_replace_row _ matrix r row_r new_row Hrow_r).
    - intros Hold.
      pose proof (Forall_lookup_1 _ _ _ _ Hold Hrow_r) as Her.
      pose proof (Forall_lookup_1 _ _ _ _ Hold Hrow_p) as Hep.
      apply equation_holds_residual in Her; [| lia].
      apply equation_holds_residual in Hep; [| lia].
      apply equation_holds_residual; [lia |].
      rewrite Hres, Her, Hep. ring.
    - intros Hnew'.
      pose proof (Forall_lookup_1 _ _ _ _ Hnew' Hnr) as Hen.
      pose proof (Forall_lookup_1 _ _ _ _ Hnew' Hnp) as Hep.
      apply equation_holds_residual in Hen; [| lia].
      apply equation_holds_residual in Hep; [| lia].
      apply equation_holds_residual; [lia |].
      rewrite Hres, Hep in Hen. rewrite <- Hen. ring. }
  intros xs. unfold solution. split; intros [Hxs Hall]; (split; [exact Hxs |]).
  - now apply Hiff.
  - now apply Hiff in Hall.
Qed.

Lemma row_scale_solutions (matrix : Matrix) (r : nat) (pivot_val : Fraction) :
  rectangular rows (n_vars + 1) matrix -> r < rows ->
  canonical pivot_val -> Fraction_eq_int pivot_val 0 = false ->
  exists row new_row,
    matrix !! r = Some row
    /\ row_scale matrix r pivot_val = Ok (<[r := new_row]> matrix)
    /\ rectangular rows (n_vars + 1) (<[r := new_row]> matrix)
    /\ same_solutions n_vars matrix (<[r := new_row]> matrix)
    /\ Forall2 (fun x y => Fraction_div x pivot_val = Ok y) row new_row.
Proof.
  intros Hm Hr Hp Hnz.
  destruct (row_scale_ok rows (n_vars + 1) matrix r pivot_val Hm Hr Hp Hnz)
    as (row & new_row & Hrow & Hrun & Hrect & Hnew).
  pose proof Hm as [Hlm Hrows].
  pose proof (Forall_lookup_1 _ _ _ _ Hrows Hrow) as [Hlr Hcr].
  assert (Hnr : <[r := new_row]> matrix !! r = Some new_row)
    by (apply list_lookup_insert_eq; lia).
  assert (Hln : length new_row = n_vars + 1)
    by (destruct Hrect as [_ Hrows']; exact (proj1 (Forall_lookup_1 _ _ _ _ Hrows' Hnr))).
  assert (Hdiv : Forall2 (fun x y => Fraction_div x pivot_val = Ok y) row new_row).
  { apply Forall2_same_length_lookup_2; [lia |].
    intros j x y Hx Hy. destruct (Hnew j x Hx) as (y' & Hy' & Hxy). congruence. }
  exists row, new_row. split; [exact Hrow |]. split; [exact Hrun |].
  split; [exact Hrect |]. split; [| exact Hdiv].
  assert (Hres : forall xs,
            (residual xs new_row * value pivot_val == residual xs row)%Q).
  { intros xs. unfold residual. now apply dot_scale. }
  pose proof (value_nonzero pivot_val Hp Hnz) as Hpv.
  assert (Hiff : forall xs, length xs = n_vars ->
            Forall (equation_holds xs) (<[r := new_row]> matrix)
            <-> Forall (equation_holds xs) matrix).
  { intros xs Hxs. apply (Forall_replace_row _ matrix r row new_row Hrow).
    - intros Hold.
      pose proof (Forall_lookup_1 _ _ _ _ Hold Hrow) as Her.
      apply equation_holds_residual in Her; [| lia].
      apply equation_holds_residual; [lia |].
      rewrite <- Hres in Her. apply Qmult_integral in Her.
      destruct Her as [Her | Her]; [exact Her | contradiction].
    - intros Hnew'.
      pose proof (Forall_lookup_1 _ _ _ _ Hnew' Hnr) as Hen.
      apply equation_holds_residual in Hen; [| lia].
      apply equation_holds_residual; [lia |].
      rewrite <- Hres, Hen. ring. }
  intros xs. unfold solution. split; intros [Hxs Hall]; (split; [exact Hxs |]).
  - now apply Hiff.
  - now apply Hiff in Hall.
Qed.

Lemma same_solutions_refl (matrix : Matrix) : same_solutions n_vars matrix matrix.
Proof. intros xs. reflexivity. Qed.

Lemma same_solutions_trans (m1 m2 m3 : Matrix) :
  same_solutions n_vars m1 m2 -> same_solutions n_vars m2 m3 ->
  same_solutions n_vars m1 m3.
Proof. intros H12 H23 xs. rewrite (H12 xs). apply H23. Qed.

End Linear.

(** ** The log is only appended to *)

Section Frame.

Lemma framed_ret {A : Type} (a : A) : framed (ret a).
Proof. intros lg. cbn. now rewrite app_nil_r. Qed.

Lemma framed_lift {A : Type} (r : result A) : framed (lift r).
Proof. intros lg. cbn. now rewrite app_nil_r. Qed.

Lemma framed_log (message : string) : framed (log message).
Proof. intros lg. reflexivity. Qed.

Lemma framed_bind {A B : Type} (c : M A) (k : A -> M B) :
  framed c -> (forall a, framed (k a)) -> framed (bind c k).
Proof.
  intros Hc Hk lg. unfold bind. rewrite (Hc lg).
  destruct (c []) as [[a | e] l1]; cbn [fst snd].
  - rewrite (Hk a (lg ++ l1)), (Hk a l1). cbn [fst snd]. now rewrite app_assoc.
  - reflexivity.
Qed.

Lemma framed_for_in {A S : Type} (l : list A) (body : A -> S -> M (flow S)) :
  (forall x s, framed (body x s)) -> forall s, framed (for_in l body s).
Proof.
  intros Hbody. induction l as [| x l IH]; intros s; cbn [for_in].
  - apply framed_ret.
  - apply framed_bind; [apply Hbody |].
    intros [s' | s']; [apply IH | apply framed_ret].
Qed.

End Frame.

Ltac framed_step :=
  first
    [ apply framed_ret
    | apply framed_lift
    | apply framed_log
    | apply framed_for_in; intros
    | apply framed_bind; [| intros]
    | match goal with
      | |- framed (if ?b then _ else _) => destruct b
      | |- framed (match ?x with _ => _ end) => destruct x
      | |- framed (let '(_, _) := ?x in _) => destruct x
      end ].

Lemma framed_print_matrix (matrix : Matrix) (title : string) :
  framed (print_matrix matrix title).
Proof. unfold print_matrix. repeat framed_step. Qed.

Lemma framed_clear_entry (cols col p r : nat) (matrix : Matrix) :
  framed (clear_entry cols col p r matrix).
Proof.
  unfold clear_entry. repeat (framed_step || apply framed_print_matrix).
Qed.


Lemma framed_phase1 (rows cols n_vars : nat) (matrix : Matrix) :
  framed (phase1 rows cols n_vars matrix).
Proof.
  unfold phase1, phase1_body.
  repeat (framed_step || apply framed_print_matrix || apply framed_clear_entry).
Qed.

Lemma framed_phase2 (rows cols n_vars : nat) (matrix : Matrix) :
  framed (phase2 rows cols n_vars matrix).
Proof.
  unfold phase2, phase2_body, find_pivot_col.
  repeat (framed_step || apply framed_clear_entry).
Qed.

Lemma framed_classify (rows : nat) (matrix : Matrix) : framed (classify rows matrix).
Proof.
  unfold classify. apply framed_bind.
  - apply framed_for_in. intros i st. unfold classify_body. repeat framed_step.
  - intros [[| x solutions] |]; [apply framed_log | | apply framed_ret].
    apply framed_for_in. intros [idx val] u. repeat framed_step.
Qed.

Lemma framed_build_matrix (coefficients : list (list pyvalue))
    (constants : list pyvalue) (rows : nat) :
  framed (build_matrix coefficients constants rows).
Proof. unfold build_matrix. repeat framed_step. Qed.

Lemma framed_solve (coefficients : list (list pyvalue)) (constants : list pyvalue) :
  framed (solve coefficients constants).
Proof.
  unfold solve. cbv zeta.
  repeat (apply framed_print_matrix || apply framed_phase1 || apply framed_phase2
          || apply framed_classify || apply framed_build_matrix || framed_step).
Qed.

(** ** What one elimination step does to the entries *)

Section Elimination.

Local Open Scope nat_scope.

Lemma entry_value_row (m m' : Matrix) (r c : nat) :
  m' !! r = m !! r -> entry_value m' r c = entry_value m r c.
Proof. intros H. unfold entry_value. now rewrite H. Qed.

Lemma entry_value_lookup (m : Matrix) (r c : nat) (row : list Fraction) (x : Fraction) :
  m !! r = Some row -> row !! c = Some x -> entry_value m r c = value x.
Proof. intros Hr Hc. unfold entry_value. now rewrite Hr, Hc. Qed.

Lemma eq_int_value (x : Fraction) (k : Z) :
  canonical x -> (Fraction_eq_int x k = true <-> (value x == inject_Z k)%Q).
Proof.
  intros [Hd Hg]. unfold Fraction_eq_int, value, Qeq, inject_Z. cbn [Qnum Qden].
  rewrite andb_true_iff, !Z.eqb_eq, Z2Pos.id by lia. split.
  - intros [-> ->]. lia.
  - intros H. rewrite Z.mul_1_r in H.
    assert (Hdiv : (denominator x | 1)%Z).
    { rewrite <- Hg. apply Z.gcd_greatest; [| apply Z.divide_refl].
      exists k. lia. }
    apply Z.divide_1_r_nonneg in Hdiv; [| lia]. rewrite Hdiv in H. lia.
Qed.

Variables rows n_vars : nat.
Local Abbreviation cols := (n_vars + 1).


(** Clearing the entry of row [r] in column [col] with a pivot row [p]
    whose entry in that column is 1: row [r] becomes
    [row_r - row_r[col] * row_p], the other rows stay. *)
Lemma clear_entry_post (col p r : nat) (m : Matrix) :
  rectangular rows cols m -> r < rows -> p < rows -> r <> p -> col < cols ->
  returns (clear_entry cols col p r m)
    (fun f => exists m',
       f = Next m' /\ rectangular rows cols m' /\ same_solutions n_vars m m'
       /\ (forall r', r' <> r -> m' !! r' = m !! r')
       /\ forall j, (entry_value m' r j
                     == entry_value m r j - entry_value m r col * entry_value m p j)%Q).
Proof.
  intros Hm Hr Hp Hrp Hcol. unfold clear_entry.
  destruct (rectangular_row rows cols m r Hm Hr) as (row_r & Hrow_r & Hget & Hlen & Hall).
  destruct (row_entry row_r col Hall) as (factor & Hfac & Hgf & Hcf); [lia |].
  rewrite (bind_lift _ _ _ Hget), (bind_lift _ _ _ Hgf).
  pose proof (entry_value_lookup m r col row_r factor Hrow_r Hfac) as Hphi.
  destruct (Fraction_eq_int factor 0) eqn:Hz; cbn [negb].
  - apply returns_ret. exists m. split; [reflexivity |]. split; [exact Hm |].
    split; [apply same_solutions_refl |]. split; [reflexivity |].
    intros j. rewrite Hphi, (value_zero factor Hz). ring.
  - destruct (row_subtract_solutions rows n_vars m r p factor Hm Hr Hp Hrp Hcf)
      as (row_r' & row_p & new_row & Hrow_r' & Hrow_p & Hsub & Hrect & Hsame & Hnew).
    assert (row_r' = row_r) by congruence. subst row_r'.
    eapply returns_bind; [apply returns_log | intros _ _].
    rewrite (bind_lift _ _ _ Hsub).
    eapply returns_bind; [apply returns_print_matrix | intros _ _].
    apply returns_ret. exists (<[r := new_row]> m).
    split; [reflexivity |]. split; [exact Hrect |]. split; [exact Hsame |].
    split; [intros r' Hr'; apply list_lookup_insert_ne; congruence |].
    intros j. rewrite Hphi.
    pose proof Hm as [Hlm Hrows].
    pose proof (Forall_lookup_1 _ _ _ _ Hrows Hrow_p) as [Hlp Hcp].
    assert (Hnr : <[r := new_row]> m !! r = Some new_row)
      by (apply list_lookup_insert_eq; lia).
    assert (Hln : length new_row = cols)
      by (destruct Hrect as [_ Hrows']; exact (proj1 (Forall_lookup_1 _ _ _ _ Hrows' Hnr))).
    unfold entry_value. rewrite Hnr, Hrow_r, Hrow_p.
    destruct (row_r !! j) as [a |] eqn:Ha.
    + destruct (lookup_lt_is_Some_2 row_p j) as [b Hb];
        [apply lookup_lt_Some in Ha; lia |].
      rewrite Hb, (Hnew j a b Ha Hb).
      pose proof (Forall_lookup_1 _ _ _ _ Hall Ha) as Hca.
      pose proof (Forall_lookup_1 _ _ _ _ Hcp Hb) as Hcb.
      rewrite value_sub, value_mul; auto using Fraction_mul_canonical. ring.
    + apply lookup_ge_None in Ha.
      rewrite (proj2 (lookup_ge_None new_row j)) by lia.
      rewrite (proj2 (lookup_ge_None row_p j)) by lia. ring.
Qed.

(** The inner loop, over distinct rows other than the pivot row. *)
Lemma clear_loop_post (col p : nat) (l : list nat) :
  NoDup l -> (forall r, In r l -> r < rows /\ r <> p) -> p < rows -> col < cols ->
  forall m, rectangular rows cols m ->
  returns (for_in l (clear_entry cols col p) m)
    (fun m' =>
       rectangular rows cols m' /\ same_solutions n_vars m m'
       /\ (forall r, ~ In r l -> m' !! r = m !! r)
       /\ forall r j, In r l ->
            (entry_value m' r j
             == entry_value m r j - entry_value m r col * entry_value m p j)%Q).
Proof.
  intros Hnd Hl Hp Hcol. induction l as [| r l IH]; intros m Hm; cbn [for_in].
  - apply returns_ret. split; [exact Hm |]. split; [apply same_solutions_refl |].
    split; [reflexivity |]. intros r j [].
  - inversion Hnd as [| ? ? Hrl Hnd']; subst.
    rewrite list_elem_of_In in Hrl.
    destruct (Hl r (or_introl eq_refl)) as [Hr Hrp].
    eapply returns_bind;
      [exact (clear_entry_post col p r m Hm Hr Hp Hrp Hcol) |].
    intros f (m1 & -> & Hm1 & Hs1 & Hother & Hrow).
    eapply returns_weaken.
    + apply IH; [exact Hnd' | | exact Hm1]. intros r' Hr'. apply Hl. now right.
    + cbn beta. intros m' (Hm' & Hs' & Hout & Hin).
      split; [exact Hm' |].
      split; [exact (same_solutions_trans n_vars m m1 m' Hs1 Hs') |].
      split.
      * intros r' Hr'. rewrite Hout by (intros H; apply Hr'; now right).
        apply Hother. intros ->. apply Hr'. now left.
      * intros r' j [Heq | Hr'].
        -- subst r'. rewrite (entry_value_row m1 m' r j (Hout r Hrl)). apply Hrow.
        -- assert (Hne : r' <> r) by (intros ->; contradiction).
           rewrite (Hin r' j Hr').
           rewrite !(entry_value_row m m1 r') by (now apply Hother).
           rewrite (entry_value_row m m1 p) by (apply Hother; congruence).
           reflexivity.
Qed.

(** A Phase 1 column with a non-zero pivot entry: the pivot row is divided
    by the pivot, every row below loses its multiple of the new pivot row,
    the rows above stay, and the solution set is kept. *)
Lemma phase1_body_post (col pivot_row : nat) (m : Matrix) :
  rectangular rows cols m -> col < cols -> pivot_row < rows ->
  ~ (entry_value m pivot_row col == 0)%Q ->
  returns (phase1_body rows cols col (m, pivot_row))
    (fun f => exists m',
       f = Next (m', pivot_row + 1) /\ rectangular rows cols m'
       /\ same_solutions n_vars m m'
       /\ (forall r, r < pivot_row -> m' !! r = m !! r)
       /\ (forall j, (entry_value m' pivot_row j * entry_value m pivot_row col
                      == entry_value m pivot_row j)%Q)
       /\ forall r j, pivot_row < r < rows ->
            (entry_value m' r j
             == entry_value m r j - entry_value m r col * entry_value m' pivot_row j)%Q).
Proof.
  intros Hm Hcol Hp Hnz.
  destruct (rectangular_row rows cols m pivot_row Hm Hp) as (row_p & Hrow & Hget & Hlen & Hall).
  destruct (row_entry row_p col Hall) as (pivot_val & Hval & Hgv & Hcv); [lia |].
  pose proof (entry_value_lookup m pivot_row col row_p pivot_val Hrow Hval) as Hpv.
  assert (Hz : Fraction_eq_int pivot_val 0 = false).
  { destruct (Fraction_eq_int pivot_val 0) eqn:Hz; [| reflexivity].
    exfalso. apply Hnz. rewrite Hpv. now apply value_zero. }
  unfold phase1_body.
  destruct (Nat.leb_spec rows pivot_row); [lia |].
  rewrite (bind_lift _ _ _ Hget), (bind_lift _ _ _ Hgv), Hz.
  eapply returns_bind with
    (P := fun m1 => rectangular rows cols m1 /\ same_solutions n_vars m m1
                    /\ (forall r, r <> pivot_row -> m1 !! r = m !! r)
                    /\ forall j, (entry_value m1 pivot_row j * value pivot_val
                                  == entry_value m pivot_row j)%Q).
  - destruct (Fraction_eq_int pivot_val 1) eqn:Hone; cbn [negb].
    + apply returns_ret. split; [exact Hm |]. split; [apply same_solutions_refl |].
      split; [reflexivity |]. intros j.
      apply (eq_int_value pivot_val 1 Hcv) in Hone. rewrite Hone. ring.
    + destruct (row_scale_solutions rows n_vars m pivot_row pivot_val Hm Hp Hcv Hz)
        as (row & new_row & Hrow' & Hscale & Hrect & Hsame & Hdiv).
      assert (row = row_p) by congruence. subst row.
      eapply returns_bind; [apply returns_log | intros _ _].
      rewrite (bind_lift _ _ _ Hscale).
      eapply returns_bind; [apply returns_print_matrix | intros _ _].
      apply returns_ret. split; [exact Hrect |]. split; [exact Hsame |].
      split; [intros r Hr; apply list_lookup_insert_ne; congruence |].
      intros j. destruct Hm as [Hlm _].
      unfold entry_value.
      rewrite list_lookup_insert_eq by lia. rewrite Hrow.
      destruct (row_p !! j) as [x |] eqn:Hx.
      * destruct (Forall2_lookup_l _ _ _ j x Hdiv Hx) as (y & Hy & Hxy).
        rewrite Hy. apply (value_div x pivot_val y); auto.
        exact (Forall_lookup_1 _ _ _ _ Hall Hx).
      * apply lookup_ge_None in Hx.
        rewrite (proj2 (lookup_ge_None new_row j))
          by (rewrite <- (Forall2_length _ _ _ Hdiv); exact Hx).
        ring.
  - intros m1 (Hm1 & Hs1 & Hother1 & Hscaled).
    assert (Hone : (entry_value m1 pivot_row col == 1)%Q).
    { pose proof (Hscaled col) as H1. rewrite Hpv in H1.
      apply (Qmult_inj_r _ _ (value pivot_val)); [now rewrite <- Hpv |].
      rewrite H1. ring. }
    eapply returns_bind.
    + apply (clear_loop_post col pivot_row (range (pivot_row + 1) rows)).
      * apply NoDup_seq.
      * intros r Hr. apply in_range in Hr. lia.
      * exact Hp.
      * exact Hcol.
      * exact Hm1.
    + cbn beta. intros m2 (Hm2 & Hs2 & Hout & Hin). apply returns_ret.
      exists m2. split; [reflexivity |]. split; [exact Hm2 |].
      split; [exact (same_solutions_trans n_vars m m1 m2 Hs1 Hs2) |].
      assert (Hrowp : m2 !! pivot_row = m1 !! pivot_row).
      { apply Hout. rewrite in_range. lia. }
      split.
      { intros r Hr. rewrite Hout by (rewrite in_range; lia).
        apply Hother1. lia. }
      split.
      { intros j. rewrite (entry_value_row m1 m2 pivot_row j Hrowp), Hpv.
        apply Hscaled. }
      intros r j Hr.
      rewrite (Hin r j) by (rewrite in_range; lia).
      rewrite !(entry_value_row m m1 r) by (apply Hother1; lia).
      rewrite (entry_value_row m1 m2 pivot_row j Hrowp). reflexivity.
Qed.

(** Phase 1 as a whole keeps the solution set. *)
Lemma phase1_solutions (m : Matrix) :
  rectangular rows cols m ->
  returns (phase1 rows cols n_vars m)
    (fun st => rectangular rows cols (fst st) /\ same_solutions n_vars m (fst st)).
Proof.
  intros Hm. unfold phase1.
  apply returns_for_in with
    (Inv := fun st => rectangular rows cols (fst st) /\ same_solutions n_vars m (fst st)).
  - split; [exact Hm | apply same_solutions_refl].
  - intros col [m0 pivot_row] Hcol [Hm0 Hs0]. cbn [fst] in *.
    apply in_range in Hcol.
    destruct (Nat.leb_spec rows pivot_row) as [Hge | Hlt].
    + unfold phase1_body. destruct (Nat.leb_spec rows pivot_row); [| lia].
      apply returns_ret. now split.
    + destruct (rectangular_row rows cols m0 pivot_row Hm0 Hlt)
        as (row_p & Hrow & _ & Hlen & Hall).
      destruct (row_entry row_p col Hall) as (pivot_val & Hval & _ & Hcv); [lia |].
      destruct (Fraction_eq_int pivot_val 0) eqn:Hz.
      * intros lg. rewrite (phase1_body_zero _ _ _ _ _ _ _ _ Hlt Hrow Hval Hz).
        eexists _, _. split; [reflexivity |]. now split.
      * eapply returns_weaken.
        -- apply phase1_body_post; [exact Hm0 | lia | exact Hlt |].
           rewrite (entry_value_lookup m0 pivot_row col row_p pivot_val Hrow Hval).
           now apply value_nonzero.
        -- cbn beta. intros f (m' & -> & Hm' & Hs' & _). cbn [flow_state fst].
           split; [exact Hm' |].
           exact (same_solutions_trans n_vars m m0 m' Hs0 Hs').
Qed.

(** One row of Phase 2: with [pc] the leftmost coefficient column of row
    [i] holding exactly 1, every row above loses its multiple of row [i];
    row [i] and the rows below stay. Without such a column nothing
    changes. The solution set is kept. *)
Lemma phase2_body_post (i : nat) (m : Matrix) :
  rectangular rows cols m -> i < rows ->
  returns (phase2_body cols n_vars i m)
    (fun f => exists m',
       f = Next m' /\ rectangular rows cols m' /\ same_solutions n_vars m m'
       /\ (forall r, i <= r -> m' !! r = m !! r)
       /\ ((m' = m /\ forall c, c < n_vars -> ~ entry_is m i c 1)
           \/ exists pc, pc < n_vars /\ entry_is m i pc 1
                /\ (forall c, c < pc -> ~ entry_is m i c 1)
                /\ forall r j, r < i ->
                     (entry_value m' r j
                      == entry_value m r j - entry_value m r pc * entry_value m i j)%Q)).
Proof.
  intros Hm Hi lg.
  destruct (rectangular_row rows cols m i Hm Hi) as (row & Hrow & _ & Hlen & _).
  destruct (find_pivot_col_spec m i n_vars row lg Hrow) as (pc & Hrun & Hpc); [lia |].
  unfold phase2_body. rewrite (bind_Ok _ _ _ _ _ Hrun).
  destruct pc as [c |].
  - destruct Hpc as (Hc & (x & Hx & Hone) & Hbefore).
    revert lg Hrun. intros lg _.
    eapply returns_bind.
    + apply (clear_loop_post c i (range_down i)).
      * unfold range_down. apply NoDup_ListNoDup, List.NoDup_rev, seq_NoDup.
      * intros r Hr. apply in_range_down in Hr. lia.
      * exact Hi.
      * lia.
      * exact Hm.
    + cbn beta. intros m' (Hm' & Hs' & Hout & Hin). apply returns_ret.
      exists m'. split; [reflexivity |]. split; [exact Hm' |]. split; [exact Hs' |].
      split; [intros r Hr; apply Hout; rewrite in_range_down; lia |].
      right. exists c. split; [exact Hc |].
      split; [exists row, x; auto |].
      split.
      * intros c' Hc' (row' & y & Hrow' & Hy & Hy1).
        assert (row' = row) by congruence. subst row'.
        rewrite (Hbefore c' y Hc' Hy) in Hy1. discriminate.
      * intros r j Hr. apply Hin. rewrite in_range_down. exact Hr.
  - eexists _, _. split; [reflexivity |].
    exists m. split; [reflexivity |]. split; [exact Hm |].
    split; [apply same_solutions_refl |]. split; [reflexivity |].
    left. split; [reflexivity |].
    intros c Hc (row' & y & Hrow' & Hy & Hy1).
    assert (row' = row) by congruence. subst row'.
    rewrite (Hpc c y Hc Hy) in Hy1. discriminate.
Qed.

(** Phase 2 as a whole keeps the solution set. *)
Lemma phase2_solutions (m : Matrix) :
  rectangular rows cols m ->
  returns (phase2 rows cols n_vars m)
    (fun m' => rectangular rows cols m' /\ same_solutions n_vars m m').
Proof.
  intros Hm. unfold phase2.
  apply returns_for_in with
    (Inv := fun m' => rectangular rows cols m' /\ same_solutions n_vars m m').
  - split; [exact Hm | apply same_solutions_refl].
  - intros i m0 Hi [Hm0 Hs0]. apply in_range_down in Hi.
    eapply returns_weaken; [apply phase2_body_post; [exact Hm0 | exact Hi] |].
    cbn beta. intros f (m' & -> & Hm' & Hs' & _). cbn [flow_state].
    split; [exact Hm' |]. exact (same_solutions_trans n_vars m m0 m' Hs0 Hs').
Qed.

End Elimination.

(** ** The shape of a run of [solve] *)

Section Structure.

Local Open Scope nat_scope.

Lemma framed_run {A : Type} (c : M A) (r : result A) (added lg : list string) :
  framed c -> c [] = (r, added) -> c lg = (r, lg ++ added).
Proof. intros Hc Hrun. rewrite (Hc lg), Hrun. reflexivity. Qed.


Lemma classify_verdict (matrix : Matrix) (lg : list string) :
  classify (length matrix) matrix lg
  = match scan_rows matrix [] with
    | Raise e => (Raise e, lg)
    | Ok verdict => (Ok tt, lg ++ verdict_lines verdict)
    end.
Proof.
  rewrite classify_run.
  destruct (scan_rows matrix []) as [[[| x solutions] |] | e]; reflexivity.
Qed.

Variable n_vars : nat.
Variable coefficients : list (list pyvalue).
Variable constants : list pyvalue.
Hypothesis input : input_ok n_vars coefficients constants.

Lemma built_matrix (m : Matrix) :
  build_matrix coefficients constants (length coefficients) [] = (Ok m, []) ->
  rectangular (length coefficients) (n_vars + 1) m
  /\ augmented coefficients constants m.
Proof using input.
  intros Hrun.
  destruct (build_matrix_run n_vars coefficients constants input []) as (m' & Hrun' & Haug).
  assert (m' = m) by congruence. subst m'.
  split; [| exact Haug].
  exact (augmented_rectangular n_vars coefficients constants input m Haug).
Qed.

(** A run of [solve] on a well-formed input: the matrix is built, the two
    phases run on it, and the final loop reads the result. *)
Lemma solve_run (m : Matrix) (lg : list string) :
  coefficients <> [] ->
  build_matrix coefficients constants (length coefficients) [] = (Ok m, []) ->
  exists m1 pivot_row m2 ops1 ops2 verdict,
    phase1 (length coefficients) (n_vars + 1) n_vars m [] = (Ok (m1, pivot_row), ops1)
    /\ phase2 (length coefficients) (n_vars + 1) n_vars m1 [] = (Ok m2, ops2)
    /\ rectangular (length coefficients) (n_vars + 1) m1
    /\ rectangular (length coefficients) (n_vars + 1) m2
    /\ same_solutions n_vars m m1
    /\ same_solutions n_vars m m2
    /\ scan_rows m2 [] = Ok verdict
    /\ solve coefficients constants lg
       = (Ok tt, lg ++ opening_lines m ++ ops1 ++ between_phases ++ ops2
                    ++ closing_lines ++ verdict_lines verdict).
Proof using input.
  intros Hne Hbuild.
  destruct (built_matrix m Hbuild) as [Hrect _].
  assert (Hrows : 0 < length coefficients)
    by (destruct coefficients; [congruence | cbn; lia]).
  destruct (phase1_solutions (length coefficients) n_vars m Hrect [])
    as ([m1 pivot_row] & ops1 & Hrun1 & Hm1 & Hs1). cbn [fst] in *.
  destruct (phase2_solutions (length coefficients) n_vars m1 Hm1 [])
    as (m2 & ops2 & Hrun2 & Hm2 & Hs2).
  destruct (scan_rows_returns m2 []) as (verdict & Hscan).
  { destruct Hm2 as [_ Hall]. eapply Forall_impl; [exact Hall |].
    intros row [Hl _] ->. cbn in Hl. lia. }
  exists m1, pivot_row, m2, ops1, ops2, verdict.
  split; [exact Hrun1 |]. split; [exact Hrun2 |]. split; [exact Hm1 |].
  split; [exact Hm2 |]. split; [exact Hs1 |].
  split; [exact (same_solutions_trans n_vars m m1 m2 Hs1 Hs2) |].
  split; [exact Hscan |].
  unfold solve.
  destruct (Nat.eqb_spec (length coefficients) 0) as [Hz | _]; [lia |].
  rewrite (bind_Ok _ _ _ _ _
             (framed_run _ _ _ lg (framed_build_matrix _ _ _) Hbuild)).
  rewrite app_nil_r.
  destruct (rectangular_row _ _ m 0 Hrect Hrows) as (row_0 & _ & Hget & Hlen & _).
  rewrite (bind_lift _ _ _ Hget), Hlen.
  replace (n_vars + 1 - 1) with n_vars by lia.
  rewrite bind_log, bind_print_matrix, bind_log.
  rewrite (bind_Ok _ _ _ _ _ (framed_run _ _ _ _ (framed_phase1 _ _ _ _) Hrun1)).
  cbn [fst]. rewrite !bind_log.
  rewrite (bind_Ok _ _ _ _ _ (framed_run _ _ _ _ (framed_phase2 _ _ _ _) Hrun2)).
  rewrite !bind_log.
  destruct Hm2 as [Hlen2 _]. rewrite <- Hlen2 at 1.
  rewrite classify_verdict, Hscan.
  unfold opening_lines, between_phases, closing_lines.
  f_equal. rewrite <- !app_assoc. reflexivity.
Qed.

End Structure.

(** ** What the three verdicts say about the system *)

Section Verdicts.

Local Open Scope nat_scope.

Lemma forallb_true {A : Type} (f : A -> bool) (l : list A) :
  forallb f l = true <-> Forall (fun x => f x = true) l.
Proof.
  induction l as [| x l IH]; cbn [forallb].
  - split; [constructor | reflexivity].
  - rewrite andb_true_iff, IH. split.
    + intros [Hx Hl]. now constructor.
    + intros H. inversion H; subst. auto.
Qed.

Lemma getitem_last_snoc {A : Type} (l : list A) (x : A) :
  getitem_last (l ++ [x]) = Ok x.
Proof.
  unfold getitem_last. destruct (l ++ [x]) as [| y t] eqn:E.
  - destruct l; discriminate.
  - rewrite <- E, length_app. cbn [length]. unfold getitem.
    rewrite lookup_app_r by lia.
    replace (length l + 1 - 1 - length l) with 0 by lia. reflexivity.
Qed.

Lemma row_split (row : list Fraction) (n : nat) :
  length row = n + 1 ->
  exists coeffs c, row = coeffs ++ [c] /\ length coeffs = n.
Proof.
  intros Hlen.
  assert (Hne : row <> []) by (intros ->; cbn in Hlen; lia).
  destruct (exists_last Hne) as (coeffs & c & ->).
  exists coeffs, c. split; [reflexivity |]. rewrite length_app in Hlen. cbn in Hlen. lia.
Qed.

Lemma equation_holds_snoc (xs : list Q) (coeffs : list Fraction) (c : Fraction) :
  equation_holds xs (coeffs ++ [c]) <-> (dot (map value coeffs) xs == value c)%Q.
Proof.
  unfold equation_holds. rewrite getitem_last_snoc, removelast_last. reflexivity.
Qed.

Lemma dot_zero_l (cs xs : list Q) :
  Forall (fun a => a == 0)%Q cs -> (dot cs xs == 0)%Q.
Proof.
  intros H. revert xs. induction H as [| a cs Ha _ IH]; intros xs; [reflexivity |].
  destruct xs as [| x xs]; [reflexivity |]. cbn [dot]. rewrite Ha, IH. ring.
Qed.

(** A linear form that takes the same value everywhere is zero. *)
Lemma dot_all (cs : list Q) (c : Q) :
  (forall xs, length xs = length cs -> dot cs xs == c)%Q ->
  (c == 0)%Q /\ Forall (fun a => a == 0)%Q cs.
Proof.
  induction cs as [| a cs IH]; intros H.
  - split; [| constructor]. rewrite <- (H [] eq_refl). reflexivity.
  - destruct IH as [Hc Hcs].
    { intros xs Hxs. rewrite <- (H (0%Q :: xs)) by (cbn; lia). cbn [dot]. ring. }
    split; [exact Hc |]. constructor; [| exact Hcs].
    pose proof (H (1%Q :: repeat 0%Q (length cs))) as H1.
    cbn [dot length] in H1. rewrite repeat_length in H1. specialize (H1 eq_refl).
    rewrite (dot_zero_l cs _ Hcs), Hc in H1. rewrite <- H1. ring.
Qed.

Lemma values_zero (row : list Fraction) :
  Forall (fun x => Fraction_eq_int x 0 = true) row ->
  Forall (fun a => a == 0)%Q (map value row).
Proof.
  intros H. apply Forall_map. eapply Forall_impl; [exact H |].
  intros x Hx. now apply value_zero.
Qed.

Lemma zero_values (row : list Fraction) :
  Forall canonical row ->
  Forall (fun a => a == 0)%Q (map value row) ->
  Forall (fun x => Fraction_eq_int x 0 = true) row.
Proof.
  intros Hc H. apply Forall_map in H. apply Forall_lookup_2. intros i x Hx.
  pose proof (Forall_lookup_1 _ _ _ _ Hc Hx) as Hcx.
  pose proof (Forall_lookup_1 _ _ _ _ H Hx) as Hvx. cbn beta in Hvx.
  now apply (eq_int_value x 0 Hcx).
Qed.

(** A row of zeros is the equation every assignment satisfies. *)
Lemma zero_row_iff (n : nat) (row : list Fraction) :
  length row = n + 1 -> Forall canonical row ->
  Forall (fun x => Fraction_eq_int x 0 = true) row
  <-> forall xs, length xs = n -> equation_holds xs row.
Proof.
  intros Hlen Hc. destruct (row_split row n Hlen) as (coeffs & c & -> & Hn).
  apply Forall_app in Hc. destruct Hc as [Hcc Hc1].
  inversion Hc1 as [| ? ? Hcan _]; subst.
  split.
  - intros H xs _. apply Forall_app in H. destruct H as [H0 H1].
    inversion H1 as [| ? ? Hz _]; subst.
    apply equation_holds_snoc.
    rewrite (dot_zero_l _ xs (values_zero coeffs H0)), (value_zero c Hz). reflexivity.
  - intros H.
    destruct (dot_all (map value coeffs) (value c)) as [Hv Hvs].
    { intros xs Hxs. apply equation_holds_snoc, H.
      rewrite Hxs, length_map. reflexivity. }
    apply Forall_app. split; [now apply zero_values |].
    constructor; [| constructor]. now apply (eq_int_value c 0 Hcan).
Qed.

Lemma zero_matrix_iff (rows n : nat) (m : Matrix) :
  rectangular rows (n + 1) m ->
  zero_matrix m <-> forall xs, length xs = n -> solution n xs m.
Proof.
  intros [_ Hrows]. unfold zero_matrix, solution. split.
  - intros H xs Hxs. split; [exact Hxs |].
    apply Forall_lookup_2. intros i row Hrow.
    pose proof (Forall_lookup_1 _ _ _ _ Hrows Hrow) as [Hl Hc].
    apply (zero_row_iff n row Hl Hc); [| exact Hxs].
    exact (Forall_lookup_1 _ _ _ _ H Hrow).
  - intros H. apply Forall_lookup_2. intros i row Hrow.
    pose proof (Forall_lookup_1 _ _ _ _ Hrows Hrow) as [Hl Hc].
    apply (zero_row_iff n row Hl Hc). intros xs Hxs.
    destruct (H xs Hxs) as [_ Hall].
    exact (Forall_lookup_1 _ _ _ _ Hall Hrow).
Qed.

Lemma zero_matrix_same_solutions (rows n : nat) (m m' : Matrix) :
  rectangular rows (n + 1) m -> rectangular rows (n + 1) m' ->
  same_solutions n m m' -> zero_matrix m <-> zero_matrix m'.
Proof.
  intros Hm Hm' Hs.
  rewrite (zero_matrix_iff rows n m Hm), (zero_matrix_iff rows n m' Hm').
  split; intros H xs Hxs; apply Hs, H, Hxs.
Qed.

(** No assignment satisfies a row the final loop calls inconsistent. *)
Lemma inconsistent_row_unsolvable (row : list Fraction) (xs : list Q) :
  Forall canonical row -> inconsistent_row row = true -> ~ equation_holds xs row.
Proof.
  intros Hc Hinc.
  assert (Hne : row <> []) by (intros ->; discriminate).
  destruct (exists_last Hne) as (coeffs & c & ->).
  unfold inconsistent_row, all_zero_coefficients in Hinc.
  rewrite getitem_last_snoc, removelast_last in Hinc.
  apply andb_true_iff in Hinc. destruct Hinc as [Hz Hnz].
  apply negb_true_iff in Hnz.
  apply Forall_app in Hc. destruct Hc as [_ Hc1].
  inversion Hc1 as [| ? ? Hcan _]; subst.
  rewrite equation_holds_snoc.
  assert (Hd : (dot (map value coeffs) xs == 0)%Q).
  { apply dot_zero_l, values_zero, forallb_true, Hz. }
  rewrite Hd. intros H. apply (value_nonzero c Hcan Hnz). rewrite <- H. reflexivity.
Qed.

Lemma scan_rows_none (m : Matrix) (solutions : list Fraction) :
  scan_rows m solutions = Ok None ->
  Exists (fun row => inconsistent_row row = true) m.
Proof.
  revert solutions. induction m as [| row rest IH]; intros solutions;
    cbn [scan_rows]; [discriminate |].
  destruct (getitem_last row) as [c | e] eqn:Hc; cbn [result_bind]; [| discriminate].
  destruct (all_zero_coefficients row && negb (Fraction_eq_int c 0)) eqn:Hinc.
  - intros _. left. unfold inconsistent_row. now rewrite Hc.
  - destruct (all_zero_coefficients row && Fraction_eq_int c 0);
      intros H; right; eapply IH; exact H.
Qed.

Lemma scan_rows_some (m : Matrix) (solutions s : list Fraction) :
  scan_rows m solutions = Ok (Some s) ->
  Forall (fun row => inconsistent_row row = false) m
  /\ s = solutions ++ accepted_constants m.
Proof.
  revert solutions. induction m as [| row rest IH]; intros solutions;
    cbn [scan_rows accepted_constants flat_map].
  - intros [= <-]. split; [constructor | now rewrite app_nil_r].
  - destruct (getitem_last row) as [c | e] eqn:Hc; cbn [result_bind]; [| discriminate].
    destruct (all_zero_coefficients row) eqn:Hz; cbn [andb].
    + destruct (Fraction_eq_int c 0) eqn:Hc0; cbn [negb]; [| discriminate].
      intros H. destruct (IH _ H) as [Hrest ->].
      split; [| reflexivity]. constructor; [| exact Hrest].
      unfold inconsistent_row. now rewrite Hc, Hz, Hc0.
    + intros H. destruct (IH _ H) as [Hrest ->].
      split; [| now rewrite <- app_assoc]. constructor; [| exact Hrest].
      unfold inconsistent_row. now rewrite Hc, Hz.
Qed.

(** The scan accepts nothing exactly on the zero matrix. *)
Lemma scan_rows_zero (rows n : nat) (m : Matrix) :
  rectangular rows (n + 1) m ->
  scan_rows m [] = Ok (Some []) <-> zero_matrix m.
Proof.
  intros [_ Hrows]. unfold zero_matrix. split.
  - intros H. destruct (scan_rows_some m [] [] H) as [Hinc Hacc].
    cbn [app] in Hacc. clear H.
    induction m as [| row rest IH]; [constructor |].
    inversion Hrows as [| ? ? [Hl Hc] Hrows']; subst.
    inversion Hinc as [| ? ? Hrow Hinc']; subst.
    cbn [accepted_constants flat_map] in Hacc. symmetry in Hacc.
    apply app_eq_nil in Hacc. destruct Hacc as [Hhead Htail].
    constructor; [| apply IH; auto].
    destruct (row_split row n Hl) as (coeffs & c & -> & _).
    unfold inconsistent_row in Hrow. rewrite getitem_last_snoc in *.
    unfold all_zero_coefficients in *. rewrite removelast_last in *.
    destruct (forallb (fun x => Fraction_eq_int x 0) coeffs) eqn:Hz; [| discriminate].
    cbn [andb] in Hrow. apply negb_false_iff in Hrow.
    apply Forall_app. split; [| repeat constructor; exact Hrow].
    apply forallb_true, Hz.
  - intros H. induction m as [| row rest IH]; [reflexivity |].
    inversion Hrows as [| ? ? [Hl Hc] Hrows']; subst.
    inversion H as [| ? ? Hrow Hrest]; subst.
    destruct (row_split row n Hl) as (coeffs & c & -> & _).
    apply Forall_app in Hrow. destruct Hrow as [H0 H1].
    inversion H1 as [| ? ? Hc0 _]; subst.
    cbn [scan_rows]. rewrite getitem_last_snoc. cbn [result_bind].
    unfold all_zero_coefficients. rewrite removelast_last.
    replace (forallb (fun x => Fraction_eq_int x 0) coeffs) with true.
    + rewrite Hc0. cbn [andb negb]. now apply IH.
    + symmetry. apply forallb_true, H0.
Qed.

Lemma last_solution_line (x : Fraction) (solutions : list Fraction) :
  exists line, last (solution_lines (x :: solutions)) = Some line
               /\ is_solution_line line = true.
Proof.
  destruct (last (solution_lines (x :: solutions))) as [line |] eqn:Hlast.
  - exists line. split; [reflexivity |].
    apply last_Some in Hlast. destruct Hlast as (l' & Hl).
    assert (Hin : In line (solution_lines (x :: solutions)))
      by (rewrite Hl; apply in_or_app; right; now left).
    unfold solution_lines in Hin. apply in_map_iff in Hin.
    destruct Hin as ([idx val] & <- & _). reflexivity.
  - apply last_None in Hlast. discriminate.
Qed.

(** The last line of a report tells the verdict. *)
Lemma last_verdict_inconsistent (pre : list string) (verdict : option (list Fraction)) :
  last (pre ++ verdict_lines verdict) = Some (inconsistent_message +:+ newline)
  <-> verdict = None.
Proof.
  rewrite last_app. destruct verdict as [[| x s] |]; cbn [verdict_lines].
  - cbn. split; discriminate.
  - destruct (last_solution_line x s) as (line & -> & Hline).
    split; [| discriminate]. intros [= ->]. discriminate.
  - cbn. split; reflexivity.
Qed.

Lemma last_verdict_infinite (pre : list string) (verdict : option (list Fraction)) :
  last (pre ++ verdict_lines verdict) = Some (infinite_message +:+ newline)
  <-> verdict = Some [].
Proof.
  rewrite last_app. destruct verdict as [[| x s] |]; cbn [verdict_lines].
  - cbn. split; reflexivity.
  - destruct (last_solution_line x s) as (line & -> & Hline).
    split; [| discriminate]. intros [= ->]. discriminate.
  - cbn. split; discriminate.
Qed.

End Verdicts.

(** ** Systems on which Phase 1 meets no zero pivot *)

Section Gauss.

Local Open Scope nat_scope.

Variables rows n_vars : nat.
Local Abbreviation cols := (n_vars + 1).




End Gauss.

Section Identity.

Local Open Scope nat_scope.


Variable n : nat.











End Identity.

(** ** The infinite-solutions notice *)

Lemma zero_matrix_reports_infinite
    (n_vars : nat) (coefficients : list (list pyvalue)) (constants : list pyvalue)
    (m : Matrix) (lg : list string) :
  input_ok n_vars coefficients constants -> coefficients <> [] ->
  build_matrix coefficients constants (length coefficients) [] = (Ok m, []) ->
  zero_matrix m ->
  last (snd (solve coefficients constants lg)) = Some (infinite_message +:+ newline).
Proof.
  intros Hin Hne Hbuild Hzero. revert Hzero.
  destruct (built_matrix n_vars coefficients constants Hin m Hbuild) as [Hm _].
  destruct (solve_run n_vars coefficients constants Hin m lg Hne Hbuild)
    as (m1 & pr & m2 & ops1 & ops2 & verdict & _ & _ & _ & Hm2 & _ & Hs2 & Hscan & Hsolve).
  rewrite Hsolve. cbn [snd]. rewrite !app_assoc, last_verdict_infinite.
  rewrite (zero_matrix_same_solutions _ n_vars m m2 Hm Hm2 Hs2).
  rewrite <- (scan_rows_zero _ n_vars m2 Hm2), Hscan.
  congruence.
Qed.

(** ** A system that is already reduced *)

Section Reduced.

Local Open Scope nat_scope.





Variable n : nat.
Variable m : Matrix.
Hypothesis reduced :
  forall r j, r < n -> j < n -> entry_is m r j (if r =? j then 1%Z else 0%Z).






End Reduced.

(** ** Running under the limit on conversions *)

Section Renders.

Local Open Scope nat_scope.

Lemma length_append (s1 s2 : string) :
  String.length (s1 +:+ s2) = String.length s1 + String.length s2.
Proof.
  induction s1 as [| c s1 IH]; [reflexivity |].
  change (S (String.length (s1 +:+ s2)) = S (String.length s1 + String.length s2)).
  now rewrite IH.
Qed.

(** The digits of [|n|] are in [str(n)]. *)
Lemma digits_le_str (n : Z) : digits n <= String.length (str n).
Proof.
  unfold digits. destruct (Z.ltb_spec n 0) as [Hneg | Hpos].
  - rewrite (str_negative n Hneg). replace (Z.abs n) with (- n)%Z by lia.
    cbn [String.length]. lia.
  - replace (Z.abs n) with n by lia. lia.
Qed.

Lemma digits_nonneg (n : Z) : (0 <= n)%Z -> digits n = String.length (str n).
Proof. intros Hn. unfold digits. now replace (Z.abs n) with n by lia. Qed.

Lemma str_within (n : Z) :
  digits n <= max_str_digits -> Limited.str n = Ok (str n).
Proof.
  intros H. unfold Limited.str. destruct (Nat.leb_spec (digits n) max_str_digits); [reflexivity | lia].
Qed.

Lemma str_beyond (n : Z) :
  max_str_digits < digits n -> Limited.str n = Raise ValueError.
Proof.
  intros H. unfold Limited.str. destruct (Nat.leb_spec (digits n) max_str_digits); [lia | reflexivity].
Qed.

Lemma renders_str (n : Z) : renders (Limited.str n) (str n).
Proof.
  destruct (Nat.le_gt_cases (digits n) max_str_digits) as [Hle | Hgt].
  - left. now apply str_within.
  - right. split; [now apply str_beyond |]. pose proof (digits_le_str n). lia.
Qed.



Lemma renders_format_value (x : Fraction) :
  renders (Limited.format_value x) (format_value x).
Proof.
  unfold Limited.format_value, format_value.
  destruct (denominator x =? 1)%Z; [apply renders_str |].
  destruct (renders_str (numerator x)) as [-> | [-> Hn]]; cbn [result_bind].
  - destruct (renders_str (denominator x)) as [-> | [-> Hd]]; cbn [result_bind].
    + now left.
    + right. split; [reflexivity |]. rewrite !length_append. lia.
  - right. split; [reflexivity |]. rewrite !length_append. lia.
Qed.

(** A value whose text is within the limit is formatted. *)
Lemma format_value_within (x : Fraction) :
  String.length (format_value x) <= max_str_digits ->
  Limited.format_value x = Ok (format_value x).
Proof.
  intros Hlen. destruct (renders_format_value x) as [H | [_ H]]; [exact H | lia].
Qed.

Lemma format_value_Ok (x : Fraction) (text : string) :
  Limited.format_value x = Ok text -> text = format_value x.
Proof.
  intros H. destruct (renders_format_value x) as [H' | [H' _]]; congruence.
Qed.





Lemma str_mul_space_length (n : nat) : String.length (str_mul " " n) = n.
Proof.
  induction n as [| n IH]; [reflexivity |].
  change (S (String.length (str_mul " " n)) = S n). now rewrite IH.
Qed.

(** [f"{s:>8}"] pads on the left and never truncates. *)
Lemma rjust_length (width : nat) (s : string) :
  String.length (rjust width s) = Nat.max width (String.length s).
Proof. unfold rjust. rewrite length_append, str_mul_space_length. lia. Qed.

(** A comprehension over values: all the texts, or [ValueError] at a value
    whose text is beyond the limit. *)
Lemma comprehension_format_value (row : list Fraction) :
  comprehension Limited.format_value row = Ok (map format_value row)
  \/ (comprehension Limited.format_value row = Raise ValueError
      /\ exists x, In x row /\ max_str_digits < String.length (format_value x)).
Proof.
  induction row as [| x row IH]; [now left |]. cbn [comprehension map].
  destruct (renders_format_value x) as [-> | [-> Hx]]; cbn [result_bind].
  - destruct IH as [-> | [-> (y & Hy & Hlen)]]; cbn [result_bind].
    + now left.
    + right. split; [reflexivity |]. exists y. split; [now right | exact Hlen].
  - right. split; [reflexivity |]. exists x. split; [now left | exact Hx].
Qed.


End Renders.

Section Limited.

Local Open Scope nat_scope.







End Limited.










(** * Claims that meet the limit on conversions (C6, C8, C10) *)

Section LimitedText.

Local Open Scope nat_scope.

(** The sign of [str(n)] split off: what remains is the numeral of [|n|]. *)
Lemma split_sign_abs (n : Z) (t : string) :
  split_sign (str n +:+ t) = ((n <? 0)%Z, str (Z.abs n) +:+ t).
Proof.
  destruct (Z.ltb_spec n 0) as [Hneg | Hpos].
  - rewrite (str_negative n Hneg). replace (Z.abs n) with (- n)%Z by lia. reflexivity.
  - replace (Z.abs n) with n by lia.
    destruct (str_nonneg n Hpos) as (s & -> & Hne & Hall & _).
    now apply split_sign_digits.
Qed.

Lemma numeral_abs (n : Z) :
  all_chars is_digit (str (Z.abs n)) = true
  /\ int_of_digits (str (Z.abs n)) = Ok (Z.abs n).
Proof.
  destruct (str_nonneg (Z.abs n)) as (s & -> & _ & Hall & Hint); [lia |]. auto.
Qed.

Lemma int_of_digits_within (n : Z) :
  digits n <= max_str_digits ->
  Limited.int_of_digits (str (Z.abs n)) = Ok (Z.abs n).
Proof.
  intros H. unfold Limited.int_of_digits. fold (digits n).
  destruct (Nat.leb_spec (digits n) max_str_digits); [| lia].
  apply numeral_abs.
Qed.

(** [Fraction(text)] on the text of a value whose numerator and
    denominator are within the limit. *)
Lemma Fraction_of_string_within (x : Fraction) :
  canonical x ->
  digits (numerator x) <= max_str_digits -> digits (denominator x) <= max_str_digits ->
  Limited.Fraction_of_string (format_value x) = Ok x.
Proof.
  intros Hx Hn Hd. pose proof Hx as [Hpos _].
  unfold Limited.Fraction_of_string, format_value.
  destruct (numeral_abs (numerator x)) as [Hall _].
  destruct (Z.eqb_spec (denominator x) 1) as [Hone | Hden].
  - pose proof (split_sign_abs (numerator x) EmptyString) as Hsign.
    rewrite !append_empty_r in Hsign.
    rewrite Hsign, (split_slash_digits _ Hall), (int_of_digits_within _ Hn).
    cbn [result_bind]. rewrite signed_abs, <- Hone. now apply Fraction_new_canonical.
  - rewrite (split_sign_abs (numerator x)), (split_slash_pair _ _ Hall),
      (int_of_digits_within _ Hn).
    cbn [result_bind].
    pose proof (int_of_digits_within _ Hd) as Hint.
    replace (Z.abs (denominator x)) with (denominator x) in Hint by lia.
    rewrite Hint. cbn [result_bind]. rewrite signed_abs.
    now apply Fraction_new_canonical.
Qed.

End LimitedText.

(** ** Formatting (C8) *)

(** A canonical fraction that [format_value] does not format. *)
Lemma huge_value_is_not_formatted :
  canonical (mkFraction (10 ^ 4300) 1)
  /\ Limited.format_value (mkFraction (10 ^ 4300) 1) = Raise ValueError.
Proof.
  split.
  - split; [reflexivity | apply Z.gcd_1_r].
  - unfold Limited.format_value. cbn [denominator numerator Z.eqb Pos.eqb].
    apply str_beyond. vm_compute. reflexivity.
Qed.

(** C8, as the code has it. For a rational value (a [Fraction] in canonical
    form) whose numerator and denominator have at most 4300 decimal digits,
    [format_value] returns the integer literal, which holds no slash, when
    the denominator is 1, and [<numerator>/<denominator>] otherwise, and
    reading the text back as a fraction gives the original value. For a
    value with a longer numerator or denominator it returns no text: the
    conversion of the integer raises [ValueError]. *)
Theorem format_value_round_trip (x : Fraction) :
  canonical x ->
  (denominator x = 1 -> (digits (numerator x) <= max_str_digits)%nat ->
     Limited.format_value x = Ok (str (numerator x))
     /\ no_slash (str (numerator x)) = true
     /\ Limited.Fraction_of_string (str (numerator x)) = Ok x)
  /\ (denominator x <> 1 ->
      (digits (numerator x) <= max_str_digits)%nat ->
      (digits (denominator x) <= max_str_digits)%nat ->
        Limited.format_value x = Ok (str (numerator x) +:+ "/" +:+ str (denominator x))
        /\ Limited.Fraction_of_string (str (numerator x) +:+ "/" +:+ str (denominator x))
           = Ok x)
  /\ ((max_str_digits < digits (numerator x))%nat
      \/ (max_str_digits < digits (denominator x))%nat ->
      Limited.format_value x = Raise ValueError).
Proof.
  intros Hx. split; [| split].
  - intros Hone Hn.
    assert (Hd : (digits (denominator x) <= max_str_digits)%nat)
      by (rewrite Hone; vm_compute; lia).
    pose proof (Fraction_of_string_within x Hx Hn Hd) as Hback.
    unfold format_value in Hback. unfold Limited.format_value.
    rewrite Hone in *. cbn [Z.eqb Pos.eqb] in *.
    split; [now apply str_within |]. split; [apply str_no_slash | exact Hback].
  - intros Hden Hn Hd.
    pose proof (Fraction_of_string_within x Hx Hn Hd) as Hback.
    unfold format_value in Hback. unfold Limited.format_value.
    destruct (Z.eqb_spec (denominator x) 1); [contradiction |].
    rewrite (str_within _ Hn), (str_within _ Hd). cbn [result_bind]. auto.
  - intros Hbig. unfold Limited.format_value.
    destruct (Z.eqb_spec (denominator x) 1) as [Hone | Hden].
    + destruct Hbig as [Hn | Hd]; [now apply str_beyond |].
      rewrite Hone in Hd. vm_compute in Hd. lia.
    + destruct (Nat.le_gt_cases (digits (numerator x)) max_str_digits) as [Hn | Hn].
      * destruct Hbig as [Hn' | Hd]; [lia |].
        rewrite (str_within _ Hn), (str_beyond _ Hd). reflexivity.
      * rewrite (str_beyond _ Hn). reflexivity.
Qed.

Lemma format_value_round_trip_witness :
  canonical (mkFraction (-5) 2)
  /\ Limited.format_value (mkFraction (-5) 2) = Ok "-5/2"%string
  /\ Limited.Fraction_of_string "-5/2" = Ok (mkFraction (-5) 2).
Proof.
  assert (Hx : canonical (mkFraction (-5) 2)) by (split; reflexivity).
  split; [exact Hx |].
  exact (proj1 (proj2 (format_value_round_trip (mkFraction (-5) 2) Hx))
           ltac:(discriminate) ltac:(vm_compute; lia) ltac:(vm_compute; lia)).
Defined.

(** ** Safety (C10) *)






(** ** Degenerate inputs (C6) *)




(** * Further properties of the solver *)

(** ** Elimination steps, entry by entry *)









(** ** What the final report says about the system *)



(** X5. The INCONSISTENT verdict is sound. On a well-formed input with at
    least one equation, if the transcript of [solve] ends with the line
    "System is INCONSISTENT (No Solution)." then no assignment of rational
    values to the variables satisfies every equation of the augmented
    matrix built from the input. *)
Theorem inconsistent_report_is_sound
    (n_vars : nat) (coefficients : list (list pyvalue)) (constants : list pyvalue)
    (m : Matrix) (lg : list string) :
  input_ok n_vars coefficients constants -> coefficients <> [] ->
  build_matrix coefficients constants (length coefficients) [] = (Ok m, []) ->
  last (snd (solve coefficients constants lg)) = Some (inconsistent_message +:+ newline) ->
  forall xs, ~ solution n_vars xs m.
Proof.
  intros Hin Hne Hbuild Hlast xs Hsol.
  destruct (solve_run n_vars coefficients constants Hin m lg Hne Hbuild)
    as (m1 & pr & m2 & ops1 & ops2 & verdict & _ & _ & _ & Hm2 & _ & Hs2 & Hscan & Hsolve).
  rewrite Hsolve in Hlast. cbn [snd] in Hlast.
  rewrite !app_assoc in Hlast. apply last_verdict_inconsistent in Hlast. subst verdict.
  apply scan_rows_none in Hscan. apply Exists_exists in Hscan.
  destruct Hscan as (row & Hrow & Hinc).
  apply list_elem_of_lookup in Hrow. destruct Hrow as (r & Hrow).
  apply Hs2 in Hsol. destruct Hsol as [_ Hall].
  pose proof (Forall_lookup_1 _ _ _ _ (proj2 Hm2) Hrow) as [_ Hc].
  apply (inconsistent_row_unsolvable row xs Hc Hinc).
  exact (Forall_lookup_1 _ _ _ _ Hall Hrow).
Qed.

Lemma inconsistent_report_is_sound_witness :
  input_ok 2 [[PyInt 1; PyInt 1]; [PyInt 1; PyInt 1]] [PyInt 2; PyInt 3]
  /\ build_matrix [[PyInt 1; PyInt 1]; [PyInt 1; PyInt 1]] [PyInt 2; PyInt 3] 2 []
     = (Ok [[mkFraction 1 1; mkFraction 1 1; mkFraction 2 1];
            [mkFraction 1 1; mkFraction 1 1; mkFraction 3 1]], [])
  /\ last (snd (solve [[PyInt 1; PyInt 1]; [PyInt 1; PyInt 1]] [PyInt 2; PyInt 3] []))
     = Some (inconsistent_message +:+ newline)
  /\ forall xs,
       ~ solution 2 xs [[mkFraction 1 1; mkFraction 1 1; mkFraction 2 1];
                        [mkFraction 1 1; mkFraction 1 1; mkFraction 3 1]].
Proof.
  assert (Hin : input_ok 2 [[PyInt 1; PyInt 1]; [PyInt 1; PyInt 1]] [PyInt 2; PyInt 3]).
  { split; [| split]; [| reflexivity |]; repeat constructor. }
  assert (Hbuild :
            build_matrix [[PyInt 1; PyInt 1]; [PyInt 1; PyInt 1]] [PyInt 2; PyInt 3] 2 []
            = (Ok [[mkFraction 1 1; mkFraction 1 1; mkFraction 2 1];
                   [mkFraction 1 1; mkFraction 1 1; mkFraction 3 1]], []))
    by (vm_compute; reflexivity).
  assert (Hlast :
            last (snd (solve [[PyInt 1; PyInt 1]; [PyInt 1; PyInt 1]]
                         [PyInt 2; PyInt 3] []))
            = Some (inconsistent_message +:+ newline))
    by (vm_compute; reflexivity).
  split; [exact Hin |]. split; [exact Hbuild |]. split; [exact Hlast |].
  exact (inconsistent_report_is_sound 2 _ _ _ [] Hin ltac:(discriminate) Hbuild Hlast).
Defined.

(** X6. The notice "Infinite solutions or trivial system." is the last
    line of the transcript of a well-formed input with at least one
    equation exactly when every entry of the augmented matrix built from
    the input is zero. *)
Theorem infinite_report_iff_zero_system
    (n_vars : nat) (coefficients : list (list pyvalue)) (constants : list pyvalue)
    (m : Matrix) (lg : list string) :
  input_ok n_vars coefficients constants -> coefficients <> [] ->
  build_matrix coefficients constants (length coefficients) [] = (Ok m, []) ->
  last (snd (solve coefficients constants lg)) = Some (infinite_message +:+ newline)
  <-> zero_matrix m.
Proof.
  intros Hin Hne Hbuild.
  destruct (built_matrix n_vars coefficients constants Hin m Hbuild) as [Hm _].
  destruct (solve_run n_vars coefficients constants Hin m lg Hne Hbuild)
    as (m1 & pr & m2 & ops1 & ops2 & verdict & _ & _ & _ & Hm2 & _ & Hs2 & Hscan & Hsolve).
  rewrite Hsolve. cbn [snd]. rewrite !app_assoc, last_verdict_infinite.
  rewrite (zero_matrix_same_solutions _ n_vars m m2 Hm Hm2 Hs2).
  rewrite <- (scan_rows_zero _ n_vars m2 Hm2), Hscan.
  split; congruence.
Qed.

Lemma infinite_report_iff_zero_system_witness :
  input_ok 2 [[PyInt 0; PyInt 0]; [PyInt 0; PyInt 0]] [PyInt 0; PyInt 0]
  /\ build_matrix [[PyInt 0; PyInt 0]; [PyInt 0; PyInt 0]] [PyInt 0; PyInt 0] 2 []
     = (Ok [[mkFraction 0 1; mkFraction 0 1; mkFraction 0 1];
            [mkFraction 0 1; mkFraction 0 1; mkFraction 0 1]], [])
  /\ last (snd (solve [[PyInt 0; PyInt 0]; [PyInt 0; PyInt 0]] [PyInt 0; PyInt 0] []))
     = Some (infinite_message +:+ newline).
Proof.
  assert (Hin : input_ok 2 [[PyInt 0; PyInt 0]; [PyInt 0; PyInt 0]] [PyInt 0; PyInt 0]).
  { split; [| split]; [| reflexivity |]; repeat constructor. }
  assert (Hbuild :
            build_matrix [[PyInt 0; PyInt 0]; [PyInt 0; PyInt 0]] [PyInt 0; PyInt 0] 2 []
            = (Ok [[mkFraction 0 1; mkFraction 0 1; mkFraction 0 1];
                   [mkFraction 0 1; mkFraction 0 1; mkFraction 0 1]], []))
    by (vm_compute; reflexivity).
  split; [exact Hin |]. split; [exact Hbuild |].
  apply (infinite_report_iff_zero_system 2 _ _ _ [] Hin ltac:(discriminate) Hbuild).
  repeat constructor.
Defined.





(** ** The constants handed to [solve] *)

Lemma for_in_ext {A S : Type} (l : list A) (body1 body2 : A -> S -> M (flow S)) :
  (forall x s lg, In x l -> body1 x s lg = body2 x s lg) ->
  forall s lg, for_in l body1 s lg = for_in l body2 s lg.
Proof.
  induction l as [| x l IH]; intros Hext s lg; [reflexivity |].
  cbn [for_in]. unfold bind. rewrite (Hext x s lg) by now left.
  destruct (body2 x s lg) as [[[s' | s'] | e] lg']; try reflexivity.
  apply IH. intros y t lg0 Hy. apply Hext. now right.
Qed.

(** Matrix construction when the constants run out before the rows do. *)
Lemma build_loop_short (coefficients : list (list pyvalue)) (constants : list pyvalue)
    (lg : list string) :
  Forall (Forall pyvalue_ok) coefficients -> Forall pyvalue_ok constants ->
  forall (n : nat) (acc : Matrix),
  (length acc <= length constants)%nat ->
  (length constants < length acc + n)%nat ->
  (length acc + n <= length coefficients)%nat ->
  for_in (seq (length acc) n)
    (fun i matrix =>
       let! row_copy := lift (build_row coefficients constants i) in
       ret (Next (matrix ++ [row_copy])))
    acc lg
  = (Raise IndexError, lg).
Proof.
  intros Hcs Hks. induction n as [| n IH]; intros acc Hlo Hhi Hlen; [lia |].
  cbn [seq for_in].
  destruct (lookup_lt_is_Some_2 coefficients (length acc)) as [coeffs Hc]; [lia |].
  pose proof (Forall_lookup_1 _ _ _ _ Hcs Hc) as Hok.
  destruct (Nat.eq_dec (length acc) (length constants)) as [Heq | Hne].
  - assert (Hrow : build_row coefficients constants (length acc) = Raise IndexError).
    { unfold build_row. rewrite (getitem_Some _ _ _ Hc). cbn [result_bind].
      destruct (comprehension_coerced coeffs Hok) as (cs & -> & _). cbn [result_bind].
      unfold getitem. rewrite (proj2 (lookup_ge_None constants (length acc))) by lia.
      reflexivity. }
    unfold bind, lift. rewrite Hrow. reflexivity.
  - destruct (lookup_lt_is_Some_2 constants (length acc)) as [k Hk]; [lia |].
    pose proof (Forall_lookup_1 _ _ _ _ Hks Hk) as Hkok.
    destruct (build_row_ok _ _ _ _ _ Hc Hk Hok Hkok) as (row & Hrow & _).
    rewrite (bind_lift _ _ _ Hrow), bind_ret.
    specialize (IH (acc ++ [row])).
    rewrite length_app, Nat.add_1_r in IH. apply IH; lia.
Qed.

(** X8. Fewer constants than equations: when the values are well formed
    and [constants] is shorter than [coefficients], [solve] raises
    [IndexError] while it builds the matrix, before anything is logged. *)
Theorem missing_constant_raises_index_error
    (coefficients : list (list pyvalue)) (constants : list pyvalue) (lg : list string) :
  Forall (Forall pyvalue_ok) coefficients -> Forall pyvalue_ok constants ->
  (length constants < length coefficients)%nat ->
  solve coefficients constants lg = (Raise IndexError, lg).
Proof.
  intros Hcs Hks Hlen. unfold solve.
  destruct (Nat.eqb_spec (length coefficients) 0) as [Hz | _]; [lia |].
  apply bind_Raise. unfold build_matrix, range. rewrite Nat.sub_0_r.
  apply (build_loop_short coefficients constants lg Hcs Hks (length coefficients) []);
    cbn [length]; lia.
Qed.

Lemma missing_constant_raises_index_error_witness :
  Forall (Forall pyvalue_ok) [[PyInt 1; PyInt 2]; [PyInt 3; PyInt 4]]
  /\ Forall pyvalue_ok [PyInt 5]
  /\ solve [[PyInt 1; PyInt 2]; [PyInt 3; PyInt 4]] [PyInt 5] [] = (Raise IndexError, []).
Proof.
  assert (Hcs : Forall (Forall pyvalue_ok) [[PyInt 1; PyInt 2]; [PyInt 3; PyInt 4]])
    by (repeat constructor).
  assert (Hks : Forall pyvalue_ok [PyInt 5]) by (repeat constructor).
  split; [exact Hcs |]. split; [exact Hks |].
  apply (missing_constant_raises_index_error _ _ [] Hcs Hks). cbn. lia.
Defined.

(** X9. More constants than equations: the constants beyond the number of
    rows of [coefficients] are never read; [solve] behaves as on the
    truncated list. *)
Theorem extra_constants_are_ignored
    (coefficients : list (list pyvalue)) (constants : list pyvalue) (lg : list string) :
  solve coefficients (take (length coefficients) constants) lg
  = solve coefficients constants lg.
Proof.
  unfold solve.
  destruct (Nat.eqb_spec (length coefficients) 0) as [Hz | _]; [reflexivity |].
  unfold bind at 1. symmetry. unfold bind at 1. symmetry.
  assert (Hbuild :
            build_matrix coefficients (take (length coefficients) constants)
              (length coefficients) lg
            = build_matrix coefficients constants (length coefficients) lg).
  { unfold build_matrix. apply for_in_ext. intros i matrix lg0 Hi.
    apply in_range in Hi. unfold build_row, getitem.
    rewrite lookup_take_lt by lia. reflexivity. }
  rewrite Hbuild. reflexivity.
Qed.

(** ** The final loop in closed form *)

(** X10. Classification of a rectangular matrix with at least the constant
    column returns; it logs the INCONSISTENT line alone when some row has
    all-zero coefficients and a non-zero constant; otherwise it numbers, from
    [x1] on and in row order, the constants of the rows whose coefficients
    are not all zero (whichever columns these rows have their pivots in),
    and logs the infinite-solutions notice when there is no such row. *)
Theorem classify_in_closed_form (rows cols : nat) (m : Matrix) (lg : list string) :
  rectangular rows cols m -> (0 < cols)%nat ->
  classify rows m lg
  = (Ok tt,
     lg ++ verdict_lines (if existsb inconsistent_row m then None
                          else Some (accepted_constants m))).
Proof.
  intros [Hlen Hrows] Hcols. subst rows. rewrite classify_verdict.
  destruct (scan_rows_returns m []) as ([s |] & Hscan).
  { eapply Forall_impl; [exact Hrows |]. intros row [Hl _] ->. cbn in Hl. lia. }
  - rewrite Hscan. destruct (scan_rows_some m [] s Hscan) as [Hno ->].
    replace (existsb inconsistent_row m) with false; [reflexivity |].
    symmetry. apply not_true_is_false. intros Hex.
    apply existsb_exists in Hex. destruct Hex as (row & Hin & Hinc).
    apply list_elem_of_In, list_elem_of_lookup in Hin. destruct Hin as (r & Hrow).
    pose proof (Forall_lookup_1 _ _ _ _ Hno Hrow) as Hf. cbn beta in Hf. congruence.
  - rewrite Hscan. apply scan_rows_none in Hscan.
    replace (existsb inconsistent_row m) with true; [reflexivity |].
    symmetry. apply existsb_exists. apply Exists_exists in Hscan.
    destruct Hscan as (row & Hin & Hinc). exists row.
    split; [now apply list_elem_of_In | exact Hinc].
Qed.

Lemma classify_in_closed_form_witness :
  rectangular 3 3
    [[mkFraction 0 1; mkFraction 1 1; mkFraction 7 1];
     [mkFraction 0 1; mkFraction 0 1; mkFraction 0 1];
     [mkFraction 1 1; mkFraction 0 1; mkFraction 4 1]]
  /\ classify 3
       [[mkFraction 0 1; mkFraction 1 1; mkFraction 7 1];
        [mkFraction 0 1; mkFraction 0 1; mkFraction 0 1];
        [mkFraction 1 1; mkFraction 0 1; mkFraction 4 1]] []
     = (Ok tt, ["x1 = 7" +:+ newline; "x2 = 4" +:+ newline]).
Proof.
  set (matrix := [[mkFraction 0 1; mkFraction 1 1; mkFraction 7 1];
                  [mkFraction 0 1; mkFraction 0 1; mkFraction 0 1];
                  [mkFraction 1 1; mkFraction 0 1; mkFraction 4 1]]).
  assert (Hrect : rectangular 3 3 matrix).
  { split; [reflexivity |]. repeat constructor; cbn; try reflexivity; try lia. }
  split; [exact Hrect |].
  rewrite (classify_in_closed_form 3 3 matrix [] Hrect ltac:(lia)).
  vm_compute. reflexivity.
Defined.

(** ** The layout of the transcript *)

Section Layout.

Local Open Scope nat_scope.

Lemma concat_cells_length (cells : list string) :
  Forall (fun cell => String.length cell = 8) cells -> cells <> [] ->
  String.length (String.concat ", " cells) + 2 = 10 * length cells.
Proof.
  induction 1 as [| cell cells Hcell Hcells IH]; intros Hne; [congruence |].
  destruct cells as [| cell' cells].
  - cbn. lia.
  - change (String.concat ", " (cell :: cell' :: cells))
      with (cell +:+ ", " +:+ String.concat ", " (cell' :: cells)).
    rewrite !length_append, Hcell. cbn [String.length length] in *.
    specialize (IH ltac:(discriminate)). lia.
Qed.

Lemma format_row_length (row : list Fraction) :
  Forall (fun x => String.length (format_value x) <= 8) row -> row <> [] ->
  String.length (format_row row +:+ newline) = 10 * length row + 2.
Proof.
  intros Hrow Hne. unfold format_row. rewrite !length_append.
  pose proof (concat_cells_length (map (fun x => rjust 8 (format_value x)) row)) as H.
  rewrite length_map in H. cbn [String.length newline].
  assert (Hcells : Forall (fun cell => String.length cell = 8)
                     (map (fun x => rjust 8 (format_value x)) row)).
  { apply Forall_map. eapply Forall_impl; [exact Hrow |].
    intros x Hx. cbn beta in *. rewrite rjust_length. lia. }
  specialize (H Hcells). destruct row; [congruence |].
  specialize (H ltac:(discriminate)). cbn [length] in *. lia.
Qed.

(** A row whose values are formatted in at most 8 characters each. *)
Lemma limited_format_row_short (row : list Fraction) :
  Forall (fun x => exists text,
            Limited.format_value x = Ok text /\ String.length text <= 8) row ->
  Limited.format_row row = Ok (format_row row)
  /\ Forall (fun x => String.length (format_value x) <= 8) row.
Proof.
  intros Hrow.
  assert (Hshort : Forall (fun x => String.length (format_value x) <= 8) row).
  { eapply Forall_impl; [exact Hrow |]. intros x (text & Htext & Hlen). cbn beta.
    now rewrite <- (format_value_Ok x text Htext). }
  split; [| exact Hshort].
  unfold Limited.format_row, format_row.
  destruct (comprehension_format_value row) as [-> | [_ (x & Hx & Hlen)]].
  - cbn [result_bind]. now rewrite map_map.
  - exfalso. apply list_elem_of_In in Hx. apply list_elem_of_lookup in Hx.
    destruct Hx as (i & Hi).
    pose proof (Forall_lookup_1 _ _ _ _ Hshort Hi) as H8. cbn beta in H8.
    unfold max_str_digits in Hlen. lia.
Qed.

Lemma limited_print_rows_run (matrix : Matrix) (lg : list string) :
  Forall (fun row => Limited.format_row row = Ok (format_row row)) matrix ->
  for_in matrix (fun row _ => do! Limited.log (Limited.format_row row) in ret (Next tt)) tt lg
  = (Ok tt, lg ++ map (fun row => format_row row +:+ newline) matrix).
Proof.
  intros Hm. revert lg. induction Hm as [| row matrix Hrow _ IH]; intros lg; cbn [for_in map].
  - unfold ret. now rewrite app_nil_r.
  - rewrite Hrow. unfold bind at 1. unfold bind at 1. unfold Limited.log, log at 1. cbn [ret].
    rewrite IH, <- app_assoc. reflexivity.
Qed.

End Layout.

(** X11. On a matrix whose rows have [cols] entries, at least one, each
    formatted in at most 8 characters, [print_matrix] returns without
    raising and logs one title line, one line per row and a closing line of
    dashes. Every cell is right-aligned in a field of 8 characters, so the
    row lines all have the same length, [10 * cols + 2] with the line feed:
    the columns line up. *)
Theorem print_matrix_rows_align
    (cols : nat) (m : Matrix) (title : string) (lg : list string) :
  Forall (fun row =>
            length row = cols
            /\ Forall (fun x => exists text,
                         Limited.format_value x = Ok text
                         /\ (String.length text <= 8)%nat) row) m ->
  (0 < cols)%nat ->
  exists row_lines,
    Limited.print_matrix m title lg
    = (Ok tt,
       lg ++ [(newline +:+ "--- " +:+ title +:+ " ---") +:+ newline]
          ++ row_lines ++ [str_mul "-" 40 +:+ newline])
    /\ Forall2 (fun row line => exists text,
                  Limited.format_row row = Ok text /\ line = text +:+ newline)
         m row_lines
    /\ Forall (fun line => String.length line = (10 * cols + 2)%nat) row_lines.
Proof.
  intros Hm Hcols. exists (map (fun row => format_row row +:+ newline) m).
  assert (Hrows : Forall (fun row => Limited.format_row row = Ok (format_row row)) m).
  { eapply Forall_impl; [exact Hm |]. intros row [_ Hrow].
    exact (proj1 (limited_format_row_short row Hrow)). }
  split; [| split].
  - unfold Limited.print_matrix. unfold bind at 1. unfold Limited.log at 1, log at 1.
    unfold bind at 1. rewrite (limited_print_rows_run m _ Hrows).
    unfold Limited.log, log. rewrite <- !app_assoc. reflexivity.
  - apply Forall2_fmap_r, Forall_Forall2_diag.
    eapply Forall_impl; [exact Hrows |]. intros row Hrow.
    exists (format_row row). split; [exact Hrow | reflexivity].
  - apply Forall_map. eapply Forall_impl; [exact Hm |].
    intros row [Hlen Hrow]. cbn beta. rewrite <- Hlen.
    apply format_row_length; [exact (proj2 (limited_format_row_short row Hrow)) |].
    intros ->. cbn in Hlen. lia.
Qed.

Lemma print_matrix_rows_align_witness :
  Forall (fun row =>
            length row = 3%nat
            /\ Forall (fun x => exists text,
                         Limited.format_value x = Ok text
                         /\ (String.length text <= 8)%nat) row)
    [[mkFraction 2 1; mkFraction (-1) 3; mkFraction 5 1];
     [mkFraction 1 1; mkFraction 3 1; mkFraction 123456 7]]
  /\ exists row_lines,
       Limited.print_matrix
         [[mkFraction 2 1; mkFraction (-1) 3; mkFraction 5 1];
          [mkFraction 1 1; mkFraction 3 1; mkFraction 123456 7]] default_title []
       = (Ok tt,
          [] ++ [(newline +:+ "--- " +:+ default_title +:+ " ---") +:+ newline]
             ++ row_lines ++ [str_mul "-" 40 +:+ newline])
       /\ Forall (fun line => String.length line = 32%nat) row_lines.
Proof.
  set (matrix := [[mkFraction 2 1; mkFraction (-1) 3; mkFraction 5 1];
                  [mkFraction 1 1; mkFraction 3 1; mkFraction 123456 7]]).
  assert (Hm : Forall (fun row =>
                         length row = 3%nat
                         /\ Forall (fun x => exists text,
                                      Limited.format_value x = Ok text
                                      /\ (String.length text <= 8)%nat) row)
                 matrix).
  { repeat constructor; eexists; (split; [vm_compute; reflexivity | vm_compute; lia]). }
  split; [exact Hm |].
  destruct (print_matrix_rows_align 3 matrix default_title [] Hm ltac:(lia))
    as (row_lines & Hrun & _ & Hlen).
  exists row_lines. split; [exact Hrun | exact Hlen].
Defined.

(** ** Report lines *)

Section LogsOnly.

Variable P : string -> Prop.






End LogsOnly.









(** * The application around the solver *)

Section Gui.

Local Open Scope nat_scope.

Variable strip : string -> string.
Variable Fraction_of_text : string -> result Fraction.

Local Abbreviation cell := (read_cell strip Fraction_of_text).
Local Abbreviation rows_of := (read_rows strip Fraction_of_text).

Lemma comprehension_fails {A B : Type} (f : A -> result B) (l : list A) :
  Exists (fun x => exists e, f x = Raise e) l ->
  exists e, comprehension f l = Raise e.
Proof.
  induction 1 as [x l [e He] | x l _ [e IH]]; cbn [comprehension].
  - exists e. now rewrite He.
  - destruct (f x) as [y | e']; cbn [result_bind]; [| eauto].
    exists e. now rewrite IH.
Qed.

Lemma comprehension_all {A B : Type} (f : A -> result B) (P : B -> Prop) (l : list A) :
  Forall (fun x => exists y, f x = Ok y /\ P y) l ->
  exists ys, comprehension f l = Ok ys /\ length ys = length l /\ Forall P ys.
Proof.
  induction 1 as [| x l (y & Hy & HP) _ (ys & Hys & Hlen & Hall)]; cbn [comprehension].
  - exists []. repeat split. constructor.
  - exists (y :: ys). rewrite Hy, Hys. cbn [result_bind length].
    split; [reflexivity |]. split; [lia | now constructor].
Qed.

(** One cell that does not read as a fraction stops the reading loop. *)
Lemma read_rows_fails (rows : list (list string)) :
  Exists (Exists (fun text => exists e, cell text = Raise e)) rows ->
  forall coefficients constants,
  exists e, rows_of rows coefficients constants = Raise e.
Proof.
  induction 1 as [row rest Hrow | row rest _ IH]; intros coefficients constants;
    cbn [read_rows].
  - destruct (comprehension_fails _ _ Hrow) as (e & ->). eauto.
  - destruct (comprehension cell row) as [values | e]; cbn [result_bind]; [| eauto].
    destruct (getitem_last values) as [constant | e]; cbn [result_bind]; [| eauto].
    apply IH.
Qed.

Lemma last_snoc_default {A : Type} (l : list A) (x d : A) : List.last (l ++ [x]) d = x.
Proof. induction l as [| a [| b l] IH]; try reflexivity. exact IH. Qed.

(** A grid of [n + 1] columns whose cells all read as fractions. *)
Lemma read_rows_ok (n : nat) (rows : list (list string)) :
  Forall (fun row => length row = n + 1
                     /\ Forall (fun text => exists y, cell text = Ok y /\ canonical y) row)
    rows ->
  forall coefficients constants,
  exists values,
    Forall2 (fun row vs => comprehension cell row = Ok vs) rows values
    /\ Forall (fun vs => length vs = n + 1 /\ Forall canonical vs) values
    /\ rows_of rows coefficients constants
       = Ok (coefficients ++ map (fun vs => map PyFraction (removelast vs)) values,
             constants ++ map (fun vs => PyFraction (List.last vs (mkFraction 0 1))) values).
Proof.
  induction 1 as [| row rest [Hlen Hrow] _ IH]; intros coefficients constants;
    cbn [read_rows].
  - exists []. split; [constructor |]. split; [constructor |].
    cbn [map]. now rewrite !app_nil_r.
  - destruct (comprehension_all _ canonical row Hrow) as (vs & Hvs & Hl & Hc).
    rewrite Hvs. cbn [result_bind].
    destruct (row_split vs n) as (init & c & -> & Hinit); [lia |].
    rewrite getitem_last_snoc, removelast_last. cbn [result_bind].
    destruct (IH (coefficients ++ [map PyFraction init]) (constants ++ [PyFraction c]))
      as (values & Hrel & Hall & Hrun).
    exists ((init ++ [c]) :: values).
    split; [constructor; [exact Hvs | exact Hrel] |].
    split; [constructor; [split; [lia | exact Hc] | exact Hall] |].
    rewrite Hrun. cbn [map]. rewrite removelast_last, last_snoc_default, <- !app_assoc.
    reflexivity.
Qed.

Lemma values_input_ok (n : nat) (values : list (list Fraction)) :
  Forall (fun vs => length vs = n + 1 /\ Forall canonical vs) values ->
  input_ok n (map (fun vs => map PyFraction (removelast vs)) values)
             (map (fun vs => PyFraction (List.last vs (mkFraction 0 1))) values).
Proof.
  intros Hall. split; [| split].
  - apply Forall_map. eapply Forall_impl; [exact Hall |].
    intros vs [Hlen Hc]. cbn beta.
    destruct (row_split vs n Hlen) as (init & c & -> & Hinit).
    rewrite removelast_last, length_map. split; [exact Hinit |].
    apply Forall_app in Hc. destruct Hc as [Hci _].
    apply Forall_map. eapply Forall_impl; [exact Hci |]. intros x Hx. exact Hx.
  - now rewrite !length_map.
  - apply Forall_map. eapply Forall_impl; [exact Hall |].
    intros vs [Hlen Hc]. cbn beta.
    destruct (row_split vs n Hlen) as (init & c & -> & Hinit).
    rewrite last_snoc_default. apply Forall_app in Hc. destruct Hc as [_ Hc1].
    inversion Hc1; subst. assumption.
Qed.

(** [solve_gui] on a grid whose cells all read as fractions. *)
Lemma solve_gui_valid (n : nat) (app : SolverApp) :
  entries app <> [] ->
  Forall (fun row => length row = n + 1
                     /\ Forall (fun text => exists y, cell text = Ok y /\ canonical y) row)
    (entries app) ->
  exists values text,
    Forall2 (fun row vs => comprehension cell row = Ok vs) (entries app) values
    /\ Forall (fun vs => length vs = n + 1 /\ Forall canonical vs) values
    /\ solve (map (fun vs => map PyFraction (removelast vs)) values)
             (map (fun vs => PyFraction (List.last vs (mkFraction 0 1))) values) []
       = (Ok tt, text)
    /\ solve_gui strip Fraction_of_text app = with_output app text.
Proof.
  intros Hne Hgrid.
  destruct (read_rows_ok n (entries app) Hgrid [] []) as (values & Hrel & Hall & Hrun).
  cbn [List.app] in Hrun.
  pose proof (values_input_ok n values Hall) as Hin.
  assert (Hvne : map (fun vs => map PyFraction (removelast vs)) values <> []).
  { pose proof (Forall2_length _ _ _ Hrel) as Hl.
    destruct (entries app); [congruence |]. destruct values; [discriminate Hl | discriminate]. }
  destruct (solve_returns n _ _ Hin Hvne []) as ([] & text & Hsolve & _).
  exists values, text. split; [exact Hrel |]. split; [exact Hall |].
  split; [exact Hsolve |].
  unfold solve_gui. destruct (entries app) as [| row rest] eqn:He; [congruence |].
  cbn [entries with_output output_text]. rewrite He, Hrun, Hsolve.
  destruct app. reflexivity.
Qed.

Lemma comprehension_repeat (text : string) (y : Fraction) (k : nat) :
  cell text = Ok y ->
  comprehension cell (repeat text k) = Ok (repeat y k).
Proof.
  intros Hy. induction k as [| k IH]; [reflexivity |].
  cbn [repeat comprehension]. rewrite Hy, IH. reflexivity.
Qed.

End Gui.

Section Grid.

Local Open Scope nat_scope.

Lemma map_const_repeat {A B : Type} (x : B) (l : list A) :
  map (fun _ => x) l = repeat x (length l).
Proof. induction l as [| a l IH]; cbn; [reflexivity | now rewrite IH]. Qed.

(** [create_grid] on valid dimensions. *)
Lemma create_grid_accepts (int_of_text : string -> option Z) (app : SolverApp) (r c : Z) :
  int_of_text (rows_var app) = Some r -> int_of_text (cols_var app) = Some c ->
  (1 <= r)%Z -> (2 <= c)%Z ->
  create_grid int_of_text app
  = Ok (with_grid app (repeat (repeat "0"%string (Z.to_nat c)) (Z.to_nat r))
          (Some (0, 0))).
Proof.
  intros Hr Hc Hr1 Hc2. unfold create_grid. rewrite Hr, Hc.
  destruct (Z.ltb_spec r 1); [lia |]. destruct (Z.ltb_spec c 2); [lia |].
  cbn [orb]. rewrite !map_const_repeat. unfold range.
  rewrite !length_seq, !Nat.sub_0_r.
  destruct (Z.to_nat r) as [| r'] eqn:Er; [lia |].
  destruct (Z.to_nat c) as [| c'] eqn:Ec; [lia |].
  reflexivity.
Qed.

(** A matrix built from zeros is the zero matrix. *)
Lemma coerced_zero (inputs : list pyvalue) (row : list Fraction) :
  Forall (fun v => v = PyFraction (mkFraction 0 1)) inputs ->
  Forall2 coerced inputs row ->
  Forall (fun x => Fraction_eq_int x 0 = true) row.
Proof.
  intros Hz Hrel. induction Hrel as [| v y inputs row Hvy _ IH]; [constructor |].
  inversion Hz as [| ? ? Hv Hz']; subst.
  constructor; [| exact (IH Hz')].
  unfold coerced in Hvy. vm_compute in Hvy. injection Hvy as <-. reflexivity.
Qed.

Lemma zero_values_zero_matrix (values : list (list Fraction)) (m : Matrix) :
  Forall (Forall (fun x => x = mkFraction 0 1)) values ->
  augmented (map (fun vs => map PyFraction (removelast vs)) values)
            (map (fun vs => PyFraction (List.last vs (mkFraction 0 1))) values) m ->
  zero_matrix m.
Proof.
  intros Hz [Hlen Hrows]. rewrite length_map in Hlen.
  apply Forall_lookup_2. intros i row Hrow.
  destruct (lookup_lt_is_Some_2 values i) as [vs Hvs];
    [apply lookup_lt_Some in Hrow; lia |].
  destruct (Hrows i (map PyFraction (removelast vs))
              (PyFraction (List.last vs (mkFraction 0 1))))
    as (row' & Hrow' & Hrel).
  { rewrite list_lookup_fmap, Hvs. reflexivity. }
  { rewrite list_lookup_fmap, Hvs. reflexivity. }
  assert (row' = row) by congruence. subst row'.
  refine (coerced_zero _ row _ Hrel).
  pose proof (Forall_lookup_1 _ _ _ _ Hz Hvs) as Hvz.
  apply Forall_app. split.
  - apply Forall_map.
    assert (Hinit : Forall (fun x => x = mkFraction 0 1) (removelast vs)).
    { destruct (list_eq_nil_dec vs) as [-> | Hne]; [constructor |].
      destruct (exists_last Hne) as (init & c & ->). rewrite removelast_last.
      apply Forall_app in Hvz. apply Hvz. }
    eapply Forall_impl; [exact Hinit |]. intros x ->. reflexivity.
  - constructor; [| constructor]. f_equal.
    destruct (list_eq_nil_dec vs) as [-> | Hne]; [reflexivity |].
    destruct (exists_last Hne) as (init & c & ->). rewrite last_snoc_default.
    apply Forall_app in Hvz. destruct Hvz as [_ Hc].
    inversion Hc as [| ? ? Hc0 _]. exact Hc0.
Qed.

End Grid.

Lemma Forall_repeat {A : Type} (P : A -> Prop) (x : A) (n : nat) :
  P x -> Forall P (repeat x n).
Proof. intros Hx. induction n; cbn [repeat]; constructor; auto. Qed.

(** X13. One invalid cell is enough for [solve_gui] to give up before the
    solver starts. When some cell of the grid does not read as a fraction,
    [solve_gui] shows exactly one "Input Error" box, the output pane has
    been erased and holds no line of a transcript, and the grid is left as
    it was: every cell is read before [solve] is called. *)
Theorem solve_gui_rejects_bad_cell
    (strip : string -> string) (Fraction_of_text : string -> result Fraction)
    (app : SolverApp) :
  Exists (Exists (fun text => exists e, read_cell strip Fraction_of_text text = Raise e))
    (entries app) ->
  exists e,
    solve_gui strip Fraction_of_text app
    = mkSolverApp (rows_var app) (cols_var app) (entries app) (focus app) []
        (dialogs app ++ [input_error e]).
Proof.
  intros Hbad.
  destruct (read_rows_fails strip Fraction_of_text (entries app) Hbad [] []) as (e & He).
  exists e. unfold solve_gui.
  destruct (entries app) as [| row rest] eqn:Hentries; [inversion Hbad |].
  cbn [entries with_output]. rewrite Hentries, He.
  unfold with_dialog, with_output.
  cbn [rows_var cols_var entries focus output_text dialogs].
  rewrite Hentries. reflexivity.
Qed.

Lemma solve_gui_rejects_bad_cell_witness :
  Exists (Exists (fun text => exists e,
                    read_cell (fun s => s) Fraction_of_string text = Raise e))
    [["1"; "2"]; ["x"; "4"]]%string
  /\ exists e,
       solve_gui (fun s => s) Fraction_of_string
         (mkSolverApp "2" "2" [["1"; "2"]; ["x"; "4"]]%string None ["old"%string] [])
       = mkSolverApp "2" "2" [["1"; "2"]; ["x"; "4"]]%string None []
           ([] ++ [input_error e]).
Proof.
  assert (Hbad : Exists (Exists (fun text => exists e,
                           read_cell (fun s => s) Fraction_of_string text = Raise e))
                   [["1"; "2"]; ["x"; "4"]]%string).
  { apply Exists_cons_tl, Exists_cons_hd, Exists_cons_hd.
    exists ValueError. vm_compute. reflexivity. }
  split; [exact Hbad |].
  exact (solve_gui_rejects_bad_cell (fun s => s) Fraction_of_string
           (mkSolverApp "2" "2" [["1"; "2"]; ["x"; "4"]]%string None ["old"%string] [])
           Hbad).
Defined.



(** X15. A grid straight from [create_grid] solves to the trivial system.
    When both configuration fields read as integers with at least 1 row and
    at least 2 columns, [create_grid] returns without an exception or a
    message box, with a grid of that many cells, every one holding ["0"],
    and the focus on the first cell; if ["0"] reads as the fraction 0,
    pressing SOLVE right away shows no message box and the transcript ends
    with the notice "Infinite solutions or trivial system.". *)
Theorem fresh_grid_reports_trivial_system
    (int_of_text : string -> option Z) (strip : string -> string)
    (Fraction_of_text : string -> result Fraction) (app : SolverApp) (r c : Z) :
  int_of_text (rows_var app) = Some r -> int_of_text (cols_var app) = Some c ->
  1 <= r -> 2 <= c ->
  read_cell strip Fraction_of_text "0" = Ok (mkFraction 0 1) ->
  exists app1,
    create_grid int_of_text app = Ok app1
    /\ entries app1 = repeat (repeat "0"%string (Z.to_nat c)) (Z.to_nat r)
    /\ focus app1 = Some (0%nat, 0%nat)
    /\ dialogs app1 = dialogs app
    /\ dialogs (solve_gui strip Fraction_of_text app1) = dialogs app
    /\ last (output_text (solve_gui strip Fraction_of_text app1))
       = Some (infinite_message +:+ newline).
Proof.
  intros Hr Hc Hr1 Hc2 Hzero.
  set (grid := repeat (repeat "0"%string (Z.to_nat c)) (Z.to_nat r)).
  exists (with_grid app grid (Some (0%nat, 0%nat))).
  split; [exact (create_grid_accepts int_of_text app r c Hr Hc Hr1 Hc2) |].
  split; [reflexivity |]. split; [reflexivity |]. split; [reflexivity |].
  assert (Hcols : (Z.to_nat c = (Z.to_nat c - 1) + 1)%nat) by lia.
  assert (Hne : entries (with_grid app grid (Some (0%nat, 0%nat))) <> []).
  { cbn [entries with_grid]. unfold grid.
    destruct (Z.to_nat r) eqn:Er; [lia | discriminate]. }
  destruct (solve_gui_valid strip Fraction_of_text (Z.to_nat c - 1)
              (with_grid app grid (Some (0%nat, 0%nat))) Hne)
    as (values & text & Hrel & Hall & Hsolve & Hgui).
  { cbn [entries with_grid]. apply Forall_repeat. split.
    - rewrite repeat_length. exact Hcols.
    - apply Forall_repeat. exists (mkFraction 0 1).
      split; [exact Hzero | split; reflexivity]. }
  rewrite Hgui. cbn [dialogs output_text with_output with_grid].
  split; [reflexivity |].
  cbn [entries with_grid] in Hrel.
  assert (Hzeros : Forall (Forall (fun x => x = mkFraction 0 1)) values).
  { apply Forall_lookup_2. intros i vs Hvs.
    destruct (Forall2_lookup_r _ _ _ _ _ Hrel Hvs) as (row & Hrow & Hread).
    assert (Hrow' : row = repeat "0"%string (Z.to_nat c)).
    { exact (Forall_lookup_1 _ _ _ _
               (Forall_repeat (fun row => row = repeat "0"%string (Z.to_nat c))
                  _ (Z.to_nat r) eq_refl) Hrow). }
    subst row.
    rewrite (comprehension_repeat strip Fraction_of_text "0" _ _ Hzero) in Hread.
    injection Hread as <-. apply Forall_repeat. reflexivity. }
  pose proof (values_input_ok (Z.to_nat c - 1) values Hall) as Hin.
  assert (Hvne : map (fun vs => map PyFraction (removelast vs)) values <> []).
  { pose proof (Forall2_length _ _ _ Hrel) as Hl. unfold grid in Hl.
    rewrite repeat_length in Hl.
    destruct values; [cbn in Hl; lia | discriminate]. }
  destruct (build_matrix_run (Z.to_nat c - 1) _ _ Hin []) as (m & Hbuild & Haug).
  pose proof (zero_values_zero_matrix values m Hzeros Haug) as Hzm.
  pose proof (zero_matrix_reports_infinite (Z.to_nat c - 1) _ _ m [] Hin Hvne Hbuild Hzm)
    as Hlast.
  rewrite Hsolve in Hlast. exact Hlast.
Qed.

Lemma fresh_grid_reports_trivial_system_witness :
  read_cell (fun s => s) Fraction_of_string "0" = Ok (mkFraction 0 1)
  /\ exists app1,
       create_grid
         (fun s => match int_of_digits s with Ok n => Some n | Raise _ => None end)
         (mkSolverApp "2" "3" [] None [] [])
       = Ok app1
       /\ entries app1 = [["0"; "0"; "0"]; ["0"; "0"; "0"]]%string
       /\ last (output_text (solve_gui (fun s => s) Fraction_of_string app1))
          = Some (infinite_message +:+ newline).
Proof.
  assert (Hzero : read_cell (fun s => s) Fraction_of_string "0" = Ok (mkFraction 0 1))
    by (vm_compute; reflexivity).
  split; [exact Hzero |].
  destruct (fresh_grid_reports_trivial_system
              (fun s => match int_of_digits s with Ok n => Some n | Raise _ => None end)
              (fun s => s) Fraction_of_string
              (mkSolverApp "2" "3" [] None [] []) 2 3
              eq_refl eq_refl ltac:(lia) ltac:(lia) Hzero)
    as (app1 & Hgrid & Hentries & _ & _ & _ & Hlast).
  exists app1. split; [exact Hgrid |]. split; [exact Hentries | exact Hlast].
Defined.


